(** * AdvancedSMTPValidator (src/server.js): a shallow embedding

    The development follows the class [AdvancedSMTPValidator] method by
    method: [isValidFormat], [getMxRecords], [checkSmtpServer],
    [verifyEmail], [analyzeResults] and [processBatch], and
    then the parsing of an uploaded file in the handler of
    [POST /api/upload].

    Conventions.
    - A JavaScript string is a Rocq [string], a text outside ASCII being
      written in UTF-8 as the messages of the source are.  A ['data'] event
      carries the text that [data.toString()] makes of its chunk, each
      chunk decoded on its own as the handler does.  Every
      test the source makes on characters (the classes of the format
      pattern, the separators ['@'] and CRLF, the verbs and the three
      status digits) is a test on ASCII characters, so the byte reading and
      the code-unit reading give the same answers.  (The parsing of an
      uploaded file counts code units: see [Upload].)
    - A promise is a value of [Promise]: still pending for ever, fulfilled
      or rejected.
    - A plain object used as a dictionary is a [gmap string _] of its own
      properties; the members it inherits from [Object.prototype] are
      listed in [objectPrototypeKeys] and taken into account wherever the
      source reads a property by a computed key. *)

From Stdlib Require Import ZArith Ascii String List Lia Permutation Sorted.
From stdpp Require Import gmap strings list fin_maps.

Local Open Scope Z_scope.
Local Open Scope nat_scope.

(** ** JavaScript strings *)

Definition CR : ascii := "013"%char.
Definition LF : ascii := "010"%char.
Definition CRLF : string := String CR (String LF EmptyString).

(** [s.startsWith(p)] *)
Definition startsWith (p s : string) : bool := String.prefix p s.

(** [s.includes(sub)] *)
Fixpoint includes (sub s : string) : bool :=
  String.prefix sub s ||
  match s with
  | EmptyString => false
  | String _ s' => includes sub s'
  end.

(** Prepend a character to the first piece of a split. *)
Definition consHead (c : ascii) (pieces : list string) : list string :=
  match pieces with
  | [] => [String c EmptyString]
  | h :: t => String c h :: t
  end.

(** [s.split(sep)] for a one-character separator. *)
Fixpoint split (sep : ascii) (s : string) : list string :=
  match s with
  | EmptyString => [EmptyString]
  | String c s' =>
      if Ascii.eqb c sep then EmptyString :: split sep s'
      else consHead c (split sep s')
  end.

(** [s.split('\r\n')] *)
Fixpoint splitCRLF (s : string) : list string :=
  match s with
  | EmptyString => [EmptyString]
  | String c s' =>
      match s' with
      | String c' s'' =>
          if Ascii.eqb c CR && Ascii.eqb c' LF then EmptyString :: splitCRLF s''
          else consHead c (splitCRLF s')
      | EmptyString => consHead c (splitCRLF s')
      end
  end.

(** White space skipped by [parseInt]: the ASCII part of StrWhiteSpaceChar.
    [parseInt] is only applied to the first three characters of a line and
    its result only compared with numbers from 421 up; three characters of
    which one is white space, ASCII or not, give less than 100 or NaN. *)
Definition isWhiteSpace (c : ascii) : bool :=
  let n := nat_of_ascii c in
  (9 <=? n) && (n <=? 13) || (n =? 32).

Fixpoint trimStart (s : string) : string :=
  match s with
  | String c s' => if isWhiteSpace c then trimStart s' else s
  | EmptyString => s
  end.

(** Value of a digit in the given radix (10 or 16). *)
Definition digitValue (radix : Z) (c : ascii) : option Z :=
  let n := Z.of_nat (nat_of_ascii c) in
  let v :=
    if (48 <=? n)%Z && (n <=? 57)%Z then Some (n - 48)%Z
    else if (97 <=? n)%Z && (n <=? 122)%Z then Some (n - 87)%Z
    else if (65 <=? n)%Z && (n <=? 90)%Z then Some (n - 55)%Z
    else None in
  match v with
  | Some d => if (d <? radix)%Z then Some d else None
  | None => None
  end.

(** The longest prefix of digits, read in the radix; [None] is NaN. *)
Fixpoint readDigits (radix : Z) (acc : option Z) (s : string) : option Z :=
  match s with
  | EmptyString => acc
  | String c s' =>
      match digitValue radix c with
      | Some d =>
          readDigits radix
            (Some (match acc with Some a => a * radix + d | None => d end)%Z) s'
      | None => acc
      end
  end.

(** [parseInt(s)] with no radix argument; [None] is NaN. *)
Definition parseInt (s : string) : option Z :=
  let s1 := trimStart s in
  let '(sign, s2) :=
    match s1 with
    | String "-"%char r => ((-1)%Z, r)
    | String "+"%char r => (1%Z, r)
    | _ => (1%Z, s1)
    end in
  let '(radix, s3) :=
    match s2 with
    | String "0"%char (String "x"%char r) => (16%Z, r)
    | String "0"%char (String "X"%char r) => (16%Z, r)
    | _ => (10%Z, s2)
    end in
  match readDigits radix None s3 with
  | Some v => Some (sign * v)%Z
  | None => None
  end.

(** ** Promises *)

Inductive Promise (A : Type) : Type :=
| Pending : Promise A
| Fulfilled (value : A) : Promise A
| Rejected (reason : string) : Promise A.
Arguments Pending {A}.
Arguments Fulfilled {A} value.
Arguments Rejected {A} reason.

(** ** isValidFormat: the anchored pattern

    [/^[a-zA-Z0-9][a-zA-Z0-9._%+-]{0,63}@[a-zA-Z0-9][a-zA-Z0-9.-]{0,253}\.[a-zA-Z]{2,}$/]
    is a sequence of character classes, each with a repetition range. *)

Inductive ClassItem : Type :=
| Range (lo hi : ascii)
| Single (c : ascii).

Definition CharClass : Type := list ClassItem.

Definition inItem (c : ascii) (it : ClassItem) : bool :=
  match it with
  | Range lo hi =>
      (nat_of_ascii lo <=? nat_of_ascii c) && (nat_of_ascii c <=? nat_of_ascii hi)
  | Single d => Ascii.eqb c d
  end.

Definition inClass (cls : CharClass) (c : ascii) : bool := existsb (inItem c) cls.

(** One class with its quantifier [{rmin,rmax}]; [rmax = None] is unbounded. *)
Record Atom : Type := mkAtom { cls : CharClass; rmin : nat; rmax : option nat }.

Definition once (cl : CharClass) : Atom := mkAtom cl 1 (Some 1).

Definition alnumClass : CharClass :=
  [Range "a" "z"; Range "A" "Z"; Range "0" "9"]%char.
Definition localClass : CharClass :=
  [Range "a" "z"; Range "A" "Z"; Range "0" "9";
   Single "."; Single "_"; Single "%"; Single "+"; Single "-"]%char.
Definition domainClass : CharClass :=
  [Range "a" "z"; Range "A" "Z"; Range "0" "9"; Single "."; Single "-"]%char.
Definition alphaClass : CharClass := [Range "a" "z"; Range "A" "Z"]%char.

Definition pattern : list Atom :=
  [ once alnumClass;
    mkAtom localClass 0 (Some 63);
    once [Single "@"%char];
    once alnumClass;
    mkAtom domainClass 0 (Some 253);
    once [Single "."%char];
    mkAtom alphaClass 2 None ].

(** [n] repetitions respect the upper bound of a quantifier. *)
Definition withinMax (hi : option nat) (n : nat) : Prop :=
  match hi with Some h => n ≤ h | None => True end.

(** Greedy repetition with backtracking: take one more character of the
    class when the upper bound allows it, and fall back to the continuation
    [k] once the lower bound is met. *)
Fixpoint matchRep (cl : CharClass) (k : string → bool)
    (lo : nat) (hi : option nat) (s : string) : bool :=
  let stop := (lo =? 0) && k s in
  match s with
  | EmptyString => stop
  | String c s' =>
      if inClass cl c && match hi with Some h => 0 <? h | None => true end
      then matchRep cl k (pred lo) (option_map pred hi) s' || stop
      else stop
  end.

(** The atoms in sequence; the final [$] asks for the end of the input. *)
Fixpoint matchAtoms (atoms : list Atom) (s : string) : bool :=
  match atoms with
  | [] => String.eqb s EmptyString
  | a :: rest => matchRep (cls a) (matchAtoms rest) (rmin a) (rmax a) s
  end.

(** [pattern.test(email)]: the leading [^] anchors the match at position 0. *)
Definition isValidFormat (email : string) : bool := matchAtoms pattern email.

(** ** getMxRecords

    [dns.resolveMx] calls back with [(err, addresses)]. *)

Record MxRecord : Type := mkMx { exchange : string; priority : Z }.

Record DnsReply : Type := mkReply {
  err : option string;                  (* the error code, when there is one *)
  addresses : option (list MxRecord)
}.

(** [addresses.sort((a, b) => a.priority - b.priority)]:
    [Array.prototype.sort] is stable, so records of equal priority keep the
    order of the answer.  A record is inserted before the first record,
    among those that followed it, whose priority is not smaller. *)
Fixpoint insertByPriority (x : MxRecord) (l : list MxRecord) : list MxRecord :=
  match l with
  | [] => [x]
  | y :: l' =>
      if (priority x <=? priority y)%Z then x :: l
      else y :: insertByPriority x l'
  end.

Definition sortByPriority (l : list MxRecord) : list MxRecord :=
  foldr insertByPriority [] l.

(** The promise executor of [getMxRecords].  [dns.resolveMx] throws at once
    when the name is not a string ([None] below, the [undefined] a
    destructuring can give), which rejects the promise; in the callback
    every branch resolves. *)
Definition getMxRecords (resolveMx : string → DnsReply) (domain : option string)
    : Promise (list string) :=
  match domain with
  | None => Rejected "ERR_INVALID_ARG_TYPE"
  | Some name =>
      let reply := resolveMx name in
      match err reply, addresses reply with
      | Some _, _ => Fulfilled []
      | None, None => Fulfilled []
      | None, Some [] => Fulfilled []
      | None, Some (r :: rs) =>
          Fulfilled (map exchange (sortByPriority (r :: rs)))
      end
  end.

(** ** checkSmtpServer: one probe on one socket *)

Module Smtp.

Record Result : Type := mkResult {
  isValid : bool;
  message : string;
  category : string
}.

(** What reaches the handlers registered by the probe: the four socket
    events it listens to, and the expiry of the timer set with
    [setTimeout(..., this.timeout)].  The ['data'] handler uses its chunk
    through [data.toString()] and in no other way, so the event carries
    that text: the chunk decoded by itself, a character that the boundary
    between two chunks cuts arriving as U+FFFD in each of them. *)
Inductive Event : Type :=
| Connect
| Data (text : string)
| Error (errorMessage : string)
| End
| Timeout.

Record Probe : Type := mkProbe {
  responseBuffer : string;
  timerArmed : bool;               (* [timeoutId] not yet cleared or fired *)
  written : list string;           (* [socket.write] calls, in order *)
  settled : Promise Result
}.

Definition start : Probe :=
  {| responseBuffer := EmptyString; timerArmed := true;
     written := []; settled := Pending |}.

Definition socketWrite (text : string) (p : Probe) : Probe :=
  {| responseBuffer := responseBuffer p; timerArmed := timerArmed p;
     written := written p ++ [text]; settled := settled p |}.

(** [cleanup()]: clear the timer and write QUIT (the socket is closed 100
    ms later; nothing in the handlers depends on that). *)
Definition cleanup (p : Probe) : Probe :=
  socketWrite ("QUIT" +:+ CRLF)
    {| responseBuffer := responseBuffer p; timerArmed := false;
       written := written p; settled := settled p |}.

(** [resolve(r)]: only the first settlement of a promise counts. *)
Definition resolve (r : Result) (p : Probe) : Probe :=
  {| responseBuffer := responseBuffer p; timerArmed := timerArmed p;
     written := written p;
     settled := match settled p with Pending => Fulfilled r | done => done end |}.

(** What the body of the [for] loop does with one line. *)
Inductive LineAction : Type :=
| Send (command : string)
| Resolve (r : Result)
| Skip.

Definition codeIs (code : option Z) (n : Z) : bool :=
  match code with Some c => (c =? n)%Z | None => false end.

Definition codeBetween (code : option Z) (lo hi : Z) : bool :=
  match code with Some c => (lo <=? c)%Z && (c <=? hi)%Z | None => false end.

Definition handleLine (email line : string) : LineAction :=
  let code := parseInt (String.substring 0 3 line) in
  if startsWith "220" line then
    Send ("HELO email-validator.com" +:+ CRLF)
  else if startsWith "250" line && includes "HELO" line then
    Send ("MAIL FROM: <check@email-validator.com>" +:+ CRLF)
  else if startsWith "250" line && includes "MAIL" line then
    Send ("RCPT TO: <" +:+ email +:+ ">" +:+ CRLF)
  else if startsWith "250" line && includes "RCPT" line then
    Resolve {| isValid := true; message := "Email существует";
               category := "valid" |}
  else if codeIs code 550 || codeIs code 551 then
    Resolve {| isValid := false; message := "Email не существует";
               category := "not_existing" |}
  else if codeIs code 552 || codeIs code 553 then
    Resolve {| isValid := false; message := "Ошибка почтового ящика";
               category := "mailbox_error" |}
  else if codeIs code 421 || codeIs code 450 then
    Resolve {| isValid := false; message := "Временная ошибка сервера";
               category := "temporary_error" |}
  else if codeBetween code 500 599 then
    Resolve {| isValid := false; message := "Ошибка сервера: " +:+ line;
               category := "smtp_error" |}
  else Skip.

(** Whether a line makes the handler call [resolve]. *)
Definition resolves (email line : string) : bool :=
  match handleLine email line with Resolve _ => true | _ => false end.

(** The [for] loop over the complete lines; a resolving line returns from
    the handler. *)
Fixpoint processLines (email : string) (lines : list string) (p : Probe) : Probe :=
  match lines with
  | [] => p
  | line :: rest =>
      match handleLine email line with
      | Send command => processLines email rest (socketWrite command p)
      | Resolve r => resolve r (cleanup p)
      | Skip => processLines email rest p
      end
  end.

(** The ['data'] handler: [responseBuffer += data.toString()], with
    [text] the value of [data.toString()]; the buffer is split again from
    its start, and every piece but the last is a complete line.  The
    buffer is never shortened. *)
Definition onData (email text : string) (p : Probe) : Probe :=
  let buffer := responseBuffer p +:+ text in
  let lines := splitCRLF buffer in
  processLines email (take (length lines - 1) lines)
    {| responseBuffer := buffer; timerArmed := timerArmed p;
       written := written p; settled := settled p |}.

Definition onTimeout (p : Probe) : Probe :=
  if timerArmed p then
    resolve {| isValid := false; message := "Таймаут подключения";
               category := "smtp_timeout" |} (cleanup p)
  else p.

Definition step (email : string) (p : Probe) (e : Event) : Probe :=
  match e with
  | Connect =>
      {| responseBuffer := EmptyString; timerArmed := timerArmed p;
         written := written p; settled := settled p |}
  | Data text => onData email text p
  | Error errorMessage =>
      resolve {| isValid := false;
                 message := "Ошибка подключения: " +:+ errorMessage;
                 category := "connection_error" |} (cleanup p)
  | End => cleanup p
  | Timeout => onTimeout p
  end.

(** The categories a probe can answer with. *)
Definition categories : list string :=
  [ "valid"; "not_existing"; "mailbox_error"; "temporary_error";
    "smtp_error"; "smtp_timeout"; "connection_error" ]%string.

(** A result as the probe builds them: a category of the list, a message
    that is not empty, and [isValid] set exactly for [valid]. *)
Definition wellFormed (r : Result) : Prop :=
  In (category r) categories ∧ message r ≠ EmptyString ∧
  (isValid r = true ↔ category r = "valid"%string).

(** The object literals passed to [resolve] in the source. *)
Inductive built : Result → Prop :=
| built_valid : built (mkResult true "Email существует" "valid")
| built_not_existing : built (mkResult false "Email не существует" "not_existing")
| built_mailbox_error : built (mkResult false "Ошибка почтового ящика" "mailbox_error")
| built_temporary_error :
    built (mkResult false "Временная ошибка сервера" "temporary_error")
| built_smtp_error line :
    built (mkResult false ("Ошибка сервера: " +:+ line) "smtp_error")
| built_smtp_timeout : built (mkResult false "Таймаут подключения" "smtp_timeout")
| built_connection_error errorMessage :
    built (mkResult false ("Ошибка подключения: " +:+ errorMessage) "connection_error").

(** A promise that is pending or fulfilled with one of those. *)
Definition neverRejected (P : Promise Result) : Prop :=
  match P with
  | Pending => True
  | Fulfilled r => built r
  | Rejected _ => False
  end.

Definition run (email : string) (events : list Event) : Probe :=
  fold_left (step email) events start.

(** The promise returned by [checkSmtpServer(mxHost, email)] when the
    socket to [mxHost] delivers [events]: once they are over, a timer that
    is still armed fires.  The executor calls only [resolve], so the
    promise is rejected on no path; [mxHost] is used to open the socket
    and nowhere else. *)
Definition checkSmtpServer (events : list Event) (mxHost email : string)
    : Promise Result :=
  settled (onTimeout (run email events)).

End Smtp.

(** ** verifyEmail *)

Record Details : Type := mkDetails {
  mxRecords : option (list string);
  smtpServer : option string
}.

Record Verdict : Type := mkVerdict {
  email : string;
  isValid : bool;
  category : string;
  message : string;
  details : Details
}.

(** The outside world of one call of [verifyEmail]: the resolver's answer
    for a name, and what the socket of the [i]-th probe, opened to a given
    host, delivers. *)
Record Network : Type := mkNetwork {
  resolveMx : string → DnsReply;
  socketEvents : nat → string → list Smtp.Event
}.

Definition setOutcome (isValid' : bool) (category' message' : string)
    (host : string) (result : Verdict) : Verdict :=
  {| email := email result; isValid := isValid';
     category := category'; message := message';
     details := {| mxRecords := mxRecords (details result);
                   smtpServer := Some host |} |}.

(** The promise of the [i]-th probe of a call, opened to [host]. *)
Definition probe (net : Network) (address : string) (i : nat) (host : string)
    : Promise Smtp.Result :=
  Smtp.checkSmtpServer (socketEvents net i host) host address.

(** The statements after the [for] loop. *)
Definition afterLoop (result : Verdict) : Verdict :=
  if String.eqb (message result) EmptyString then
    {| email := email result; isValid := isValid result;
       category := "smtp_timeout";
       message := "Все SMTP серверы недоступны";
       details := details result |}
  else result.

(** The [for (const mxHost of mxRecords)] loop, from the [i]-th host on.
    The first component lists the hosts a probe was started for. *)
Fixpoint smtpLoop (net : Network) (address : string) (i : nat)
    (hosts : list string) (result : Verdict) : list string * Promise Verdict :=
  match hosts with
  | [] => ([], Fulfilled (afterLoop result))
  | mxHost :: rest =>
      match probe net address i mxHost with
      | Fulfilled smtpResult =>
          if Smtp.isValid smtpResult then
            ([mxHost],
             Fulfilled (setOutcome true "valid" "Email существует" mxHost result))
          else
            let result' :=
              setOutcome (isValid result)
                (if String.eqb (Smtp.category smtpResult) EmptyString
                 then "smtp_error" else Smtp.category smtpResult)
                (Smtp.message smtpResult) mxHost result in
            let '(probed, p) := smtpLoop net address (S i) rest result' in
            (mxHost :: probed, p)
      | Rejected _ =>
          let '(probed, p) := smtpLoop net address (S i) rest result in
          (mxHost :: probed, p)
      | Pending => ([mxHost], Pending)
      end
  end.

(** [const [, domain] = email.split('@')] *)
Definition domainOf (address : string) : option string :=
  match split "@" address with
  | _ :: domain :: _ => Some domain
  | _ => None
  end.

Definition initialResult (address : string) : Verdict :=
  {| email := address; isValid := false; category := "invalid";
     message := EmptyString;
     details := {| mxRecords := None; smtpServer := None |} |}.

Definition withOutcome (category' message' : string) (result : Verdict) : Verdict :=
  {| email := email result; isValid := isValid result;
     category := category'; message := message'; details := details result |}.

Definition verifyEmailTraced (net : Network) (address : string)
    : list string * Promise Verdict :=
  let result := initialResult address in
  if negb (isValidFormat address) then
    ([], Fulfilled (withOutcome "invalid_format" "Неверный формат email" result))
  else
    match getMxRecords (resolveMx net) (domainOf address) with
    | Fulfilled [] =>
        ([], Fulfilled (withOutcome "no_mx_records" "MX записи не найдены" result))
    | Fulfilled hosts =>
        smtpLoop net address 0 hosts
          {| email := email result; isValid := isValid result;
             category := category result; message := message result;
             details := {| mxRecords := Some hosts;
                           smtpServer := smtpServer (details result) |} |}
    | Rejected _ =>
        ([], Fulfilled (withOutcome "dns_error" "Ошибка поиска MX записей" result))
    | Pending => ([], Pending)
    end.

Definition verifyEmail (net : Network) (address : string) : Promise Verdict :=
  snd (verifyEmailTraced net address).

(** A verdict whose category, message and validity are those of a probe's
    result. *)
Definition fromProbe (v : Verdict) : Prop :=
  ∃ r, Smtp.built r ∧ category v = Smtp.category r ∧
       message v = Smtp.message r ∧ isValid v = Smtp.isValid r.

(** ** analyzeResults *)

(** The own properties of [Object.prototype], which every object literal
    inherits: reading one of these keys on [stats.categories] or
    [stats.domains] finds a function (for ["__proto__"], the prototype
    object) when the object has no own property of that name. *)
Definition objectPrototypeKeys : list string :=
  [ "constructor"; "__defineGetter__"; "__defineSetter__"; "hasOwnProperty";
    "__lookupGetter__"; "__lookupSetter__"; "isPrototypeOf";
    "propertyIsEnumerable"; "toString"; "valueOf"; "__proto__";
    "toLocaleString" ]%string.

Definition inherited (key : string) : bool :=
  existsb (String.eqb key) objectPrototypeKeys.

(** The values a property of [stats.categories] can hold: a count, NaN, or
    a piece of text (what [+ 1] makes of a function, an object or a piece of
    text; its characters are not modelled). *)
Inductive JsValue : Type :=
| Num (n : nat)
| NaN
| Text.

Module Domain.
Record Stat : Type := mkStat { total : nat; valid : nat; invalid : nat }.
End Domain.

Module Stats.
(** [topDomains] is derived from [domains] at the end and is left out. *)
Record t : Type := mkStats {
  total : nat;
  valid : nat;
  invalid : nat;
  categories : gmap string JsValue;
  domains : gmap string Domain.Stat
}.
End Stats.

(** The literal [categories: { valid: 0, ..., temporary_error: 0 }]. *)
Definition presetCategories : list string :=
  [ "valid"; "invalid_format"; "no_mx_records"; "dns_error"; "not_existing";
    "smtp_timeout"; "smtp_error"; "connection_error"; "mailbox_error";
    "temporary_error" ]%string.

Definition initialCategories : gmap string JsValue :=
  list_to_map (map (λ key, (key, Num 0)) presetCategories).

(** [stats.categories.valid++] *)
Definition increment (key : string) (o : gmap string JsValue) : gmap string JsValue :=
  match o !! key with
  | Some (Num n) => <[key := Num (S n)]> o
  | _ => <[key := NaN]> o
  end.

(** [o[key] = (o[key] || 0) + 1].  An own count is incremented; NaN and a
    missing property count as 0; a piece of text, and an inherited member,
    are truthy and [+ 1] appends to their text.  The assignment creates or
    updates an own property, except for ["__proto__"], whose inherited
    setter ignores a value that is not an object. *)
Definition addOne (key : string) (o : gmap string JsValue) : gmap string JsValue :=
  match o !! key with
  | Some (Num n) => <[key := Num (S n)]> o
  | Some NaN => <[key := Num 1]> o
  | Some Text => <[key := Text]> o
  | None =>
      if String.eqb key "__proto__" then o
      else if inherited key then <[key := Text]> o
      else <[key := Num 1]> o
  end.

(** The per-domain part of the [forEach] body.  When the domain names an
    inherited member, [stats.domains[domain]] is truthy, no entry is
    created and the increments land on that member; they leave NaN in
    properties of it, which every later read of the source takes for a
    missing property, so [Object.prototype] is not part of the state. *)
Definition countDomain (result : Verdict) (o : gmap string Domain.Stat)
    : gmap string Domain.Stat :=
  if includes "@" (email result) then
    let domain := nth 1 (split "@" (email result)) "undefined"%string in
    if inherited domain then o
    else
      let d := default (Domain.mkStat 0 0 0) (o !! domain) in
      <[domain :=
          if isValid result
          then Domain.mkStat (S (Domain.total d)) (S (Domain.valid d)) (Domain.invalid d)
          else Domain.mkStat (S (Domain.total d)) (Domain.valid d) (S (Domain.invalid d))]> o
  else o.

(** The body of [results.forEach]. *)
Definition tally (stats : Stats.t) (result : Verdict) : Stats.t :=
  if isValid result then
    {| Stats.total := Stats.total stats;
       Stats.valid := S (Stats.valid stats);
       Stats.invalid := Stats.invalid stats;
       Stats.categories := increment "valid" (Stats.categories stats);
       Stats.domains := countDomain result (Stats.domains stats) |}
  else
    {| Stats.total := Stats.total stats;
       Stats.valid := Stats.valid stats;
       Stats.invalid := S (Stats.invalid stats);
       Stats.categories := addOne (category result) (Stats.categories stats);
       Stats.domains := countDomain result (Stats.domains stats) |}.

Definition analyzeResults (results : list Verdict) : Stats.t :=
  fold_left tally results
    {| Stats.total := length results; Stats.valid := 0; Stats.invalid := 0;
       Stats.categories := initialCategories; Stats.domains := ∅ |}.

(** The part of the [forEach] body that updates the histogram. *)
Definition tallyCategory (result : Verdict) (o : gmap string JsValue)
    : gmap string JsValue :=
  if isValid result then increment "valid" o else addOne (category result) o.

(** ** Reading an aggregate *)

Definition valueCount (v : JsValue) : nat :=
  match v with Num n => n | _ => 0 end.

(** The count kept under a key, 0 when there is none. *)
Definition countOf (o : gmap string JsValue) (key : string) : nat :=
  from_option valueCount 0 (o !! key).

(** The sum of the values of the histogram. *)
Definition sumCounts (o : gmap string JsValue) : nat :=
  map_fold (λ _ v acc, valueCount v + acc) 0 o.

Definition allNumeric (o : gmap string JsValue) : Prop :=
  map_Forall (λ _ v, ∃ n, v = Num n) o.

(** The total kept for a domain, 0 when it has no entry. *)
Definition domainTotal (stats : Stats.t) (domain : string) : nat :=
  from_option Domain.total 0 (Stats.domains stats !! domain).

(** The invariant of a domain entry. *)
Definition balanced (D : Domain.Stat) : Prop :=
  Domain.valid D + Domain.invalid D = Domain.total D.

(** The categories of the specification's data model. *)
Definition closedSet : list string :=
  [ "valid"; "invalid_format"; "no_mx_records"; "dns_error"; "not_existing";
    "mailbox_error"; "temporary_error"; "smtp_error"; "smtp_timeout";
    "connection_error"; "processing_error" ]%string.

(** [isValid] is true iff the category is [valid]. *)
Definition consistent (v : Verdict) : Prop :=
  isValid v = true ↔ category v = "valid"%string.

(** The category of a verdict that is not valid is used as a key of the
    histogram; it is plain when it names no inherited member. *)
Definition plain (v : Verdict) : Prop :=
  isValid v = true ∨ inherited (category v) = false.

(** The number of verdicts of a category. *)
Definition observed (c : string) (results : list Verdict) : nat :=
  length (List.filter (λ v, String.eqb (category v) c) results).

(** The key a verdict is counted under, and the number of verdicts counted
    under a key. *)
Definition countedAs (v : Verdict) : string :=
  if isValid v then "valid"%string else category v.

Definition tallied (c : string) (results : list Verdict) : nat :=
  length (List.filter (λ v, String.eqb (countedAs v) c) results).

(** The domain whose entry a verdict is counted in, if any. *)
Definition countedDomain (v : Verdict) : option string :=
  if includes "@" (email v) then
    let domain := nth 1 (split "@" (email v)) "undefined"%string in
    if inherited domain then None else Some domain
  else None.

Definition inDomain (domain : string) (results : list Verdict) : nat :=
  length (List.filter (λ v, bool_decide (countedDomain v = Some domain)) results).

Definition countValid (results : list Verdict) : nat :=
  length (List.filter isValid results).

Definition countInvalid (results : list Verdict) : nat :=
  length (List.filter (λ v, negb (isValid v)) results).

(** One more under a key, for a histogram of counts. *)
Definition bump (key : string) (o : gmap string JsValue) : gmap string JsValue :=
  <[key := Num (S (countOf o key))]> o.

(** The object [stats] before the [forEach]. *)
Definition initialStats (n : nat) : Stats.t :=
  {| Stats.total := n; Stats.valid := 0; Stats.invalid := 0;
     Stats.categories := initialCategories; Stats.domains := ∅ |}.

(** ** processBatch *)

Definition concurrentLimit : nat := 5.

(** The calls made to the two callbacks, in the order they happen. *)
Inductive Call : Type :=
| OnProgress (completed total : nat) (result : Verdict)
| OnStatsUpdate (stats : Stats.t).

(** One run of [processBatch]: how the verification started for the
    address at a given index of the batch settles, the order in which the
    verifications of a group complete (positions inside the group), and
    whether each callback was passed.  The callbacks are taken to return
    normally. *)
Record Run : Type := mkRun {
  verify : nat → string → Promise Verdict;
  completionOrder : nat → list nat;
  onProgress : bool;
  onStatsUpdate : bool
}.

(** The variables the closures of [processBatch] share. *)
Record Batch : Type := mkBatch {
  results : list Verdict;
  completed : nat;
  calls : list Call
}.

Definition errorResult (address reason : string) : Verdict :=
  {| email := address; isValid := false; category := "processing_error";
     message := "Ошибка обработки: " +:+ reason;
     details := {| mxRecords := None; smtpServer := None |} |}.

(** What the arrow function mapped over a group does once [verifyEmail]
    has settled for one address. *)
Definition afterVerify (r : Run) (total : nat) (address : string)
    (outcome : Promise Verdict) (b : Batch) : Batch :=
  match outcome with
  | Fulfilled result =>
      let completed' := S (completed b) in
      let calls1 :=
        if onProgress r then calls b ++ [OnProgress completed' total result]
        else calls b in
      let calls2 :=
        if (completed' mod 100 =? 0) && onStatsUpdate r
        then calls1 ++ [OnStatsUpdate (analyzeResults (results b))]
        else calls1 in
      {| results := results b; completed := completed'; calls := calls2 |}
  | Rejected reason =>
      let completed' := S (completed b) in
      {| results := results b; completed := completed';
         calls := if onProgress r
                  then calls b ++ [OnProgress completed' total (errorResult address reason)]
                  else calls b |}
  | Pending => b
  end.

(** The value the arrow function returns, when it returns. *)
Definition groupValue (address : string) (outcome : Promise Verdict) : option Verdict :=
  match outcome with
  | Fulfilled result => Some result
  | Rejected reason => Some (errorResult address reason)
  | Pending => None
  end.

(** [Promise.all(groupPromises)]: the values in the order of the group,
    when every verification of the group settles; the first address of the
    group is the one at [index] in the batch. *)
Fixpoint groupValues (r : Run) (index : nat) (group : list string)
    : option (list Verdict) :=
  match group with
  | [] => Some []
  | address :: rest =>
      match groupValue address (verify r index address),
            groupValues r (S index) rest with
      | Some v, Some vs => Some (v :: vs)
      | _, _ => None
      end
  end.

(** [processGroup(group)] for the group that starts at index [offset] of
    the batch: the continuations run in completion order ([order] lists
    positions inside the group), then [Promise.all] gives the values. *)
Definition processGroup (r : Run) (total offset : nat) (order : list nat)
    (group : list string) (b : Batch) : Batch * option (list Verdict) :=
  (fold_left
     (λ b i, match group !! i with
             | Some address =>
                 afterVerify r total address (verify r (offset + i) address) b
             | None => b
             end)
     order b,
   groupValues r offset group).

(** [for (let i = 0; i < emails.length; i += limit) groups.push(emails.slice(i, i + limit))] *)
Fixpoint slices {A : Type} (fuel limit : nat) (items : list A) : list (list A) :=
  match fuel, items with
  | S fuel', _ :: _ => take limit items :: slices fuel' limit (drop limit items)
  | _, _ => []
  end.

Definition groupsOf {A : Type} (limit : nat) (items : list A) : list (list A) :=
  slices (length items) limit items.

(** The loop over the groups, from group number [g] on; the flag is
    false when some group never completes.  (The delay between groups
    changes no value.) *)
Fixpoint processGroups (r : Run) (total g offset : nat)
    (groups : list (list string)) (b : Batch) : Batch * bool :=
  match groups with
  | [] => (b, true)
  | group :: rest =>
      match processGroup r total offset (completionOrder r g) group b with
      | (b1, Some groupResults) =>
          processGroups r total (S g) (offset + length group) rest
            {| results := results b1 ++ groupResults;
               completed := completed b1; calls := calls b1 |}
      | (b1, None) => (b1, false)
      end
  end.

Record BatchRun : Type := mkBatchRun {
  callbackCalls : list Call;
  returned : Promise (list Verdict * Stats.t)
}.

Definition processBatch (r : Run) (emails : list string) : BatchRun :=
  let total := length emails in
  match processGroups r total 0 0 (groupsOf concurrentLimit emails)
          {| results := []; completed := 0; calls := [] |} with
  | (b, true) =>
      let finalStats := analyzeResults (results b) in
      {| callbackCalls :=
           if onStatsUpdate r then calls b ++ [OnStatsUpdate finalStats] else calls b;
         returned := Fulfilled (results b, finalStats) |}
  | (b, false) => {| callbackCalls := calls b; returned := Pending |}
  end.

(** A run of the batch over the real verifier: the [i]-th address meets the
    network [world i]. *)
Definition liveRun (world : nat → Network) (order : nat → list nat)
    (progress stats : bool) : Run :=
  {| verify := λ i address, verifyEmail (world i) address;
     completionOrder := order; onProgress := progress; onStatsUpdate := stats |}.

(** ** The calls of a batch, said directly

    These definitions are what the statements about [processBatch] compare
    the model with; the model does not use them. *)

(** The verdicts of the addresses of a list, the first of which is at
    [index] in the batch. *)
Fixpoint verdictsFrom (verdictAt : nat → string → Verdict) (index : nat)
    (addresses : list string) : list Verdict :=
  match addresses with
  | [] => []
  | address :: rest => verdictAt index address :: verdictsFrom verdictAt (S index) rest
  end.

(** The calls made while the verdicts [vs] complete one after the other,
    [c] verdicts being completed before: one [onProgress] each, followed by
    [onStatsUpdate(snapshot)] when the counter is a multiple of 100. *)
Fixpoint callsFor (total : nat) (snapshot : Stats.t) (c : nat) (vs : list Verdict)
    : list Call :=
  match vs with
  | [] => []
  | v :: vs' =>
      OnProgress (S c) total v ::
      (if S c mod 100 =? 0 then [OnStatsUpdate snapshot] else []) ++
      callsFor total snapshot (S c) vs'
  end.

(** The calls of the groups one after the other; [completions] lists, for
    each group, its verdicts in the order they completed.  While a group is
    in flight the snapshot is the aggregate of the results of the groups
    before it, the first [offset] results. *)
Fixpoint expectedCalls (total : nat) (results : list Verdict) (offset : nat)
    (completions : list (list Verdict)) : list Call :=
  match completions with
  | [] => []
  | completed :: rest =>
      callsFor total (analyzeResults (take offset results)) offset completed ++
      expectedCalls total results (offset + length completed) rest
  end.

(** Every verification of a group completes once. *)
Definition fairSchedule (r : Run) (emails : list string) : Prop :=
  ∀ g group, groupsOf concurrentLimit emails !! g = Some group →
             completionOrder r g ≡ₚ seq 0 (length group).

(** The verdicts of a group in the order they completed. *)
Definition completionsOf (verdictAt : nat → string → Verdict) (offset : nat)
    (order : list nat) (group : list string) : list Verdict :=
  omap (λ i, verdictAt (offset + i) <$> group !! i) order.

(** The completion lists of the groups from group number [g] on. *)
Fixpoint completionsFrom (r : Run) (verdictAt : nat → string → Verdict)
    (g offset : nat) (groups : list (list string)) : list (list Verdict) :=
  match groups with
  | [] => []
  | group :: rest =>
      completionsOf verdictAt offset (completionOrder r g) group ::
      completionsFrom r verdictAt (S g) (offset + length group) rest
  end.

(** ** The format rule in the words of the specification

    "Local part starts with an alphanumeric, then up to 63 of
    [A-Za-z0-9._%+-]; domain label chain starts with an alphanumeric, then up
    to 253 of [A-Za-z0-9.-]; followed by a [.] and an alphabetic TLD of
    length at least 2."  This is the statement [isValidFormat] is compared
    with; it is not used by the model of the code. *)

Module FormatRule.

Definition between (lo hi : nat) (c : ascii) : bool :=
  (lo <=? nat_of_ascii c) && (nat_of_ascii c <=? hi).

Definition alphabetic (c : ascii) : bool := between 65 90 c || between 97 122 c.
Definition alphanumeric (c : ascii) : bool := alphabetic c || between 48 57 c.

Definition oneOf (chars : string) (c : ascii) : bool :=
  existsb (Ascii.eqb c) (list_ascii_of_string chars).

Definition localChar (c : ascii) : bool := alphanumeric c || oneOf "._%+-" c.
Definition domainChar (c : ascii) : bool := alphanumeric c || oneOf ".-" c.

Fixpoint allOf (P : ascii → bool) (s : string) : bool :=
  match s with
  | EmptyString => true
  | String c s' => P c && allOf P s'
  end.

(** A local part: an alphanumeric and at most 63 further characters. *)
Definition localPart (s : string) : Prop :=
  ∃ c rest, s = String c rest ∧ alphanumeric c = true ∧
    allOf localChar rest = true ∧ String.length rest ≤ 63.

(** What follows the [@]: the label chain, a dot and the TLD. *)
Definition domainPart (s : string) : Prop :=
  ∃ c rest tld, s = String c rest +:+ "." +:+ tld ∧ alphanumeric c = true ∧
    allOf domainChar rest = true ∧ String.length rest ≤ 253 ∧
    allOf alphabetic tld = true ∧ 2 ≤ String.length tld.

Definition accepts (address : string) : Prop :=
  ∃ loc dom, address = loc +:+ "@" +:+ dom ∧ localPart loc ∧ domainPart dom.

(** No [@] inside: what makes a prefix of an address its local part. *)
Definition noAt (s : string) : bool := allOf (λ c, negb (Ascii.eqb c "@")) s.

End FormatRule.

(** ** Examples: networks, verdicts and batches *)

Module Example.

Definition greeting : Smtp.Event := Smtp.Data ("220 mx.ex.com ESMTP" +:+ CRLF).

(** A dialog that accepts the recipient. *)
Definition accepting : list Smtp.Event :=
  [ Smtp.Connect; greeting;
    Smtp.Data ("250 HELO mx.ex.com" +:+ CRLF);
    Smtp.Data ("250 MAIL ok" +:+ CRLF);
    Smtp.Data ("250 RCPT ok" +:+ CRLF) ].

Definition twoHosts : DnsReply :=
  mkReply None (Some [mkMx "mx2.ex.com" 20; mkMx "mx1.ex.com" 10]).

(** The host of priority 10 refuses the connection, the other accepts. *)
Definition firstRefuses : Network :=
  {| resolveMx := λ _, twoHosts;
     socketEvents := λ i _,
       match i with
       | 0 => [Smtp.Error "connect ECONNREFUSED"]
       | _ => accepting
       end |}.

(** The host of priority 10 answers 550 and the other 450. *)
Definition bothRefuse : Network :=
  {| resolveMx := λ _, twoHosts;
     socketEvents := λ i _,
       match i with
       | 0 => [Smtp.Connect; greeting; Smtp.Data ("550 5.1.1 User unknown" +:+ CRLF)]
       | _ => [Smtp.Connect; greeting; Smtp.Data ("450 4.2.0 Try again later" +:+ CRLF)]
       end |}.

(** Verdicts for three addresses of two domains. *)
Definition validAtEx : Verdict :=
  mkVerdict "a@ex.com" true "valid" "Email существует"
    (mkDetails (Some ["mx.ex.com"%string]) (Some "mx.ex.com"%string)).

Definition unknownAtEx : Verdict :=
  mkVerdict "b@ex.com" false "not_existing" "Email не существует"
    (mkDetails (Some ["mx.ex.com"%string]) (Some "mx.ex.com"%string)).

Definition malformed : Verdict :=
  mkVerdict "c@@other.org" false "invalid_format" "Неверный формат email"
    (mkDetails None None).

(** A batch of a hundred malformed addresses, completing in the order of
    the input. *)
Definition hundred : list string := repeat "bad@@example.com"%string 100.

Definition inOrder : nat → list nat := λ _, seq 0 concurrentLimit.

(** A batch of two addresses, the second completing first, on a network
    whose resolver times out. *)
Definition twoAddresses : list string := ["bad@@example.com"; "a@ex.com"]%string.

Definition secondFirst : nat → list nat := λ _, [1; 0].

(** The resolver times out. *)
Definition resolverTimesOut : Network :=
  {| resolveMx := λ _, mkReply (Some "ETIMEOUT") None;
     socketEvents := λ _ _, [] |}.

(** The verdict of an address on that network. *)
Definition verdictOffline (i : nat) (address : string) : Verdict :=
  match verifyEmail resolverTimesOut address with
  | Fulfilled v => v
  | _ => errorResult address ""
  end.

(** The server greets and closes its side of the connection; the QUIT
    written by [cleanup] raises no error. *)
Definition greetsAndCloses : list Smtp.Event :=
  [ Smtp.Connect; greeting; Smtp.End ].

Definition closingHost : Network :=
  {| resolveMx := λ _, mkReply None (Some [mkMx "mx.ex.com" 10]);
     socketEvents := λ _ _, greetsAndCloses |}.

End Example.

(** ** Reading a probe *)

(** The text [cleanup] writes. *)
Definition quitCommand : string := "QUIT" +:+ CRLF.

(** The state of a probe after a list of events, from any state. *)
Definition runFrom (email : string) (p : Smtp.Probe) (events : list Smtp.Event)
    : Smtp.Probe :=
  fold_left (Smtp.step email) events p.

(** The result of the first line that resolves, if any. *)
Fixpoint firstResolution (email : string) (lines : list string) : option Smtp.Result :=
  match lines with
  | [] => None
  | line :: rest =>
      match Smtp.handleLine email line with
      | Smtp.Resolve r => Some r
      | _ => firstResolution email rest
      end
  end.

(** The complete lines of a buffer: every piece of the split but the last. *)
Definition completeLines (buffer : string) : list string :=
  take (length (splitCRLF buffer) - 1) (splitCRLF buffer).

(** What two probes must share for the same events to settle them alike:
    everything but the log of writes. *)
Definition sameButWrites (p q : Smtp.Probe) : Prop :=
  Smtp.responseBuffer p = Smtp.responseBuffer q ∧
  Smtp.timerArmed p = Smtp.timerArmed q ∧
  Smtp.settled p = Smtp.settled q.

(** A probe that left the pending state has cleared its timer and written
    QUIT. *)
Definition cleanedUp (p : Smtp.Probe) : Prop :=
  Smtp.settled p = Pending ∨
  (Smtp.timerArmed p = false ∧ quitCommand ∈ Smtp.written p).

(** A probe that will settle: its timer is armed, or it has settled. *)
Definition armedOrSettled (p : Smtp.Probe) : Prop :=
  Smtp.timerArmed p = true ∨ Smtp.settled p ≠ Pending.

(** Whether a text begins with a line feed. *)
Definition startsWithLF (s : string) : bool :=
  match s with
  | String c _ => Ascii.eqb c LF
  | EmptyString => false
  end.

(** The first piece of a split gets one more character in front; there is
    no piece to extend in an empty list. *)
Definition mapHead (c : ascii) (pieces : list string) : list string :=
  match pieces with
  | [] => []
  | h :: t => String c h :: t
  end.

(** Lines sent one after the other, each ended by CRLF. *)
Fixpoint joinLines (lines : list string) : string :=
  match lines with
  | [] => EmptyString
  | line :: rest => line +:+ CRLF +:+ joinLines rest
  end.

(** [resolve] on the state of a promise. *)
Definition resolveWith (r : Smtp.Result) (P : Promise Smtp.Result) : Promise Smtp.Result :=
  match P with Pending => Fulfilled r | done => done end.

(** The events that neither deliver data nor report an error. *)
Definition quietEvent (e : Smtp.Event) : bool :=
  match e with
  | Smtp.Connect | Smtp.End | Smtp.Timeout => true
  | Smtp.Data _ | Smtp.Error _ => false
  end.

(** ** Reading an MX answer and a verdict *)

(** Ascending priorities. *)
Definition byPriority (a b : MxRecord) : Prop := (priority a ≤ priority b)%Z.

(** The records of one priority, in the order of a list. *)
Definition ofPriority (p : Z) (records : list MxRecord) : list MxRecord :=
  List.filter (λ x, (priority x =? p)%Z) records.

(** The categories [verifyEmail] answers with. *)
Definition verifierCategories : list string :=
  [ "invalid_format"; "no_mx_records"; "valid"; "not_existing"; "mailbox_error";
    "temporary_error"; "smtp_error"; "smtp_timeout"; "connection_error" ]%string.

(** ** Reading the updates of an aggregate *)

(** An update of one key of an object that reads the value under that key
    and nothing else; [None] from the function leaves the object as it
    is. *)
Definition updateAt {V : Type} (key : string) (g : option V → option V)
    (o : gmap string V) : gmap string V :=
  match g (o !! key) with
  | Some w => <[key := w]> o
  | None => o
  end.

(** What [++] leaves under a key. *)
Definition incremented (old : option JsValue) : option JsValue :=
  Some (match old with Some (Num n) => Num (S n) | _ => NaN end).

(** What [o[key] = (o[key] || 0) + 1] leaves under [key]. *)
Definition plusOne (key : string) (old : option JsValue) : option JsValue :=
  match old with
  | Some (Num n) => Some (Num (S n))
  | Some NaN => Some (Num 1)
  | Some Text => Some Text
  | None =>
      if String.eqb key "__proto__" then None
      else if inherited key then Some Text
      else Some (Num 1)
  end.

(** The entry of a domain after one more verdict. *)
Definition counted (valid : bool) (d : Domain.Stat) : Domain.Stat :=
  if valid
  then Domain.mkStat (S (Domain.total d)) (S (Domain.valid d)) (Domain.invalid d)
  else Domain.mkStat (S (Domain.total d)) (Domain.valid d) (S (Domain.invalid d)).

(** The valid and the other verdicts counted in a domain. *)
Definition inDomainValid (domain : string) (results : list Verdict) : nat :=
  length (List.filter
            (λ v, bool_decide (countedDomain v = Some domain) && isValid v) results).

Definition inDomainInvalid (domain : string) (results : list Verdict) : nat :=
  length (List.filter
            (λ v, bool_decide (countedDomain v = Some domain) && negb (isValid v)) results).

(** A histogram whose key [valid] holds a count. *)
Definition validCounted (o : gmap string JsValue) : Prop :=
  ∃ n, o !! "valid"%string = Some (Num n).

(** ** Reading the calls of a batch *)

(** The verdict the arrow function of [processGroup] returns for the
    address at an index once its verification has settled. *)
Definition settledVerdict (r : Run) (i : nat) (address : string) : Verdict :=
  default (errorResult address EmptyString) (groupValue address (verify r i address)).

(** The arguments of the calls of [onProgress], in the order of the calls. *)
Definition progressReports (log : list Call) : list (nat * nat * Verdict) :=
  omap (λ call, match call with
                | OnProgress c total v => Some (c, total, v)
                | OnStatsUpdate _ => None
                end) log.

(** The reports of verdicts that complete one after the other, [c] being
    completed before. *)
Fixpoint reportsFrom (total c : nat) (vs : list Verdict) : list (nat * nat * Verdict) :=
  match vs with
  | [] => []
  | v :: vs' => (S c, total, v) :: reportsFrom total (S c) vs'
  end.

(** Two runs that differ in nothing [processBatch] looks at before it has
    verified the first [bound] addresses. *)
Definition agreeBelow (bound : nat) (r r' : Run) : Prop :=
  (∀ i address, i < bound → verify r' i address = verify r i address) ∧
  completionOrder r' = completionOrder r ∧
  onProgress r' = onProgress r ∧ onStatsUpdate r' = onStatsUpdate r.

(** ** More examples *)

Module Sample.

(** A run on a network whose resolver times out, in which the second
    verification is rejected and completes first; only [onProgress] is
    passed. *)
Definition secondRejected : Run :=
  {| verify := λ i address,
       match i with
       | 1 => Rejected "socket hang up"
       | _ => verifyEmail Example.resolverTimesOut address
       end;
     completionOrder := Example.secondFirst;
     onProgress := true;
     onStatsUpdate := false |}.

End Sample.

(** ** Reading the writes of a probe *)

(** The four texts the probe writes to the socket. *)
Definition handshake (email : string) : list string :=
  [ "HELO email-validator.com" +:+ CRLF;
    "MAIL FROM: <check@email-validator.com>" +:+ CRLF;
    "RCPT TO: <" +:+ email +:+ ">" +:+ CRLF;
    quitCommand ].

(** What the [for] loop writes for a list of lines: the command of each
    line up to the first that resolves, for which [cleanup] writes QUIT. *)
Fixpoint writesFor (email : string) (lines : list string) : list string :=
  match lines with
  | [] => []
  | line :: rest =>
      match Smtp.handleLine email line with
      | Smtp.Send command => command :: writesFor email rest
      | Smtp.Resolve _ => [quitCommand]
      | Smtp.Skip => writesFor email rest
      end
  end.

(** The command lines of the probe, without their CRLF. *)
Definition commandLines (email : string) : list string :=
  [ "HELO email-validator.com"; "MAIL FROM: <check@email-validator.com>";
    "RCPT TO: <" +:+ email +:+ ">"; "QUIT" ]%string.

(** A text with neither CR nor LF in it. *)
Definition oneLine (s : string) : bool :=
  FormatRule.allOf (λ c, negb (Ascii.eqb c CR) && negb (Ascii.eqb c LF)) s.

(** A server that sends its replies one line at a time. *)
Definition lineByLine (lines : list string) : list Smtp.Event :=
  Smtp.Connect :: map (λ line, Smtp.Data (line +:+ CRLF)) lines.

(** The characters of an address that [isValidFormat] accepts. *)
Definition addressChar (c : ascii) : bool :=
  FormatRule.localChar c || Ascii.eqb c "@".

(** ** Reading a status code *)

Definition isDigit (c : ascii) : bool :=
  (48 <=? nat_of_ascii c) && (nat_of_ascii c <=? 57).

(** The number a decimal digit writes. *)
Definition digit (c : ascii) : Z := Z.of_nat (nat_of_ascii c) - 48.

(** ** topDomains

    [Object.entries(stats.domains)], sorted by [total] from the largest
    down, cut to ten entries.  Each element of [topDomains] carries the
    domain and the three counts of its entry; the field [validityRate], a
    decimal text computed from them in floating point, is left out. *)

(** The keys of [stats.domains] in the order they were created: a domain
    gets its entry on the first verdict counted in it, and no entry is
    ever removed. *)
Definition createdKeys (results : list Verdict) : list string :=
  fold_left
    (λ keys v, match countedDomain v with
               | Some domain =>
                   if bool_decide (domain ∈ keys) then keys else keys ++ [domain]
               | None => keys
               end)
    results [].

(** The number a text of decimal digits writes. *)
Fixpoint digitsValue (acc : N) (s : string) : option N :=
  match s with
  | EmptyString => Some acc
  | String c s' =>
      if isDigit c
      then digitsValue (acc * 10 + N.of_nat (nat_of_ascii c - 48)) s'
      else None
  end.

(** A key is an array index when it is the canonical decimal text of an
    integer from 0 to 2^32 - 2: ["0"], or digits that do not start with 0. *)
Definition arrayIndex (key : string) : option N :=
  match key with
  | EmptyString => None
  | String c rest =>
      if Ascii.eqb c "0" then
        match rest with EmptyString => Some 0%N | _ => None end
      else
        match digitsValue 0 key with
        | Some n => if (n <? 4294967295)%N then Some n else None
        | None => None
        end
  end.

Definition isArrayIndex (key : string) : bool :=
  match arrayIndex key with Some _ => true | None => false end.

(** Ascending order of the indices. *)
Fixpoint insertIndex (x : N * string) (l : list (N * string)) : list (N * string) :=
  match l with
  | [] => [x]
  | y :: l' => if (fst x <? fst y)%N then x :: l else y :: insertIndex x l'
  end.

(** The order in which the own keys of an object are listed: the array
    indices in ascending order, then the other keys in the order they were
    created. *)
Definition ownKeys (created : list string) : list string :=
  map snd (foldr insertIndex []
             (omap (λ key, (λ i, (i, key)) <$> arrayIndex key) created))
    ++ List.filter (λ key, negb (isArrayIndex key)) created.

(** [Object.entries(stats.domains)] *)
Definition domainEntries (results : list Verdict) : list (string * Domain.Stat) :=
  omap (λ key, (λ D, (key, D)) <$> Stats.domains (analyzeResults results) !! key)
    (ownKeys (createdKeys results)).

(** [.sort(([, a], [, b]) => b.total - a.total)]: the sort is stable, so
    an entry is inserted before the first entry, among those that followed
    it, whose total is not larger. *)
Fixpoint insertByTotal (x : string * Domain.Stat) (l : list (string * Domain.Stat))
    : list (string * Domain.Stat) :=
  match l with
  | [] => [x]
  | y :: l' =>
      if Domain.total (snd y) <=? Domain.total (snd x) then x :: l
      else y :: insertByTotal x l'
  end.

Definition sortByTotal (l : list (string * Domain.Stat)) : list (string * Domain.Stat) :=
  foldr insertByTotal [] l.

Definition topDomains (results : list Verdict) : list (string * Domain.Stat) :=
  take 10 (sortByTotal (domainEntries results)).

(** Totals from the largest down. *)
Definition byTotal (a b : string * Domain.Stat) : Prop :=
  Domain.total (snd b) ≤ Domain.total (snd a).

(** The entries of one total, in the order of a list. *)
Definition ofTotal (n : nat) (l : list (string * Domain.Stat)) : list (string * Domain.Stat) :=
  List.filter (λ e, Domain.total (snd e) =? n) l.

(** ** The addresses of an uploaded file

    The handler of [POST /api/upload] reads the file as text and extracts
    the addresses with [split], [trim], [filter], [map] and [slice].  The
    tests of this code count code units ([length > 3]) and [trim] removes
    white space outside ASCII, so here a JavaScript string is the list of
    its UTF-16 code units. *)

Module Upload.

Definition JsString : Type := list N.

Definition lineFeed : N := 10.
Definition hash : N := 35.
Definition comma : N := 44.
Definition slash : N := 47.
Definition atSign : N := 64.

(** What [trim] removes: the code points WhiteSpace (TAB, VT, FF, SP, NBSP,
    ZWNBSP and the category Zs) and LineTerminator (LF, CR, LS, PS) of
    ECMAScript, all of one code unit. *)
Definition isSpace (u : N) : bool :=
  ((9 <=? u) && (u <=? 13) || (u =? 32) || (u =? 160) || (u =? 5760)
   || (8192 <=? u) && (u <=? 8202) || (u =? 8232) || (u =? 8233)
   || (u =? 8239) || (u =? 8287) || (u =? 12288) || (u =? 65279))%N.

Fixpoint trimStart (s : JsString) : JsString :=
  match s with
  | u :: s' => if isSpace u then trimStart s' else s
  | [] => []
  end.

Fixpoint trimEnd (s : JsString) : JsString :=
  match s with
  | [] => []
  | u :: s' =>
      match trimEnd s' with
      | [] => if isSpace u then [] else [u]
      | kept => u :: kept
      end
  end.

(** [s.trim()] *)
Definition trim (s : JsString) : JsString := trimEnd (trimStart s).

(** [s.split(sep)] for a separator of one code unit. *)
Fixpoint split (sep : N) (s : JsString) : list JsString :=
  match s with
  | [] => [[]]
  | u :: s' =>
      if (u =? sep)%N then [] :: split sep s'
      else match split sep s' with
           | h :: t => (u :: h) :: t
           | [] => [[u]]
           end
  end.

(** [s.startsWith(p)] *)
Fixpoint startsWith (p s : JsString) : bool :=
  match p, s with
  | [], _ => true
  | x :: p', y :: s' => (x =? y)%N && startsWith p' s'
  | _ :: _, [] => false
  end.

(** [s.includes(u)] for a text [u] of one code unit. *)
Definition includes (u : N) (s : JsString) : bool := existsb (N.eqb u) s.

(** [email.split(',')[0].trim()] *)
Definition firstColumn (line : JsString) : JsString :=
  trim (hd [] (split comma line)).

(** The callback of [filter]. *)
Definition accepted (line : JsString) : bool :=
  if length line =? 0 then false
  else if startsWith [hash] line then false
  else if startsWith [slash; slash] line then false
  else if includes comma line then
    includes atSign (firstColumn line) && (3 <? length (firstColumn line))
  else includes atSign line && (3 <? length line).

(** The callback of the second [map]. *)
Definition address (line : JsString) : JsString :=
  if includes comma line then firstColumn line else line.

Definition maxEmails : nat := N.to_nat 50000.

(** [content.split('\n').map(...).filter(...).map(...).slice(0, 50000)] *)
Definition parseEmails (content : JsString) : list JsString :=
  take maxEmails
    (map address (List.filter accepted (map trim (split lineFeed content)))).

(** ** Reading the addresses *)

(** [lines.join('\n')] *)
Fixpoint joinLines (lines : list JsString) : JsString :=
  match lines with
  | [] => []
  | [line] => line
  | line :: rest => line ++ lineFeed :: joinLines rest
  end.

(** What every address taken from a file satisfies. *)
Definition clean (a : JsString) : Prop :=
  includes atSign a = true ∧ 3 < length a ∧ trim a = a ∧
  includes comma a = false ∧ includes lineFeed a = false ∧
  startsWith [hash] a = false ∧ startsWith [slash; slash] a = false.

(** A text with no white space in front. *)
Definition startsBlack (s : JsString) : Prop :=
  match s with
  | [] => True
  | u :: _ => isSpace u = false
  end.

(** The code units of an ASCII text. *)
Definition units (text : string) : JsString :=
  map (λ c, N.of_nat (nat_of_ascii c)) (list_ascii_of_string text).

(** A file of five lines: an address with blanks around it, a comment, a
    line of two columns, a comment and a word that is no address. *)
Definition sampleFile : JsString :=
  units ("  a@ex.com " +:+ String LF "# note" +:+ String LF "b@ex.com, Bob"
         +:+ String LF "//x@y.zz" +:+ String LF "bad").

End Upload.

(** * Theorems *)

(** ** Strings *)

Lemma append_cons (c : ascii) (a b : string) : String c a +:+ b = String c (a +:+ b).
Proof. reflexivity. Qed.

Lemma append_nil_l (s : string) : "" +:+ s = s.
Proof. reflexivity. Qed.

Lemma append_nil_r (s : string) : s +:+ "" = s.
Proof.
  induction s as [|c s IH]; [reflexivity |].
  now rewrite append_cons, IH.
Qed.

Lemma append_assoc (a b c : string) : (a +:+ b) +:+ c = a +:+ (b +:+ c).
Proof.
  induction a as [|x a IH]; [reflexivity |].
  now rewrite !append_cons, IH.
Qed.

Lemma length_append (a b : string) :
  String.length (a +:+ b) = String.length a + String.length b.
Proof.
  induction a as [|x a IH]; [reflexivity |].
  rewrite append_cons. simpl. now rewrite IH.
Qed.

Lemma allOf_append (P : ascii → bool) (a b : string) :
  FormatRule.allOf P (a +:+ b) = FormatRule.allOf P a && FormatRule.allOf P b.
Proof.
  induction a as [|x a IH]; [reflexivity |].
  rewrite append_cons. simpl. rewrite IH. now rewrite andb_assoc.
Qed.

Lemma allOf_ext (P Q : ascii → bool) (s : string) :
  (∀ c, P c = Q c) → FormatRule.allOf P s = FormatRule.allOf Q s.
Proof.
  intros HPQ. induction s as [|x s IH]; simpl; [reflexivity |].
  now rewrite HPQ, IH.
Qed.

(** ** isValidFormat *)

Section Repetition.

Variable cl : CharClass.
Variable k : string → bool.

(** A repetition matches exactly when the input splits into a run of the
    class, of a length inside the bounds, and a rest the continuation
    accepts. *)
Lemma matchRep_spec (s : string) : ∀ lo hi,
  matchRep cl k lo hi s = true ↔
  ∃ pre post, s = pre +:+ post ∧ FormatRule.allOf (inClass cl) pre = true ∧
    lo ≤ String.length pre ∧ withinMax hi (String.length pre) ∧ k post = true.
Proof.
  induction s as [|c s IH]; intros lo hi.
  - simpl. split.
    + intros H. apply andb_true_iff in H as [Hlo Hk].
      apply Nat.eqb_eq in Hlo. subst lo.
      exists ""%string, ""%string. repeat split; auto.
      destruct hi; simpl; lia.
    + intros (pre & post & Heq & _ & Hlo & _ & Hk).
      destruct pre; [|discriminate]. rewrite append_nil_l in Heq. subst post.
      simpl in Hlo. replace lo with 0 by lia. now rewrite Hk.
  - cbn [matchRep]. split.
    + intros H.
      assert (Hstop : (lo =? 0) && k (String c s) = true →
              ∃ pre post, String c s = pre +:+ post ∧
                FormatRule.allOf (inClass cl) pre = true ∧
                lo ≤ String.length pre ∧ withinMax hi (String.length pre) ∧
                k post = true).
      { intros Hs. apply andb_true_iff in Hs as [Hlo Hk].
        apply Nat.eqb_eq in Hlo. subst lo.
        exists ""%string, (String c s). repeat split; auto.
        destruct hi; simpl; lia. }
      destruct (inClass cl c && match hi with Some h => 0 <? h | None => true end)
        eqn:Htake; [|auto].
      apply orb_true_iff in H as [H|H]; [|auto].
      apply andb_true_iff in Htake as [Hc Hhi].
      apply IH in H as (pre & post & Heq & Hall & Hlo & Hmax & Hk).
      exists (String c pre), post. subst s. simpl. rewrite Hc, Hall.
      repeat split; auto; [lia |].
      destruct hi as [h|]; simpl in *; [|exact I].
      apply Nat.ltb_lt in Hhi. lia.
    + intros (pre & post & Heq & Hall & Hlo & Hmax & Hk).
      destruct pre as [|c' pre].
      * rewrite append_nil_l in Heq. subst post. simpl in Hlo.
        replace lo with 0 by lia. rewrite Hk. simpl.
        destruct (inClass cl c && _); [apply orb_true_r | reflexivity].
      * rewrite append_cons in Heq. injection Heq as -> ->.
        simpl in Hall. apply andb_true_iff in Hall as [Hc Hall].
        rewrite Hc. simpl in Hlo, Hmax.
        assert (Hhi : match hi with Some h => 0 <? h | None => true end = true).
        { destruct hi as [h|]; simpl in *; [apply Nat.ltb_lt; lia | reflexivity]. }
        rewrite Hhi. simpl. apply orb_true_iff. left.
        apply IH. exists pre, post. repeat split; auto; [lia |].
        destruct hi as [h|]; simpl in *; [lia | exact I].
Qed.

(** An atom taken exactly once consumes one character of its class. *)
Lemma matchOnce_spec (s : string) :
  matchRep cl k 1 (Some 1) s = true ↔
  ∃ c rest, s = String c rest ∧ inClass cl c = true ∧ k rest = true.
Proof.
  rewrite matchRep_spec. split.
  - intros (pre & post & Heq & Hall & Hlo & Hmax & Hk). simpl in Hmax.
    destruct pre as [|c [|c' pre]]; simpl in *; try lia.
    apply andb_true_iff in Hall as [Hc _]. eauto.
  - intros (c & rest & -> & Hc & Hk).
    exists (String c ""), rest. simpl. rewrite Hc. repeat split; auto.
Qed.

End Repetition.

Ltac normalize_append :=
  repeat (rewrite ?append_cons, ?append_nil_l, ?append_nil_r, ?append_assoc).

Ltac each_ascii c :=
  destruct c as [[] [] [] [] [] [] [] []]; reflexivity.

Lemma inClass_alnum (c : ascii) : inClass alnumClass c = FormatRule.alphanumeric c.
Proof. each_ascii c. Qed.

Lemma inClass_local (c : ascii) : inClass localClass c = FormatRule.localChar c.
Proof. each_ascii c. Qed.

Lemma inClass_domain (c : ascii) : inClass domainClass c = FormatRule.domainChar c.
Proof. each_ascii c. Qed.

Lemma inClass_alpha (c : ascii) : inClass alphaClass c = FormatRule.alphabetic c.
Proof. each_ascii c. Qed.

Lemma inClass_single (d c : ascii) : inClass [Single d] c = true ↔ c = d.
Proof.
  unfold inClass. simpl. rewrite orb_false_r. apply Ascii.eqb_eq.
Qed.

(** The pattern, atom by atom. *)
Lemma matchAtoms_pattern (address : string) :
  matchAtoms pattern address = true ↔
  ∃ l0 ls d0 ds tld,
    address = String l0 (ls +:+ String "@" (String d0 (ds +:+ String "." tld))) ∧
    FormatRule.alphanumeric l0 = true ∧
    FormatRule.allOf FormatRule.localChar ls = true ∧ String.length ls ≤ 63 ∧
    FormatRule.alphanumeric d0 = true ∧
    FormatRule.allOf FormatRule.domainChar ds = true ∧ String.length ds ≤ 253 ∧
    FormatRule.allOf FormatRule.alphabetic tld = true ∧ 2 ≤ String.length tld.
Proof.
  unfold pattern. cbn [matchAtoms once cls rmin rmax]. split.
  - intros H.
    apply matchOnce_spec in H as (l0 & r1 & -> & Hl0 & H).
    apply matchRep_spec in H as (ls & r2 & -> & Hls & _ & Hlen & H).
    apply matchOnce_spec in H as (at' & r3 & -> & Hat & H).
    apply inClass_single in Hat as ->.
    apply matchOnce_spec in H as (d0 & r4 & -> & Hd0 & H).
    apply matchRep_spec in H as (ds & r5 & -> & Hds & _ & Hdlen & H).
    apply matchOnce_spec in H as (dot & r6 & -> & Hdot & H).
    apply inClass_single in Hdot as ->.
    apply matchRep_spec in H as (tld & post & -> & Htld & Htlen & _ & H).
    apply String.eqb_eq in H as ->.
    exists l0, ls, d0, ds, tld. rewrite append_nil_r.
    rewrite inClass_alnum in Hl0, Hd0.
    rewrite (allOf_ext _ _ _ inClass_local) in Hls.
    rewrite (allOf_ext _ _ _ inClass_domain) in Hds.
    rewrite (allOf_ext _ _ _ inClass_alpha) in Htld.
    simpl in Hlen, Hdlen. repeat split; auto.
  - intros (l0 & ls & d0 & ds & tld & -> & Hl0 & Hls & Hlen & Hd0 & Hds & Hdlen & Htld & Htlen).
    apply matchOnce_spec. exists l0, (ls +:+ String "@" (String d0 (ds +:+ String "." tld))).
    rewrite inClass_alnum. repeat split; auto.
    apply matchRep_spec. exists ls, (String "@" (String d0 (ds +:+ String "." tld))).
    rewrite (allOf_ext _ _ _ inClass_local). repeat split; auto; [lia |].
    apply matchOnce_spec. exists "@"%char, (String d0 (ds +:+ String "." tld)).
    repeat split; auto.
    apply matchOnce_spec. exists d0, (ds +:+ String "." tld).
    rewrite inClass_alnum. repeat split; auto.
    apply matchRep_spec. exists ds, (String "." tld).
    rewrite (allOf_ext _ _ _ inClass_domain). repeat split; auto; [lia |].
    apply matchOnce_spec. exists "."%char, tld. repeat split; auto.
    apply matchRep_spec. exists tld, ""%string.
    rewrite (allOf_ext _ _ _ inClass_alpha), append_nil_r. repeat split; auto.
Qed.

(** [isValidFormat] accepts exactly the addresses of the rule. *)
Lemma isValidFormat_accepts (address : string) :
  isValidFormat address = true ↔ FormatRule.accepts address.
Proof.
  unfold isValidFormat. rewrite matchAtoms_pattern. split.
  - intros (l0 & ls & d0 & ds & tld & -> & Hl0 & Hls & Hlen & Hd0 & Hds & Hdlen & Htld & Htlen).
    exists (String l0 ls), (String d0 ds +:+ "." +:+ tld). split; [|split].
    + now normalize_append.
    + exists l0, ls. auto.
    + exists d0, ds, tld. repeat split; auto.
  - intros (loc & dom & -> & (l0 & ls & -> & Hl0 & Hls & Hlen)
                          & (d0 & ds & tld & -> & Hd0 & Hds & Hdlen & Htld & Htlen)).
    exists l0, ls, d0, ds, tld. split; [now normalize_append |].
    repeat split; auto.
Qed.

Lemma localChar_not_at (c : ascii) :
  FormatRule.localChar c = true → negb (Ascii.eqb c "@") = true.
Proof. destruct c as [[] [] [] [] [] [] [] []]; vm_compute; congruence. Qed.

Lemma alphanumeric_localChar (c : ascii) :
  FormatRule.alphanumeric c = true → FormatRule.localChar c = true.
Proof. unfold FormatRule.localChar. now intros ->. Qed.

Lemma allOf_impl (P Q : ascii → bool) (s : string) :
  (∀ c, P c = true → Q c = true) →
  FormatRule.allOf P s = true → FormatRule.allOf Q s = true.
Proof.
  intros HPQ. induction s as [|x s IH]; simpl; [reflexivity |].
  rewrite !andb_true_iff. intros [Hx Hs]. auto.
Qed.

Lemma localPart_noAt (loc : string) :
  FormatRule.localPart loc → FormatRule.noAt loc = true.
Proof.
  intros (c & rest & -> & Hc & Hrest & _). unfold FormatRule.noAt. simpl.
  rewrite (localChar_not_at c (alphanumeric_localChar c Hc)). simpl.
  revert Hrest. apply allOf_impl, localChar_not_at.
Qed.

(** The first [@] of a text splits it in one way only. *)
Lemma first_at_unique (a c b d : string) :
  FormatRule.noAt a = true → FormatRule.noAt c = true →
  a +:+ "@" +:+ b = c +:+ "@" +:+ d → a = c ∧ b = d.
Proof.
  unfold FormatRule.noAt. revert c.
  induction a as [|x a IH]; intros [|y c] Ha Hc Heq;
    normalize_append; rewrite ?append_cons, ?append_nil_l in Heq.
  - injection Heq as ->. auto.
  - injection Heq as <- _. simpl in Hc. discriminate.
  - injection Heq as -> _. simpl in Ha. discriminate.
  - injection Heq as -> Heq. simpl in Ha, Hc.
    apply andb_true_iff in Ha as [_ Ha]. apply andb_true_iff in Hc as [_ Hc].
    destruct (IH c Ha Hc Heq) as [-> ->]. auto.
Qed.

(** A format failure is answered at once, whatever the network. *)
Lemma verifyEmail_invalid_format (net : Network) (address : string) :
  isValidFormat address = false →
  verifyEmail net address =
    Fulfilled (withOutcome "invalid_format" "Неверный формат email"
                 (initialResult address)).
Proof.
  intros H. unfold verifyEmail, verifyEmailTraced. now rewrite H.
Qed.

(** C6.  The format checker accepts an address if and only if it matches
    the anchored rule of the specification: a local part that starts with
    an alphanumeric and goes on with at most 63 characters of
    [A-Za-z0-9._%+-], an [@], a domain that starts with an alphanumeric and
    goes on with at most 253 characters of [A-Za-z0-9.-], a dot and an
    alphabetic TLD of length at least 2.  In particular an address whose
    local part has exactly 64 characters, the first alphanumeric, is
    accepted (the rest of the address being well formed), and an address
    whose local part, the text before the first [@], has 65 characters gets
    the verdict [invalid_format]. *)
Theorem isValidFormat_matches_rule :
  (∀ address, isValidFormat address = true ↔ FormatRule.accepts address) ∧
  (∀ c rest dom,
     FormatRule.alphanumeric c = true →
     FormatRule.allOf FormatRule.localChar rest = true →
     String.length (String c rest) = 64 →
     FormatRule.domainPart dom →
     isValidFormat (String c rest +:+ "@" +:+ dom) = true) ∧
  (∀ net loc dom,
     String.length loc = 65 → FormatRule.noAt loc = true →
     isValidFormat (loc +:+ "@" +:+ dom) = false ∧
     ∃ verdict, verifyEmail net (loc +:+ "@" +:+ dom) = Fulfilled verdict ∧
                category verdict = "invalid_format" ∧ isValid verdict = false).
Proof.
  split; [exact isValidFormat_accepts | split].
  - intros c rest dom Hc Hrest Hlen Hdom. apply isValidFormat_accepts.
    exists (String c rest), dom. split; [reflexivity | split; [|exact Hdom]].
    exists c, rest. simpl in Hlen. repeat split; auto. lia.
  - intros net loc dom Hlen Hno.
    assert (Hrej : isValidFormat (loc +:+ "@" +:+ dom) = false).
    { destruct (isValidFormat (loc +:+ "@" +:+ dom)) eqn:Hacc; [|reflexivity].
      apply isValidFormat_accepts in Hacc as (loc' & dom' & Heq & Hloc & _).
      pose proof (localPart_noAt loc' Hloc) as Hno'.
      destruct (first_at_unique _ _ _ _ Hno Hno' Heq) as [<- _].
      destruct Hloc as (c & rest & -> & _ & _ & Hmax). simpl in Hlen. lia. }
    split; [exact Hrej |].
    rewrite (verifyEmail_invalid_format net _ Hrej). eexists. split; [reflexivity |].
    split; reflexivity.
Qed.

Lemma isValidFormat_matches_rule_witness :
  isValidFormat "aaaaaaaaaaaaaaaaaaaaaaaaaaaaaaaaaaaaaaaaaaaaaaaaaaaaaaaaaaaaaaaa@example.com" = true ∧
  isValidFormat "aaaaaaaaaaaaaaaaaaaaaaaaaaaaaaaaaaaaaaaaaaaaaaaaaaaaaaaaaaaaaaaaa@example.com" = false.
Proof.
  destruct isValidFormat_matches_rule as (_ & H64 & H65). split.
  - apply (H64 "a"%char "aaaaaaaaaaaaaaaaaaaaaaaaaaaaaaaaaaaaaaaaaaaaaaaaaaaaaaaaaaaaaaa" "example.com"%string);
      [reflexivity | reflexivity | reflexivity |].
    exists "e"%char, "xample"%string, "com"%string.
    repeat split; simpl; lia.
  - apply (H65 (mkNetwork (λ _, mkReply None None) (λ _ _, []))
             "aaaaaaaaaaaaaaaaaaaaaaaaaaaaaaaaaaaaaaaaaaaaaaaaaaaaaaaaaaaaaaaaa" "example.com"%string); reflexivity.
Defined.

(** ** checkSmtpServer: the lines of a reply *)

Lemma prefix3_substring (a b c : ascii) (line : string) :
  String.prefix (String a (String b (String c ""))) line = true →
  String.substring 0 3 line = String a (String b (String c "")).
Proof. intros H. now apply prefix_correct in H. Qed.


Lemma startsWith_250_code (line : string) :
  startsWith "250" line = true → parseInt (String.substring 0 3 line) = Some 250%Z.
Proof. intros H. unfold startsWith in H. now rewrite (prefix3_substring _ _ _ _ H). Qed.




Lemma settled_socketWrite (text : string) (p : Smtp.Probe) :
  Smtp.settled (Smtp.socketWrite text p) = Smtp.settled p.
Proof. reflexivity. Qed.





(** ** checkSmtpServer: what a probe can answer *)

Lemma handleLine_built (email line : string) (r : Smtp.Result) :
  Smtp.handleLine email line = Smtp.Resolve r → Smtp.built r.
Proof.
  unfold Smtp.handleLine.
  repeat match goal with
         | |- context [if ?b then _ else _] => destruct b
         end;
    intros H; try discriminate H; injection H as <-; constructor.
Qed.

Lemma resolve_neverRejected (r : Smtp.Result) (p : Smtp.Probe) :
  Smtp.built r → Smtp.neverRejected (Smtp.settled p) →
  Smtp.neverRejected (Smtp.settled (Smtp.resolve r p)).
Proof.
  intros Hr Hp. unfold Smtp.resolve. simpl.
  destruct (Smtp.settled p); simpl in *; auto.
Qed.

Lemma processLines_neverRejected (email : string) (lines : list string) :
  ∀ p, Smtp.neverRejected (Smtp.settled p) →
       Smtp.neverRejected (Smtp.settled (Smtp.processLines email lines p)).
Proof.
  induction lines as [|line lines IH]; intros p Hp; simpl; [exact Hp |].
  destruct (Smtp.handleLine email line) eqn:Hline.
  - apply IH. exact Hp.
  - apply resolve_neverRejected; [eapply handleLine_built; eauto | exact Hp].
  - apply IH. exact Hp.
Qed.

Lemma onTimeout_neverRejected (p : Smtp.Probe) :
  Smtp.neverRejected (Smtp.settled p) →
  Smtp.neverRejected (Smtp.settled (Smtp.onTimeout p)).
Proof.
  intros Hp. unfold Smtp.onTimeout. destruct (Smtp.timerArmed p); [|exact Hp].
  apply resolve_neverRejected; [constructor | exact Hp].
Qed.

Lemma step_neverRejected (email : string) (p : Smtp.Probe) (e : Smtp.Event) :
  Smtp.neverRejected (Smtp.settled p) →
  Smtp.neverRejected (Smtp.settled (Smtp.step email p e)).
Proof.
  intros Hp. destruct e; simpl.
  - exact Hp.
  - unfold Smtp.onData. apply processLines_neverRejected. exact Hp.
  - apply resolve_neverRejected; [constructor | exact Hp].
  - exact Hp.
  - apply onTimeout_neverRejected. exact Hp.
Qed.

Lemma run_neverRejected (email : string) (events : list Smtp.Event) :
  Smtp.neverRejected (Smtp.settled (Smtp.run email events)).
Proof.
  unfold Smtp.run.
  assert (H : ∀ p, Smtp.neverRejected (Smtp.settled p) →
              Smtp.neverRejected (Smtp.settled (fold_left (Smtp.step email) events p))).
  { induction events as [|e events IH]; intros p Hp; simpl; [exact Hp |].
    apply IH, step_neverRejected, Hp. }
  apply H. exact I.
Qed.

(** A probe never rejects, and what it resolves with is one of the results
    written in the source. *)
Lemma checkSmtpServer_neverRejected (events : list Smtp.Event) (mxHost email : string) :
  Smtp.neverRejected (Smtp.checkSmtpServer events mxHost email).
Proof.
  unfold Smtp.checkSmtpServer. apply onTimeout_neverRejected, run_neverRejected.
Qed.

Lemma append_cons_neq_nil (c : ascii) (a b : string) : String c a +:+ b ≠ ""%string.
Proof. rewrite append_cons. discriminate. Qed.

Lemma built_wellFormed (r : Smtp.Result) : Smtp.built r → Smtp.wellFormed r.
Proof.
  intros H. destruct H; unfold Smtp.wellFormed; simpl;
    (split; [tauto | split; [first [discriminate | apply append_cons_neq_nil] |]]);
    split; intros; congruence.
Qed.

(** ** verifyEmail *)

Lemma split_nonempty (sep : ascii) (s : string) : ∃ h t, split sep s = h :: t.
Proof.
  induction s as [|c s (h & t & IH)]; simpl; [eauto |].
  destruct (Ascii.eqb c sep); [eauto |]. rewrite IH. simpl. eauto.
Qed.

Lemma split_first_at (a b : string) :
  FormatRule.noAt a = true → split "@" (a +:+ "@" +:+ b) = a :: split "@" b.
Proof.
  unfold FormatRule.noAt. induction a as [|x a IH]; intros Ha.
  - normalize_append. reflexivity.
  - simpl in Ha. apply andb_true_iff in Ha as [Hx Ha].
    rewrite append_cons. simpl. apply negb_true_iff in Hx. rewrite Hx.
    rewrite (IH Ha). reflexivity.
Qed.

(** After the format check the address has a domain to look up. *)
Lemma isValidFormat_domainOf (address : string) :
  isValidFormat address = true → ∃ domain, domainOf address = Some domain.
Proof.
  intros H. apply isValidFormat_accepts in H as (loc & dom & -> & Hloc & _).
  unfold domainOf. rewrite (split_first_at _ _ (localPart_noAt _ Hloc)).
  destruct (split_nonempty "@" dom) as (h & t & ->). eauto.
Qed.

(** The resolver's promise is fulfilled whatever the answer, and with the
    empty list whenever the lookup reports an error. *)
Lemma getMxRecords_fulfilled (resolve : string → DnsReply) (name : string) :
  ∃ hosts, getMxRecords resolve (Some name) = Fulfilled hosts ∧
           (err (resolve name) ≠ None → hosts = []).
Proof.
  unfold getMxRecords.
  destruct (err (resolve name)) as [code|]; [eexists; split; [reflexivity | auto] |].
  destruct (addresses (resolve name)) as [[|r rs]|];
    eexists; (split; [reflexivity | congruence]).
Qed.

Lemma built_category_nonempty (r : Smtp.Result) :
  Smtp.built r → String.eqb (Smtp.category r) "" = false.
Proof. intros H. destruct H; reflexivity. Qed.

Lemma built_message_nonempty (r : Smtp.Result) :
  Smtp.built r → String.eqb (Smtp.message r) "" = false.
Proof.
  intros H. apply String.eqb_neq. now destruct (built_wellFormed r H) as (_ & ? & _).
Qed.

Lemma probe_fulfilled_built (net : Network) (address : string) (i : nat)
    (host : string) (r : Smtp.Result) :
  probe net address i host = Fulfilled r → Smtp.built r.
Proof.
  intros H. pose proof (checkSmtpServer_neverRejected (socketEvents net i host) host address) as Hn.
  unfold probe in H. now rewrite H in Hn.
Qed.

Lemma afterLoop_fromProbe (result : Verdict) :
  fromProbe result → afterLoop result = result.
Proof.
  intros (r & Hr & _ & Hm & _). unfold afterLoop.
  now rewrite Hm, (built_message_nonempty r Hr).
Qed.

(** Whatever the loop answers comes from a probe: the exception branch is
    never entered, and the statements after the loop leave the verdict
    as the last probe made it. *)
Lemma smtpLoop_fromProbe (net : Network) (address : string) (hosts : list string) :
  ∀ i result probed v,
    isValid result = false →
    hosts ≠ [] ∨ fromProbe result →
    smtpLoop net address i hosts result = (probed, Fulfilled v) →
    fromProbe v.
Proof.
  induction hosts as [|host rest IH]; intros i result probed v Hinvalid Hor Hloop.
  - destruct Hor as [Hne | Hres]; [congruence |].
    simpl in Hloop. injection Hloop as _ <-. now rewrite afterLoop_fromProbe.
  - simpl in Hloop. destruct (probe net address i host) as [|r|reason] eqn:Hprobe.
    + discriminate.
    + pose proof (probe_fulfilled_built _ _ _ _ _ Hprobe) as Hr.
      destruct (Smtp.isValid r) eqn:Hvalid.
      * injection Hloop as _ <-. exists (Smtp.mkResult true "Email существует" "valid").
        split; [constructor | repeat split; reflexivity].
      * destruct (smtpLoop net address (S i) rest _) as [probed' p'] eqn:Hrec.
        injection Hloop as _ ->.
        eapply IH; [|right|exact Hrec]; [exact Hinvalid |].
        exists r. split; [exact Hr |].
        simpl. rewrite (built_category_nonempty r Hr). repeat split; congruence.
    + pose proof (checkSmtpServer_neverRejected (socketEvents net i host) host address) as Hn.
      unfold probe in Hprobe. rewrite Hprobe in Hn. destruct Hn.
Qed.

(** The verdicts of [verifyEmail]: the two it builds before any probe, and
    those that come from a probe.  The [dns_error] verdict is not one of
    them, because the resolver's promise is never rejected for the domain
    of a well-formed address. *)
Lemma verifyEmail_cases (net : Network) (address : string) (v : Verdict) :
  verifyEmail net address = Fulfilled v →
  v = withOutcome "invalid_format" "Неверный формат email" (initialResult address) ∨
  v = withOutcome "no_mx_records" "MX записи не найдены" (initialResult address) ∨
  fromProbe v.
Proof.
  unfold verifyEmail, verifyEmailTraced.
  destruct (isValidFormat address) eqn:Hfmt; cbn [negb].
  - destruct (isValidFormat_domainOf address Hfmt) as (domain & ->).
    destruct (getMxRecords_fulfilled (resolveMx net) domain) as (hosts & -> & _).
    destruct hosts as [|host rest].
    + intros [= <-]. auto.
    + destruct (smtpLoop _ _ _ _ _) as [probed p] eqn:Hloop. cbn [snd]. intros ->.
      right. right. eapply smtpLoop_fromProbe; [| |exact Hloop];
        [reflexivity | left; discriminate].
  - intros [= <-]. auto.
Qed.

(** The loop stops at the first host whose probe answers [valid]. *)
Lemma smtpLoop_first_valid (net : Network) (address : string) (hosts : list string) :
  ∀ i result k host r,
    hosts !! k = Some host →
    probe net address (i + k) host = Fulfilled r → Smtp.isValid r = true →
    (∀ j h, j < k → hosts !! j = Some h →
       ∃ r', probe net address (i + j) h = Fulfilled r' ∧ Smtp.isValid r' = false) →
    ∃ result',
      email result' = email result ∧
      mxRecords (details result') = mxRecords (details result) ∧
      smtpLoop net address i hosts result =
        (take (S k) hosts,
         Fulfilled (setOutcome true "valid" "Email существует" host result')).
Proof.
  induction hosts as [|h rest IH]; intros i result k host r Hk Hprobe Hvalid Hbefore.
  - discriminate.
  - destruct k as [|k].
    + simpl in Hk. injection Hk as ->. rewrite Nat.add_0_r in Hprobe.
      exists result. simpl. rewrite Hprobe, Hvalid. rewrite take_0. auto.
    + simpl in Hk.
      destruct (Hbefore 0 h ltac:(lia) eq_refl) as (r0 & Hr0 & Hinvalid).
      rewrite Nat.add_0_r in Hr0.
      destruct (IH (S i) (setOutcome (isValid result)
                  (if String.eqb (Smtp.category r0) "" then "smtp_error"
                   else Smtp.category r0) (Smtp.message r0) h result) k host r)
        as (result' & Hemail & Hmx & Hloop); auto.
      * now rewrite Nat.add_succ_comm.
      * intros j h' Hj Hh'. rewrite Nat.add_succ_comm.
        apply (Hbefore (S j) h'); [lia | exact Hh'].
      * exists result'. split; [exact Hemail | split; [exact Hmx |]].
        cbn [smtpLoop]. rewrite Hr0, Hinvalid, Hloop. reflexivity.
Qed.

(** When every probe answers, and none with [valid], every host is tried
    and the verdict is the one recorded for the last host. *)
Lemma smtpLoop_none_valid (net : Network) (address : string) (hosts : list string) :
  ∀ i result host r,
    last hosts = Some host →
    probe net address (i + (length hosts - 1)) host = Fulfilled r →
    (∀ j h, hosts !! j = Some h →
       ∃ r', probe net address (i + j) h = Fulfilled r' ∧ Smtp.isValid r' = false) →
    ∃ v,
      smtpLoop net address i hosts result = (hosts, Fulfilled v) ∧
      email v = email result ∧ isValid v = isValid result ∧
      category v = Smtp.category r ∧ message v = Smtp.message r ∧
      smtpServer (details v) = Some host.
Proof.
  induction hosts as [|h rest IH]; intros i result host r Hlast Hprobe Hall.
  - discriminate.
  - destruct (Hall 0 h eq_refl) as (r0 & Hr0 & Hinvalid).
    rewrite Nat.add_0_r in Hr0.
    pose proof (probe_fulfilled_built _ _ _ _ _ Hr0) as Hbuilt.
    cbn [smtpLoop]. rewrite Hr0, Hinvalid, (built_category_nonempty r0 Hbuilt).
    destruct rest as [|h2 rest].
    + simpl in Hlast. injection Hlast as <-.
      simpl in Hprobe. rewrite Nat.add_0_r in Hprobe.
      assert (r = r0) as -> by congruence.
      simpl. unfold afterLoop. simpl. rewrite (built_message_nonempty r0 Hbuilt).
      eexists. split; [reflexivity |]. simpl. auto.
    + destruct (IH (S i) (setOutcome (isValid result) (Smtp.category r0)
                            (Smtp.message r0) h result) host r)
        as (v & Hloop & Hemail & Hvalid & Hcat & Hmsg & Hserver).
      * exact Hlast.
      * simpl length in *. rewrite Nat.add_succ_comm.
        replace (S (S (length rest)) - 1) with (S (length rest - 0)) in Hprobe by lia.
        replace (S (length rest) - 1) with (length rest - 0) by lia. exact Hprobe.
      * intros j h' Hh'. rewrite Nat.add_succ_comm. apply (Hall (S j) h'). exact Hh'.
      * exists v. rewrite Hloop. repeat split; auto.
Qed.

(** C4.  The verifier probes the MX hosts in the order of the list.  When
    the probe of some host answers [valid], and the probes before it
    answered something else, the verdict is [valid] with that host as
    [details.smtpServer], and the hosts probed are those up to it and no
    further one.  A probe that answers anything else is recorded and the
    next host is tried, whatever the answer was ([not_existing] after a 550
    or 551 as well): when every probe answers and none with [valid], all the
    hosts are probed and the verdict carries the category and the message of
    the last probe, the latest one that was not [valid]. *)
Theorem mx_fallback (net : Network) (address : string) (hosts : list string) :
  isValidFormat address = true →
  getMxRecords (resolveMx net) (domainOf address) = Fulfilled hosts →
  (∀ k host r,
     hosts !! k = Some host →
     probe net address k host = Fulfilled r → Smtp.isValid r = true →
     (∀ j h, j < k → hosts !! j = Some h →
        ∃ r', probe net address j h = Fulfilled r' ∧ Smtp.isValid r' = false) →
     ∃ v, verifyEmailTraced net address = (take (S k) hosts, Fulfilled v) ∧
          email v = address ∧ isValid v = true ∧ category v = "valid"%string ∧
          message v = "Email существует"%string ∧
          smtpServer (details v) = Some host ∧
          mxRecords (details v) = Some hosts) ∧
  (∀ host r,
     last hosts = Some host →
     probe net address (length hosts - 1) host = Fulfilled r →
     (∀ j h, hosts !! j = Some h →
        ∃ r', probe net address j h = Fulfilled r' ∧ Smtp.isValid r' = false) →
     ∃ v, verifyEmailTraced net address = (hosts, Fulfilled v) ∧
          email v = address ∧ isValid v = false ∧
          category v = Smtp.category r ∧ message v = Smtp.message r ∧
          smtpServer (details v) = Some host).
Proof.
  intros Hfmt Hmx. unfold verifyEmailTraced. rewrite Hfmt, Hmx. simpl. split.
  - intros k host r Hk Hprobe Hvalid Hbefore.
    destruct hosts as [|h0 rest]; [discriminate |].
    edestruct (smtpLoop_first_valid net address (h0 :: rest) 0) as
      (result' & Hemail & Hrecords & Hloop); [exact Hk | exact Hprobe | exact Hvalid | exact Hbefore |].
    rewrite Hloop. eexists. split; [reflexivity |].
    simpl. rewrite Hemail, Hrecords. simpl. repeat split; reflexivity.
  - intros host r Hlast Hprobe Hall.
    destruct hosts as [|h0 rest]; [discriminate |].
    edestruct (smtpLoop_none_valid net address (h0 :: rest) 0) as
      (v & Hloop & Hemail & Hvalid & Hcat & Hmsg & Hserver);
      [exact Hlast | exact Hprobe | exact Hall |].
    rewrite Hloop. exists v. repeat split; auto.
Qed.

Lemma mx_fallback_witness :
  (∃ v, verifyEmailTraced Example.firstRefuses "a@ex.com"
          = (["mx1.ex.com"; "mx2.ex.com"]%string, Fulfilled v) ∧
        category v = "valid"%string ∧
        smtpServer (details v) = Some "mx2.ex.com"%string) ∧
  (∃ v, verifyEmailTraced Example.bothRefuse "a@ex.com"
          = (["mx1.ex.com"; "mx2.ex.com"]%string, Fulfilled v) ∧
        category v = "temporary_error"%string ∧
        smtpServer (details v) = Some "mx2.ex.com"%string).
Proof.
  split.
  - destruct (mx_fallback Example.firstRefuses "a@ex.com"
                ["mx1.ex.com"; "mx2.ex.com"]%string eq_refl eq_refl) as [Hvalid _].
    destruct (Hvalid 1 "mx2.ex.com"%string
                (Smtp.mkResult true "Email существует" "valid")
                eq_refl eq_refl eq_refl) as (v & Hv & _ & _ & Hcat & _ & Hserver & _).
    + intros [|j] h Hj Hh; [|lia]. injection Hh as <-.
      eexists. split; reflexivity.
    + exists v. auto.
  - destruct (mx_fallback Example.bothRefuse "a@ex.com"
                ["mx1.ex.com"; "mx2.ex.com"]%string eq_refl eq_refl) as [_ Hnone].
    destruct (Hnone "mx2.ex.com"%string
                (Smtp.mkResult false "Временная ошибка сервера" "temporary_error")
                eq_refl eq_refl) as (v & Hv & _ & _ & Hcat & _ & Hserver).
    + intros [|[|j]] h Hh; [| |discriminate]; injection Hh as <-;
        eexists; split; reflexivity.
    + exists v. auto.
Defined.

(** ** The resolver and the verifier *)

(** Every error of the resolver gives the verdict [no_mx_records]. *)
Lemma verifyEmail_resolver_error (net : Network) (address : string) :
  isValidFormat address = true →
  (∀ name, err (resolveMx net name) ≠ None) →
  verifyEmail net address =
    Fulfilled (withOutcome "no_mx_records" "MX записи не найдены"
                 (initialResult address)).
Proof.
  intros Hfmt Herr. unfold verifyEmail, verifyEmailTraced. rewrite Hfmt. simpl.
  destruct (isValidFormat_domainOf address Hfmt) as (domain & ->).
  destruct (getMxRecords_fulfilled (resolveMx net) domain) as (hosts & -> & Hempty).
  rewrite (Hempty (Herr domain)). reflexivity.
Qed.

Lemma fromProbe_category (v : Verdict) : fromProbe v → In (category v) Smtp.categories.
Proof.
  intros (r & Hr & -> & _ & _). now destruct (built_wellFormed r Hr) as (? & _).
Qed.

(** No verdict of [verifyEmail] has the category [dns_error]. *)
Lemma verifyEmail_never_dns_error (net : Network) (address : string) (v : Verdict) :
  verifyEmail net address = Fulfilled v → category v ≠ "dns_error"%string.
Proof.
  intros H. destruct (verifyEmail_cases net address v H) as [-> | [-> | Hp]];
    [discriminate | discriminate |].
  apply fromProbe_category in Hp. intros Heq. rewrite Heq in Hp.
  simpl in Hp. repeat destruct Hp as [Hp | Hp]; try discriminate Hp. exact Hp.
Qed.

(** C1 fails on the code.  The resolver answers the lookup of [ex.com]
    with the error [ETIMEOUT], a failure of the transport; [getMxRecords]
    resolves with the empty list all the same and the verdict for
    [a@ex.com] is [no_mx_records], not [dns_error]. *)
Theorem resolver_timeout_is_no_mx_records :
  err (resolveMx Example.resolverTimesOut "ex.com") = Some "ETIMEOUT"%string ∧
  getMxRecords (resolveMx Example.resolverTimesOut) (domainOf "a@ex.com")
    = Fulfilled [] ∧
  verifyEmail Example.resolverTimesOut "a@ex.com" =
    Fulfilled {| email := "a@ex.com"; isValid := false;
                 category := "no_mx_records"; message := "MX записи не найдены";
                 details := {| mxRecords := None; smtpServer := None |} |}.
Proof. repeat split; reflexivity. Qed.

(** ** The probe and the two paths of the verifier it leaves dead *)

Lemma built_message_not_fallback (r : Smtp.Result) :
  Smtp.built r → Smtp.message r ≠ "Все SMTP серверы недоступны"%string.
Proof.
  intros H. destruct H; simpl; rewrite ?append_cons; discriminate.
Qed.

(** What holds of every probe and every verification: the promise of a
    probe is never rejected, so the [catch] inside the loop of
    [verifyEmail] is never entered; what it resolves with has one of the
    seven categories and a message that is not empty; and no verdict is the
    fallback that follows the loop, whose message is left to the case where
    no probe set one. *)
Lemma probe_resolutions_and_dead_paths :
  (∀ events mxHost address,
     match Smtp.checkSmtpServer events mxHost address with
     | Pending => True
     | Fulfilled r => Smtp.wellFormed r
     | Rejected _ => False
     end) ∧
  (∀ net address v,
     verifyEmail net address = Fulfilled v →
     message v ≠ ""%string ∧ message v ≠ "Все SMTP серверы недоступны"%string).
Proof.
  split.
  - intros events mxHost address.
    pose proof (checkSmtpServer_neverRejected events mxHost address) as H.
    destruct (Smtp.checkSmtpServer events mxHost address); simpl in H; auto.
    now apply built_wellFormed.
  - intros net address v H.
    unfold verifyEmail, verifyEmailTraced in H.
    destruct (isValidFormat address) eqn:Hfmt; simpl in H.
    + destruct (isValidFormat_domainOf address Hfmt) as (domain & Hd).
      rewrite Hd in H.
      destruct (getMxRecords_fulfilled (resolveMx net) domain) as (hosts & Hmx & _).
      rewrite Hmx in H. destruct hosts as [|host rest].
      * injection H as <-. simpl. split; discriminate.
      * destruct (smtpLoop _ _ _ _ _) as [probed p] eqn:Hloop. simpl in H. subst p.
        apply smtpLoop_fromProbe in Hloop as (r & Hr & _ & Hm & _);
          [| reflexivity | left; discriminate].
        rewrite Hm. split; [|now apply built_message_not_fallback].
        now destruct (built_wellFormed r Hr) as (_ & ? & _).
    + injection H as <-. simpl. split; discriminate.
Qed.

(** C10 fails on the code.  The server greets and then closes its side of
    the connection.  The ['end'] handler runs [cleanup], which clears the
    timer, and resolves nothing; with no further event the promise of the
    probe stays pending for ever, and so does the verification that awaits
    it. *)
Theorem probe_pending_after_end :
  let p := Smtp.run "a@ex.com" Example.greetsAndCloses in
  Smtp.timerArmed p = false ∧ Smtp.settled p = Pending ∧
  Smtp.checkSmtpServer Example.greetsAndCloses "mx.ex.com" "a@ex.com" = Pending ∧
  verifyEmail Example.closingHost "a@ex.com" = Pending.
Proof. repeat split; reflexivity. Qed.

(** ** analyzeResults *)

(** The fold of [tally], field by field. *)
Lemma fold_tally (results : list Verdict) : ∀ stats,
  fold_left tally results stats =
    {| Stats.total := Stats.total stats;
       Stats.valid := Stats.valid stats + countValid results;
       Stats.invalid := Stats.invalid stats + countInvalid results;
       Stats.categories :=
         fold_left (λ o v, tallyCategory v o) results (Stats.categories stats);
       Stats.domains :=
         fold_left (λ o v, countDomain v o) results (Stats.domains stats) |}.
Proof.
  unfold countValid, countInvalid.
  induction results as [|v results IH]; intros [t va iv cs ds]; simpl.
  - f_equal; lia.
  - rewrite IH. unfold tally, tallyCategory. destruct (isValid v); simpl; f_equal; lia.
Qed.

Lemma analyzeResults_fold (results : list Verdict) :
  analyzeResults results = fold_left tally results (initialStats (length results)).
Proof. reflexivity. Qed.

Lemma count_valid_invalid (results : list Verdict) :
  countValid results + countInvalid results = length results.
Proof.
  unfold countValid, countInvalid.
  induction results as [|v results IH]; simpl; [reflexivity |].
  destruct (isValid v); simpl; lia.
Qed.

(** *** The histogram *)

Lemma inherited_proto (key : string) :
  inherited key = false → String.eqb key "__proto__" = false.
Proof.
  intros H. destruct (String.eqb_spec key "__proto__") as [-> |]; [discriminate | reflexivity].
Qed.

Lemma increment_bump (key : string) (o : gmap string JsValue) :
  allNumeric o → is_Some (o !! key) → increment key o = bump key o.
Proof.
  intros Hnum [w Hw]. unfold increment, bump, countOf. rewrite Hw.
  destruct (Hnum key w Hw) as [n ->]. reflexivity.
Qed.

Lemma addOne_bump (key : string) (o : gmap string JsValue) :
  allNumeric o → inherited key = false → addOne key o = bump key o.
Proof.
  intros Hnum Hplain. unfold addOne, bump, countOf.
  destruct (o !! key) as [w|] eqn:Hw.
  - destruct (Hnum key w Hw) as [n ->]. reflexivity.
  - now rewrite (inherited_proto key Hplain), Hplain.
Qed.

Lemma bump_allNumeric (key : string) (o : gmap string JsValue) :
  allNumeric o → allNumeric (bump key o).
Proof. intros H. apply map_Forall_insert_2; [eauto | exact H]. Qed.

Lemma bump_lookup (key c : string) (o : gmap string JsValue) :
  bump key o !! c = if decide (key = c) then Some (Num (S (countOf o c))) else o !! c.
Proof.
  unfold bump. rewrite lookup_insert. destruct (decide (key = c)) as [-> |]; reflexivity.
Qed.

Lemma bump_is_Some (key c : string) (o : gmap string JsValue) :
  is_Some (o !! c) → is_Some (bump key o !! c).
Proof. rewrite bump_lookup. destruct (decide (key = c)); eauto. Qed.

(** On a histogram of counts that has the key [valid], the update of the
    source is [bump] under the key the verdict is counted as. *)
Lemma tallyCategory_bump (v : Verdict) (o : gmap string JsValue) :
  allNumeric o → is_Some (o !! "valid"%string) → plain v →
  tallyCategory v o = bump (countedAs v) o.
Proof.
  intros Hnum Hvalid Hplain. unfold tallyCategory, countedAs.
  destruct (isValid v) eqn:Hv.
  - now apply increment_bump.
  - destruct Hplain as [Hp | Hp]; [congruence |]. now apply addOne_bump.
Qed.

Lemma fold_tallyCategory (results : list Verdict) : ∀ o,
  allNumeric o → is_Some (o !! "valid"%string) → Forall plain results →
  fold_left (λ o v, tallyCategory v o) results o =
    fold_left (λ o v, bump (countedAs v) o) results o.
Proof.
  induction results as [|v results IH]; intros o Hnum Hvalid Hplain; simpl; [reflexivity |].
  inversion Hplain as [|? ? Hv Hrest]; subst.
  rewrite (tallyCategory_bump v o Hnum Hvalid Hv).
  apply IH; [now apply bump_allNumeric | now apply bump_is_Some | exact Hrest].
Qed.

Lemma fold_bump_allNumeric (results : list Verdict) : ∀ o,
  allNumeric o → allNumeric (fold_left (λ o v, bump (countedAs v) o) results o).
Proof.
  induction results as [|v results IH]; intros o Hnum; simpl; [exact Hnum |].
  apply IH, bump_allNumeric, Hnum.
Qed.

Lemma countOf_bump (key c : string) (o : gmap string JsValue) :
  countOf (bump key o) c = if decide (key = c) then S (countOf o c) else countOf o c.
Proof.
  unfold countOf at 1. rewrite bump_lookup.
  destruct (decide (key = c)); reflexivity.
Qed.

(** A key holds its former count plus the number of verdicts counted under
    it, and is created by the first of them. *)
Lemma fold_bump_lookup (c : string) (results : list Verdict) : ∀ o,
  fold_left (λ o v, bump (countedAs v) o) results o !! c =
    if tallied c results =? 0 then o !! c
    else Some (Num (countOf o c + tallied c results)).
Proof.
  unfold tallied.
  induction results as [|v results IH]; intros o; simpl; [reflexivity |].
  rewrite IH, bump_lookup, countOf_bump.
  destruct (String.eqb_spec (countedAs v) c) as [Heq | Hne].
  - rewrite !decide_True by exact Heq. simpl.
    destruct (length _ =? 0) eqn:Hz.
    + apply Nat.eqb_eq in Hz. rewrite Hz. do 2 f_equal. lia.
    + do 2 f_equal. lia.
  - rewrite !decide_False by exact Hne. reflexivity.
Qed.

Lemma zeroed_lookup (keys : list string) (c : string) :
  (list_to_map (map (λ key, (key, Num 0)) keys) : gmap string JsValue) !! c =
    if decide (c ∈ keys) then Some (Num 0) else None.
Proof.
  induction keys as [|key keys IH].
  - destruct (decide (c ∈ [])) as [Hin |]; [now apply not_elem_of_nil in Hin |].
    simpl. apply lookup_empty.
  - change (<[key := Num 0]> (list_to_map (map (λ key, (key, Num 0)) keys)
              : gmap string JsValue) !! c
            = if decide (c ∈ key :: keys) then Some (Num 0) else None).
    rewrite lookup_insert, IH.
    destruct (decide (key = c)) as [-> | Hne];
      destruct (decide (c ∈ keys)) as [Hin | Hnin];
      destruct (decide (_ ∈ _ :: _)) as [Hc | Hc]; try reflexivity.
    + exfalso. apply Hc, list_elem_of_here.
    + exfalso. apply Hc, list_elem_of_here.
    + exfalso. apply Hc, list_elem_of_further, Hin.
    + exfalso. apply elem_of_cons in Hc as [-> | Hc]; congruence.
Qed.

Lemma initialCategories_lookup (c : string) :
  initialCategories !! c =
    if decide (c ∈ presetCategories) then Some (Num 0) else None.
Proof. apply zeroed_lookup. Qed.

Lemma initialCategories_allNumeric : allNumeric initialCategories.
Proof.
  intros c w Hw. rewrite initialCategories_lookup in Hw.
  destruct (decide (c ∈ presetCategories)); [|discriminate]. injection Hw as <-. eauto.
Qed.

Lemma initialCategories_valid : is_Some (initialCategories !! "valid"%string).
Proof. rewrite initialCategories_lookup. rewrite decide_True; [eauto |]. apply list_elem_of_here. Qed.

(** The histogram of an aggregate, in closed form. *)
Lemma analyzeResults_categories (results : list Verdict) :
  Forall plain results →
  Stats.categories (analyzeResults results) =
    fold_left (λ o v, bump (countedAs v) o) results initialCategories.
Proof.
  intros Hplain. rewrite analyzeResults_fold, fold_tally. simpl.
  apply fold_tallyCategory;
    [apply initialCategories_allNumeric | apply initialCategories_valid | exact Hplain].
Qed.

Lemma analyzeResults_lookup (c : string) (results : list Verdict) :
  Forall plain results →
  Stats.categories (analyzeResults results) !! c =
    if decide (c ∈ presetCategories) then Some (Num (tallied c results))
    else if tallied c results =? 0 then None
    else Some (Num (tallied c results)).
Proof.
  intros Hplain. rewrite (analyzeResults_categories results Hplain), fold_bump_lookup.
  unfold countOf. rewrite initialCategories_lookup.
  destruct (decide (c ∈ presetCategories)); simpl.
  - destruct (tallied c results =? 0) eqn:Hz; [|reflexivity].
    apply Nat.eqb_eq in Hz. now rewrite Hz.
  - reflexivity.
Qed.

Lemma consistent_countedAs (v : Verdict) : consistent v → countedAs v = category v.
Proof.
  unfold consistent, countedAs. intros H.
  destruct (isValid v); [symmetry; now apply H | reflexivity].
Qed.

Lemma consistent_tallied (c : string) (results : list Verdict) :
  Forall consistent results → tallied c results = observed c results.
Proof.
  unfold tallied, observed. induction 1 as [|v results Hv _ IH]; simpl; [reflexivity |].
  rewrite (consistent_countedAs v Hv). destruct (String.eqb (category v) c); simpl; lia.
Qed.

Lemma presetCategories_closedSet (c : string) :
  c ∈ closedSet ↔ c ∈ presetCategories ∨ c = "processing_error"%string.
Proof.
  unfold closedSet, presetCategories. rewrite !elem_of_cons, !elem_of_nil. tauto.
Qed.

(** *** The histogram, whatever the categories *)

Lemma filter_length_app {A : Type} (f : A → bool) (a b : list A) :
  length (List.filter f (a ++ b)) = length (List.filter f a) + length (List.filter f b).
Proof. now rewrite List.filter_app, length_app. Qed.

Lemma updateAt_lookup {V : Type} (key c : string) (g : option V → option V)
    (o : gmap string V) :
  updateAt key g o !! c =
    if decide (key = c) then match g (o !! c) with Some w => Some w | None => o !! c end
    else o !! c.
Proof.
  unfold updateAt. destruct (decide (key = c)) as [-> | Hne].
  - destruct (g (o !! c)); [apply lookup_insert_eq | reflexivity].
  - destruct (g (o !! key)); [now apply lookup_insert_ne | reflexivity].
Qed.

Lemma increment_updateAt (key : string) (o : gmap string JsValue) :
  increment key o = updateAt key incremented o.
Proof. unfold increment, updateAt, incremented. now destruct (o !! key) as [[]|]. Qed.

Lemma addOne_updateAt (key : string) (o : gmap string JsValue) :
  addOne key o = updateAt key (plusOne key) o.
Proof.
  unfold addOne, updateAt, plusOne. destruct (o !! key) as [[]|]; try reflexivity.
  destruct (String.eqb key "__proto__"); [reflexivity |].
  now destruct (inherited key).
Qed.

Lemma tallyCategory_updateAt (v : Verdict) (o : gmap string JsValue) :
  tallyCategory v o =
    updateAt (countedAs v) (if isValid v then incremented else plusOne (category v)) o.
Proof.
  unfold tallyCategory, countedAs.
  destruct (isValid v); [apply increment_updateAt | apply addOne_updateAt].
Qed.

Lemma tallied_snoc (c : string) (results : list Verdict) (v : Verdict) :
  tallied c (results ++ [v]) =
    tallied c results + (if String.eqb (countedAs v) c then 1 else 0).
Proof.
  unfold tallied. rewrite filter_length_app. simpl.
  now destruct (String.eqb (countedAs v) c).
Qed.

Lemma fold_left_snoc {S A : Type} (f : S → A → S) (l : list A) (x : A) (s : S) :
  fold_left f (l ++ [x]) s = f (fold_left f l s) x.
Proof. now rewrite fold_left_app. Qed.

Lemma histogram_lookup (results : list Verdict) : ∀ c,
  fold_left (λ o v, tallyCategory v o) results initialCategories !! c =
    if inherited c then
      if String.eqb c "__proto__" || (tallied c results =? 0) then None else Some Text
    else if bool_decide (c ∈ presetCategories) || negb (tallied c results =? 0)
         then Some (Num (tallied c results)) else None.
Proof.
  induction results as [|v results IH] using rev_ind; intros c.
  - cbn [fold_left]. rewrite initialCategories_lookup.
    change (tallied c []) with 0. cbn [Nat.eqb negb]. rewrite orb_true_r, orb_false_r.
    destruct (decide (c ∈ presetCategories)) as [Hin | Hnin].
    + rewrite bool_decide_eq_true_2 by exact Hin.
      replace (inherited c) with false; [reflexivity |].
      unfold presetCategories in Hin.
      repeat (apply elem_of_cons in Hin as [-> | Hin]; [reflexivity |]).
      now apply elem_of_nil in Hin.
    + rewrite bool_decide_eq_false_2 by exact Hnin. now destruct (inherited c).
  - rewrite fold_left_snoc, tallyCategory_updateAt, updateAt_lookup, tallied_snoc.
    destruct (decide (countedAs v = c)) as [Heq | Hne].
    2:{ apply String.eqb_neq in Hne. rewrite Hne, Nat.add_0_r. apply IH. }
    rewrite (proj2 (String.eqb_eq _ _) Heq). rewrite IH. clear IH.
    replace (tallied c results + 1 =? 0) with false by (symmetry; apply Nat.eqb_neq; lia).
    cbn [negb]. rewrite !orb_true_r, orb_false_r.
    unfold countedAs in Heq. destruct (isValid v).
    + subst c. cbn [inherited].
      change (inherited "valid") with false. cbv iota.
      rewrite bool_decide_eq_true_2 by apply list_elem_of_here. cbn [orb incremented].
      do 2 f_equal. lia.
    + rewrite Heq. destruct (inherited c) eqn:Hinh.
      * destruct (String.eqb c "__proto__") eqn:Hproto; cbn [orb].
        -- unfold plusOne. rewrite Hproto. reflexivity.
        -- destruct (tallied c results =? 0); unfold plusOne; rewrite ?Hproto, ?Hinh;
             reflexivity.
      * assert (Hproto : String.eqb c "__proto__" = false).
        { apply String.eqb_neq. intros ->. discriminate. }
        destruct (bool_decide (c ∈ presetCategories)); cbn [orb].
        -- cbn [plusOne]. do 2 f_equal. lia.
        -- destruct (tallied c results =? 0) eqn:Hz; cbn [negb].
           ++ unfold plusOne. rewrite Hproto, Hinh. apply Nat.eqb_eq in Hz.
              rewrite Hz. reflexivity.
           ++ cbn [plusOne]. do 2 f_equal. lia.
Qed.

(** C2, amended.  For every sequence of verdicts, a valid verdict being
    counted under [valid] and any other verdict under its category, the
    histogram of the aggregate
    - has every category of the closed set other than [processing_error],
      with the number of verdicts counted under it, zero when there is
      none;
    - has [processing_error], and any category outside the closed set that
      names no member inherited from [Object.prototype], exactly when a
      verdict is counted under it, with that number;
    - holds a text, not a count, under a category that names an inherited
      member once a verdict is counted under it, and never has the key
      [__proto__].
    When [isValid] is true exactly for the category [valid], the number of
    verdicts counted under a category is the number of verdicts of that
    category. *)
Theorem histogram_of_categories (results : list Verdict) :
  let histogram := Stats.categories (analyzeResults results) in
  (∀ c, c ∈ closedSet → c ≠ "processing_error"%string →
     histogram !! c = Some (Num (tallied c results))) ∧
  (∀ c, c ∉ closedSet ∨ c = "processing_error"%string → inherited c = false →
     histogram !! c =
       if tallied c results =? 0 then None else Some (Num (tallied c results))) ∧
  (∀ c, inherited c = true →
     histogram !! c =
       if String.eqb c "__proto__" || (tallied c results =? 0) then None
       else Some Text) ∧
  (Forall consistent results → ∀ c, tallied c results = observed c results).
Proof.
  intros histogram. subst histogram.
  assert (Hlookup : ∀ c, Stats.categories (analyzeResults results) !! c =
            if inherited c then
              if String.eqb c "__proto__" || (tallied c results =? 0) then None
              else Some Text
            else if bool_decide (c ∈ presetCategories) || negb (tallied c results =? 0)
                 then Some (Num (tallied c results)) else None).
  { intros c. rewrite analyzeResults_fold, fold_tally.
    cbn [Stats.categories initialStats]. apply histogram_lookup. }
  split; [|split; [|split]].
  - intros c Hc Hne. apply presetCategories_closedSet in Hc as [Hc | Hc]; [|congruence].
    rewrite Hlookup.
    replace (inherited c) with false.
    + now rewrite bool_decide_eq_true_2 by exact Hc.
    + unfold presetCategories in Hc.
      repeat (apply elem_of_cons in Hc as [-> | Hc]; [reflexivity |]).
      now apply elem_of_nil in Hc.
  - intros c Hc Hplain.
    assert (Hout : c ∉ presetCategories).
    { destruct Hc as [Hc | ->].
      - intros Hin. apply Hc, presetCategories_closedSet. now left.
      - unfold presetCategories. rewrite !elem_of_cons, elem_of_nil.
        intros H. repeat destruct H as [H | H]; try discriminate H. exact H. }
    rewrite Hlookup, Hplain, bool_decide_eq_false_2 by exact Hout.
    now destruct (tallied c results =? 0).
  - intros c Hc. now rewrite Hlookup, Hc.
  - intros Hcons c. now apply consistent_tallied.
Qed.

Lemma histogram_of_categories_witness :
  let results :=
    [ mkVerdict "a@ex.com" true "valid" "Email существует"
        (mkDetails (Some ["mx.ex.com"%string]) (Some "mx.ex.com"%string));
      errorResult "b@ex.com" "boom";
      mkVerdict "c@ex.com" false "constructor" "?" (mkDetails None None) ] in
  Stats.categories (analyzeResults results) !! "dns_error"%string = Some (Num 0) ∧
  Stats.categories (analyzeResults results) !! "processing_error"%string = Some (Num 1) ∧
  Stats.categories (analyzeResults results) !! "server_error"%string = None ∧
  Stats.categories (analyzeResults results) !! "constructor"%string = Some Text ∧
  tallied "valid" results = observed "valid" results.
Proof.
  intros results.
  destruct (histogram_of_categories results) as (Hin & Hout & Hinherited & Hobserved).
  split; [|split; [|split; [|split]]].
  - apply (Hin "dns_error"%string); [|discriminate].
    unfold closedSet. rewrite !elem_of_cons. tauto.
  - apply (Hout "processing_error"%string); [now right | reflexivity].
  - apply (Hout "server_error"%string); [left | reflexivity].
    unfold closedSet. rewrite !elem_of_cons, elem_of_nil.
    intros H. repeat destruct H as [H | H]; try discriminate H. exact H.
  - apply (Hinherited "constructor"%string). reflexivity.
  - apply Hobserved.
    constructor; [|constructor; [|constructor; [|constructor]]];
      unfold consistent; simpl; split; congruence.
Defined.

(** C2 as stated fails twice.  [processing_error] belongs to the closed
    set, and the aggregate of the empty sequence has no such key.  And an
    unexpected category that names a member inherited from
    [Object.prototype] is not added with its observed count: one verdict
    of category [constructor] leaves a text under that key. *)
Lemma processing_error_not_preset :
  "processing_error"%string ∈ closedSet ∧
  observed "processing_error" [] = 0 ∧
  Stats.categories (analyzeResults []) !! "processing_error"%string = None ∧
  Stats.categories (analyzeResults []) !! "dns_error"%string = Some (Num 0) ∧
  (let unexpected :=
     [mkVerdict "c@ex.com" false "constructor" "?" (mkDetails None None)] in
   ("constructor"%string ∉ closedSet) ∧
   observed "constructor" unexpected = 1 ∧
   Stats.categories (analyzeResults unexpected) !! "constructor"%string = Some Text).
Proof.
  split; [|split; [reflexivity | split; [reflexivity | split; [reflexivity |]]]].
  - unfold closedSet. rewrite !elem_of_cons. tauto.
  - cbn zeta. split; [|split; reflexivity].
    unfold closedSet. rewrite !elem_of_cons, elem_of_nil.
    intros H. repeat destruct H as [H | H]; try discriminate H. exact H.
Qed.

Lemma sumCounts_insert_fresh (key : string) (w : JsValue) (o : gmap string JsValue) :
  o !! key = None → sumCounts (<[key := w]> o) = valueCount w + sumCounts o.
Proof.
  intros H. unfold sumCounts.
  rewrite map_fold_insert_L; [reflexivity | | exact H].
  intros. lia.
Qed.

Lemma sumCounts_delete (key : string) (w : JsValue) (o : gmap string JsValue) :
  o !! key = Some w → sumCounts o = valueCount w + sumCounts (delete key o).
Proof.
  intros H. unfold sumCounts.
  rewrite (map_fold_delete_L _ _ key w o); [reflexivity | | exact H].
  intros. lia.
Qed.

(** Counting one more verdict adds one to the sum of the histogram. *)
Lemma sumCounts_bump (key : string) (o : gmap string JsValue) :
  sumCounts (bump key o) = S (sumCounts o).
Proof.
  unfold bump, countOf. destruct (o !! key) as [w|] eqn:Hw; simpl.
  - rewrite <- insert_delete_eq.
    rewrite sumCounts_insert_fresh by apply lookup_delete_eq.
    rewrite (sumCounts_delete key w o Hw). reflexivity.
  - now rewrite sumCounts_insert_fresh by exact Hw.
Qed.

Lemma sumCounts_fold_bump (results : list Verdict) : ∀ o,
  sumCounts (fold_left (λ o v, bump (countedAs v) o) results o) =
    sumCounts o + length results.
Proof.
  induction results as [|v results IH]; intros o; simpl; [lia |].
  rewrite IH, sumCounts_bump. lia.
Qed.

Lemma sumCounts_zeroed (keys : list string) :
  NoDup keys →
  sumCounts (list_to_map (map (λ key, (key, Num 0)) keys)) = 0.
Proof.
  induction 1 as [|key keys Hnotin _ IH].
  - apply map_fold_empty.
  - change (sumCounts (<[key := Num 0]> (list_to_map (map (λ key, (key, Num 0)) keys))) = 0).
    rewrite sumCounts_insert_fresh; [now rewrite IH |].
    rewrite zeroed_lookup. now rewrite decide_False by exact Hnotin.
Qed.

Lemma sumCounts_initialCategories : sumCounts initialCategories = 0.
Proof.
  apply sumCounts_zeroed. unfold presetCategories.
  repeat (apply NoDup_cons_2;
          [rewrite ?elem_of_cons, elem_of_nil;
           intros H; repeat destruct H as [H | H]; try discriminate H; exact H |]).
  apply NoDup_nil_2.
Qed.

(** *** Domains *)

Lemma countDomain_balanced (v : Verdict) (o : gmap string Domain.Stat) :
  map_Forall (λ _ D, balanced D) o → map_Forall (λ _ D, balanced D) (countDomain v o).
Proof.
  intros H. unfold countDomain.
  destruct (includes "@" (email v)); [|exact H].
  destruct (inherited _); [exact H |].
  apply map_Forall_insert_2; [|exact H].
  assert (Hd : balanced (default (Domain.mkStat 0 0 0)
                 (o !! nth 1 (split "@" (email v)) "undefined"%string))).
  { destruct (o !! _) as [D|] eqn:HD; simpl; [exact (H _ _ HD) | reflexivity]. }
  unfold balanced in *. destruct (isValid v); simpl; lia.
Qed.

Lemma fold_countDomain_balanced (results : list Verdict) : ∀ o,
  map_Forall (λ _ D, balanced D) o →
  map_Forall (λ _ D, balanced D) (fold_left (λ o v, countDomain v o) results o).
Proof.
  induction results as [|v results IH]; intros o H; simpl; [exact H |].
  apply IH, countDomain_balanced, H.
Qed.

Lemma countDomain_total (v : Verdict) (domain : string) (o : gmap string Domain.Stat) :
  from_option Domain.total 0 (countDomain v o !! domain) =
    from_option Domain.total 0 (o !! domain) +
    (if bool_decide (countedDomain v = Some domain) then 1 else 0).
Proof.
  unfold countDomain, countedDomain.
  destruct (includes "@" (email v)); [|rewrite bool_decide_eq_false_2 by discriminate; lia].
  set (d := nth 1 (split "@" (email v)) "undefined"%string).
  destruct (inherited d); [rewrite bool_decide_eq_false_2 by discriminate; lia |].
  rewrite lookup_insert. destruct (decide (d = domain)) as [-> | Hne].
  - rewrite bool_decide_eq_true_2 by reflexivity.
    destruct (o !! domain) as [D|]; destruct (isValid v); simpl; lia.
  - rewrite bool_decide_eq_false_2 by congruence. lia.
Qed.

Lemma fold_countDomain_total (domain : string) (results : list Verdict) : ∀ o,
  from_option Domain.total 0 (fold_left (λ o v, countDomain v o) results o !! domain) =
    from_option Domain.total 0 (o !! domain) + inDomain domain results.
Proof.
  unfold inDomain.
  induction results as [|v results IH]; intros o; simpl; [lia |].
  rewrite IH, countDomain_total.
  destruct (bool_decide (countedDomain v = Some domain)); simpl; lia.
Qed.

(** C7.  For every sequence of verdicts (none with a category that names a
    member inherited from [Object.prototype]), the aggregate [A] satisfies
    [A.valid + A.invalid = A.total]; the values of [A.categories] are counts
    and their sum is [A.total]; and every entry [D] of [A.domains] satisfies
    [D.valid + D.invalid = D.total]. *)
Theorem aggregate_invariants (results : list Verdict) :
  Forall plain results →
  let A := analyzeResults results in
  Stats.valid A + Stats.invalid A = Stats.total A ∧
  (allNumeric (Stats.categories A) ∧ sumCounts (Stats.categories A) = Stats.total A) ∧
  (∀ domain D, Stats.domains A !! domain = Some D →
     Domain.valid D + Domain.invalid D = Domain.total D).
Proof.
  intros Hplain A. subst A. split; [|split; [split |]].
  - rewrite analyzeResults_fold, fold_tally. simpl. apply count_valid_invalid.
  - rewrite (analyzeResults_categories results Hplain).
    apply fold_bump_allNumeric, initialCategories_allNumeric.
  - rewrite (analyzeResults_categories results Hplain), sumCounts_fold_bump.
    rewrite sumCounts_initialCategories.
    rewrite analyzeResults_fold, fold_tally. reflexivity.
  - intros domain D HD. rewrite analyzeResults_fold, fold_tally in HD. simpl in HD.
    exact (fold_countDomain_balanced results ∅ (map_Forall_empty _) domain D HD).
Qed.

Lemma aggregate_invariants_witness :
  let A := analyzeResults [Example.validAtEx; Example.unknownAtEx; Example.malformed] in
  Stats.valid A + Stats.invalid A = 3 ∧
  sumCounts (Stats.categories A) = 3 ∧
  (∀ D, Stats.domains A !! "ex.com"%string = Some D →
        Domain.valid D + Domain.invalid D = Domain.total D).
Proof.
  intros A.
  assert (Hplain : Forall plain
            [Example.validAtEx; Example.unknownAtEx; Example.malformed]).
  { constructor; [|constructor; [|constructor; [|constructor]]];
      unfold plain; simpl; auto. }
  destruct (aggregate_invariants _ Hplain) as (Hsum & (_ & Hcats) & Hdom).
  split; [exact Hsum | split; [exact Hcats |]].
  intros D. apply Hdom.
Defined.

(** *** Concatenation *)

Lemma analyzeResults_countOf (c : string) (results : list Verdict) :
  Forall plain results →
  countOf (Stats.categories (analyzeResults results)) c = tallied c results.
Proof.
  intros Hplain. unfold countOf. rewrite (analyzeResults_lookup c results Hplain).
  destruct (decide (c ∈ presetCategories)); [reflexivity |].
  destruct (tallied c results =? 0) eqn:Hz; [|reflexivity].
  apply Nat.eqb_eq in Hz. now rewrite Hz.
Qed.

Lemma analyzeResults_domainTotal (domain : string) (results : list Verdict) :
  domainTotal (analyzeResults results) domain = inDomain domain results.
Proof.
  unfold domainTotal. rewrite analyzeResults_fold, fold_tally. simpl.
  rewrite fold_countDomain_total, lookup_empty. reflexivity.
Qed.

(** C9.  For any two sequences of verdicts over disjoint sets of
    addresses (none with a category that names a member inherited from
    [Object.prototype]), the aggregate of their concatenation is the
    pointwise sum of their aggregates on [total], [valid], [invalid], the
    count of every category and the total of every domain, a key that is
    missing counting for zero.  (The proof makes no use of the addresses
    being disjoint.) *)
Theorem aggregate_of_concatenation (a b : list Verdict) :
  Forall plain a → Forall plain b →
  (∀ x y, x ∈ a → y ∈ b → email x ≠ email y) →
  let A := analyzeResults a in
  let B := analyzeResults b in
  let AB := analyzeResults (a ++ b) in
  Stats.total AB = Stats.total A + Stats.total B ∧
  Stats.valid AB = Stats.valid A + Stats.valid B ∧
  Stats.invalid AB = Stats.invalid A + Stats.invalid B ∧
  (∀ c, countOf (Stats.categories AB) c
        = countOf (Stats.categories A) c + countOf (Stats.categories B) c) ∧
  (∀ domain, domainTotal AB domain = domainTotal A domain + domainTotal B domain).
Proof.
  intros Ha Hb _ A B AB. subst A B AB.
  assert (Hab : Forall plain (a ++ b)) by (apply Forall_app; auto).
  repeat split.
  - rewrite !analyzeResults_fold, !fold_tally. simpl. apply length_app.
  - rewrite !analyzeResults_fold, !fold_tally. simpl. apply filter_length_app.
  - rewrite !analyzeResults_fold, !fold_tally. simpl. apply filter_length_app.
  - intros c. rewrite !analyzeResults_countOf by assumption. apply filter_length_app.
  - intros domain. rewrite !analyzeResults_domainTotal. apply filter_length_app.
Qed.

Lemma aggregate_of_concatenation_witness :
  let A := analyzeResults [Example.validAtEx] in
  let B := analyzeResults [Example.unknownAtEx; Example.malformed] in
  let AB := analyzeResults [Example.validAtEx; Example.unknownAtEx; Example.malformed] in
  Stats.total AB = Stats.total A + Stats.total B ∧
  countOf (Stats.categories AB) "not_existing"
    = countOf (Stats.categories A) "not_existing"
      + countOf (Stats.categories B) "not_existing" ∧
  domainTotal AB "ex.com" = domainTotal A "ex.com" + domainTotal B "ex.com".
Proof.
  intros A B AB.
  destruct (aggregate_of_concatenation
              [Example.validAtEx] [Example.unknownAtEx; Example.malformed])
    as (Htotal & _ & _ & Hcat & Hdom).
  - constructor; [|constructor]. unfold plain. simpl. auto.
  - constructor; [|constructor; [|constructor]]; unfold plain; simpl; auto.
  - intros x y Hx Hy.
    apply list_elem_of_singleton in Hx as ->.
    apply elem_of_cons in Hy as [-> | Hy]; [discriminate |].
    apply list_elem_of_singleton in Hy as ->. discriminate.
  - split; [exact Htotal | split; [apply Hcat | apply Hdom]].
Defined.

(** ** processBatch *)

Lemma verdictsFrom_length (verdictAt : nat → string → Verdict) (addresses : list string) :
  ∀ index, length (verdictsFrom verdictAt index addresses) = length addresses.
Proof.
  induction addresses as [|a rest IH]; intros index; simpl; [reflexivity |].
  now rewrite IH.
Qed.

Lemma verdictsFrom_lookup (verdictAt : nat → string → Verdict) (addresses : list string) :
  ∀ index j, verdictsFrom verdictAt index addresses !! j
             = verdictAt (index + j) <$> addresses !! j.
Proof.
  induction addresses as [|a rest IH]; intros index j; simpl; [reflexivity |].
  destruct j as [|j]; simpl.
  - now rewrite Nat.add_0_r.
  - rewrite IH. now rewrite Nat.add_succ_comm.
Qed.

Lemma verdictsFrom_app (verdictAt : nat → string → Verdict) (a b : list string) :
  ∀ index, verdictsFrom verdictAt index (a ++ b)
           = verdictsFrom verdictAt index a
             ++ verdictsFrom verdictAt (index + length a) b.
Proof.
  induction a as [|x a IH]; intros index; simpl.
  - now rewrite Nat.add_0_r.
  - rewrite IH. now rewrite Nat.add_succ_comm.
Qed.

(** [Promise.all] over a group whose verifications all settle. *)
Lemma groupValues_settled (r : Run) (verdictAt : nat → string → Verdict)
    (group : list string) : ∀ index,
  (∀ j address, group !! j = Some address →
     groupValue address (verify r (index + j) address) = Some (verdictAt (index + j) address)) →
  groupValues r index group = Some (verdictsFrom verdictAt index group).
Proof.
  induction group as [|a rest IH]; intros index Hall; simpl; [reflexivity |].
  pose proof (Hall 0 a eq_refl) as Ha. rewrite Nat.add_0_r in Ha. rewrite Ha.
  rewrite (IH (S index)); [reflexivity |].
  intros j address Hj. rewrite Nat.add_succ_comm. now apply (Hall (S j)).
Qed.

Lemma afterVerify_results (r : Run) (total : nat) (address : string)
    (outcome : Promise Verdict) (b : Batch) :
  results (afterVerify r total address outcome b) = results b.
Proof. destruct outcome; reflexivity. Qed.

(** The continuations leave the results alone: the array grows only when a
    group is complete. *)
Lemma processGroup_results (r : Run) (total offset : nat) (order : list nat)
    (group : list string) : ∀ b,
  results (fst (processGroup r total offset order group b)) = results b.
Proof.
  unfold processGroup. simpl.
  induction order as [|i order IH]; intros b; simpl; [reflexivity |].
  rewrite IH. destruct (group !! i); [apply afterVerify_results | reflexivity].
Qed.

Lemma processGroups_results (r : Run) (verdictAt : nat → string → Verdict)
    (total : nat) (groups : list (list string)) : ∀ g offset b,
  (∀ j address, concat groups !! j = Some address →
     groupValue address (verify r (offset + j) address)
       = Some (verdictAt (offset + j) address)) →
  ∃ b', processGroups r total g offset groups b = (b', true) ∧
        results b' = results b ++ verdictsFrom verdictAt offset (concat groups).
Proof.
  induction groups as [|group rest IH]; intros g offset b Hall; cbn [processGroups].
  - exists b. simpl. now rewrite app_nil_r.
  - destruct (processGroup r total offset (completionOrder r g) group b)
      as [b1 values] eqn:Hgroup.
    assert (Hb1 : results b1 = results b).
    { replace b1 with (fst (processGroup r total offset (completionOrder r g) group b))
        by now rewrite Hgroup.
      apply processGroup_results. }
    assert (Hvalues : values = Some (verdictsFrom verdictAt offset group)).
    { replace values with (snd (processGroup r total offset (completionOrder r g) group b))
        by now rewrite Hgroup.
      simpl. apply groupValues_settled. intros j address Hj. apply Hall.
      now apply lookup_app_l_Some. }
    subst values.
    destruct (IH (S g) (offset + length group)
                {| results := results b1 ++ verdictsFrom verdictAt offset group;
                   completed := completed b1; calls := calls b1 |})
      as (b' & Hrun & Hres).
    { intros j address Hj. rewrite <- Nat.add_assoc. apply Hall.
      simpl. rewrite lookup_app_r by lia. now replace (length group + j - length group) with j by lia. }
    exists b'. split; [exact Hrun |].
    rewrite Hres. simpl. rewrite Hb1, verdictsFrom_app, app_assoc. reflexivity.
Qed.

Lemma concat_slices {A : Type} (limit : nat) : ∀ fuel (items : list A),
  0 < limit → length items ≤ fuel → concat (slices fuel limit items) = items.
Proof.
  induction fuel as [|fuel IH]; intros items Hlimit Hlen.
  - destruct items; [reflexivity | simpl in Hlen; lia].
  - destruct items as [|x items]; [reflexivity |].
    cbn [slices concat]. rewrite IH; [apply take_drop | exact Hlimit |].
    rewrite length_drop. simpl in *. lia.
Qed.

Lemma concat_groupsOf {A : Type} (items : list A) :
  concat (groupsOf concurrentLimit items) = items.
Proof. apply concat_slices; [unfold concurrentLimit; lia | lia]. Qed.

Lemma omap_pointwise {A B : Type} (f g : A → option B) (l : list A) :
  (∀ x, f x = g x) → omap f l = omap g l.
Proof.
  intros Hfg. induction l as [|x l IH]; csimpl; [reflexivity |].
  now rewrite Hfg, IH.
Qed.

Lemma omap_seq_shift {B : Type} (f : nat → option B) (n : nat) : ∀ k,
  omap f (seq (S k) n) = omap (λ i, f (S i)) (seq k n).
Proof.
  induction n as [|n IH]; intros k; csimpl; [reflexivity |].
  now rewrite IH.
Qed.

(** When the verifications complete in the order of the group, the
    completion list is the list of the group's verdicts. *)
Lemma completionsOf_seq (verdictAt : nat → string → Verdict) (group : list string) :
  ∀ offset, completionsOf verdictAt offset (seq 0 (length group)) group
            = verdictsFrom verdictAt offset group.
Proof.
  unfold completionsOf.
  induction group as [|a rest IH]; intros offset; [reflexivity |].
  cbn [length seq]. csimpl.
  rewrite Nat.add_0_r. f_equal.
  rewrite omap_seq_shift. rewrite <- (IH (S offset)).
  apply omap_pointwise. intros i.
  replace (offset + S i) with (S offset + i) by lia. reflexivity.
Qed.

Lemma completionsOf_fair (verdictAt : nat → string → Verdict) (offset : nat)
    (order : list nat) (group : list string) :
  order ≡ₚ seq 0 (length group) →
  completionsOf verdictAt offset order group ≡ₚ verdictsFrom verdictAt offset group.
Proof.
  intros Hperm. rewrite <- completionsOf_seq. unfold completionsOf.
  now apply omap_Permutation.
Qed.

Lemma completionsOf_fair_length (verdictAt : nat → string → Verdict) (offset : nat)
    (order : list nat) (group : list string) :
  order ≡ₚ seq 0 (length group) →
  length (completionsOf verdictAt offset order group) = length group.
Proof.
  intros Hperm. rewrite (Permutation_length (completionsOf_fair _ _ _ _ Hperm)).
  apply verdictsFrom_length.
Qed.

Section Calls.

Variable r : Run.
Variable verdictAt : nat → string → Verdict.
Variable total : nat.
Hypothesis progress_passed : onProgress r = true.
Hypothesis stats_passed : onStatsUpdate r = true.

(** The continuations of a group whose verifications are all fulfilled:
    the counter advances by one for each, and the calls are those of
    [callsFor] with the aggregate of the results the group started with. *)
Lemma processGroup_calls (offset : nat) (group : list string) (order : list nat) :
  (∀ j address, group !! j = Some address →
     verify r (offset + j) address = Fulfilled (verdictAt (offset + j) address)) →
  ∀ b,
    fst (processGroup r total offset order group b) =
      {| results := results b;
         completed := completed b + length (completionsOf verdictAt offset order group);
         calls := calls b ++
                  callsFor total (analyzeResults (results b)) (completed b)
                    (completionsOf verdictAt offset order group) |}.
Proof.
  intros Hall. unfold processGroup, completionsOf. cbn [fst].
  induction order as [|i order IH]; intros [res c log]; cbn [fold_left omap list_omap].
  - simpl. now rewrite Nat.add_0_r, app_nil_r.
  - destruct (group !! i) as [address|] eqn:Hi; cbn [fmap option_fmap option_map].
    + rewrite IH. rewrite (Hall i address Hi). unfold afterVerify.
      rewrite progress_passed, stats_passed, andb_true_r.
      cbn [results completed calls length callsFor]. f_equal; [lia |].
      destruct (S c mod 100 =? 0); rewrite <- ?app_assoc; reflexivity.
    + apply IH.
Qed.

Lemma processGroups_calls (groups : list (list string)) : ∀ g offset b,
  (∀ j address, concat groups !! j = Some address →
     verify r (offset + j) address = Fulfilled (verdictAt (offset + j) address)) →
  (∀ k group, groups !! k = Some group →
     completionOrder r (g + k) ≡ₚ seq 0 (length group)) →
  length (results b) = offset → completed b = offset →
  processGroups r total g offset groups b =
    ({| results := results b ++ verdictsFrom verdictAt offset (concat groups);
        completed := offset + length (concat groups);
        calls := calls b ++
                 expectedCalls total
                   (results b ++ verdictsFrom verdictAt offset (concat groups))
                   offset (completionsFrom r verdictAt g offset groups) |}, true).
Proof.
  induction groups as [|group rest IH]; intros g offset b Hall Hfair Hlen Hdone;
    cbn [processGroups].
  - simpl. rewrite Nat.add_0_r, !app_nil_r. destruct b; simpl in *. now subst.
  - assert (Hgroup : ∀ j address, group !! j = Some address →
              verify r (offset + j) address = Fulfilled (verdictAt (offset + j) address)).
    { intros j address Hj. apply Hall. simpl. now apply lookup_app_l_Some. }
    assert (Hvalues : groupValues r offset group
                      = Some (verdictsFrom verdictAt offset group)).
    { apply groupValues_settled. intros j address Hj. now rewrite (Hgroup j address Hj). }
    assert (Horder : completionOrder r g ≡ₚ seq 0 (length group)).
    { rewrite <- (Nat.add_0_r g). now apply Hfair. }
    destruct (processGroup r total offset (completionOrder r g) group b)
      as [b1 values] eqn:Hpg.
    assert (Hb1 : b1 = fst (processGroup r total offset (completionOrder r g) group b))
      by now rewrite Hpg.
    assert (Hv : values = snd (processGroup r total offset (completionOrder r g) group b))
      by now rewrite Hpg.
    rewrite (processGroup_calls offset group _ Hgroup) in Hb1.
    simpl in Hv. rewrite Hvalues in Hv. subst values b1. cbn [results completed calls].
    rewrite (completionsOf_fair_length verdictAt offset _ group Horder).
    rewrite IH.
    + cbn [results completed calls concat completionsFrom expectedCalls].
      rewrite (completionsOf_fair_length verdictAt offset _ group Horder).
      rewrite verdictsFrom_app, !length_app, <- !app_assoc.
      rewrite (take_app_length' (results b)) by (symmetry; exact Hlen).
      rewrite Hdone. f_equal. f_equal. lia.
    + intros j address Hj. rewrite <- Nat.add_assoc. apply Hall.
      simpl. rewrite lookup_app_r by lia.
      now replace (length group + j - length group) with j by lia.
    + intros k group' Hk. replace (S g + k) with (g + S k) by lia. now apply Hfair.
    + cbn [results]. rewrite length_app, verdictsFrom_length. lia.
    + cbn [completed]. lia.
Qed.

End Calls.

Lemma smtpLoop_email (net : Network) (address : string) (hosts : list string) :
  ∀ i result probed v,
    smtpLoop net address i hosts result = (probed, Fulfilled v) →
    email v = email result.
Proof.
  induction hosts as [|host rest IH]; intros i result probed v Hloop; simpl in Hloop.
  - injection Hloop as _ <-. unfold afterLoop. now destruct (String.eqb _ _).
  - destruct (probe net address i host) as [|r|reason]; [discriminate | |].
    + destruct (Smtp.isValid r).
      * now injection Hloop as _ <-.
      * destruct (smtpLoop net address (S i) rest _) as [probed' p'] eqn:Hrec.
        injection Hloop as _ ->. now rewrite (IH _ _ _ _ Hrec).
    + destruct (smtpLoop net address (S i) rest _) as [probed' p'] eqn:Hrec.
      injection Hloop as _ ->. now rewrite (IH _ _ _ _ Hrec).
Qed.

(** A verdict names the address it was asked for. *)
Lemma verifyEmail_email (net : Network) (address : string) (v : Verdict) :
  verifyEmail net address = Fulfilled v → email v = address.
Proof.
  unfold verifyEmail, verifyEmailTraced.
  destruct (isValidFormat address); cbn [negb]; [|now intros [= <-]].
  destruct (getMxRecords _ _) as [|[|host rest]|reason];
    [discriminate | now intros [= <-] | | now intros [= <-]].
  destruct (smtpLoop _ _ _ _ _) as [probed p] eqn:Hloop. cbn [snd]. intros ->.
  now rewrite (smtpLoop_email _ _ _ _ _ _ _ Hloop).
Qed.

Lemma groupValues_Some (r : Run) (group : list string) : ∀ index vs,
  groupValues r index group = Some vs →
  length vs = length group ∧
  ∀ j address, group !! j = Some address →
    ∃ v, vs !! j = Some v ∧
         groupValue address (verify r (index + j) address) = Some v.
Proof.
  induction group as [|a rest IH]; intros index vs Hvs; simpl in Hvs.
  - injection Hvs as <-. split; [reflexivity | intros j address Hj; discriminate].
  - destruct (groupValue a (verify r index a)) as [v|] eqn:Hv; [|discriminate].
    destruct (groupValues r (S index) rest) as [vs'|] eqn:Hrest; [|discriminate].
    injection Hvs as <-. destruct (IH (S index) vs' Hrest) as [Hlen Hat].
    split; [simpl; now rewrite Hlen |].
    intros [|j] address Hj; simpl in Hj.
    + injection Hj as <-. exists v. rewrite Nat.add_0_r. auto.
    + rewrite <- Nat.add_succ_comm. now apply Hat.
Qed.

(** When the loop over the groups comes to its end, the results have grown
    by one verdict for each address, in the order of the addresses. *)
Lemma processGroups_returned (r : Run) (total : nat) (groups : list (list string)) :
  ∀ g offset b b',
    processGroups r total g offset groups b = (b', true) →
    ∃ vs, results b' = results b ++ vs ∧ length vs = length (concat groups) ∧
      ∀ j address, concat groups !! j = Some address →
        ∃ v, vs !! j = Some v ∧
             groupValue address (verify r (offset + j) address) = Some v.
Proof.
  induction groups as [|group rest IH]; intros g offset b b' Hrun;
    cbn [processGroups] in Hrun.
  - injection Hrun as <-. exists []. rewrite app_nil_r.
    split; [reflexivity | split; [reflexivity |]]. intros j address Hj. discriminate.
  - destruct (processGroup r total offset (completionOrder r g) group b)
      as [b1 values] eqn:Hgroup.
    assert (Hb1 : results b1 = results b).
    { replace b1 with (fst (processGroup r total offset (completionOrder r g) group b))
        by now rewrite Hgroup.
      apply processGroup_results. }
    assert (Hvalues : values = groupValues r offset group).
    { replace values with (snd (processGroup r total offset (completionOrder r g) group b))
        by now rewrite Hgroup.
      reflexivity. }
    destruct values as [vs1|]; [|discriminate].
    destruct (groupValues_Some r group offset vs1 (eq_sym Hvalues)) as [Hlen1 Hat1].
    destruct (IH _ _ _ _ Hrun) as (vs2 & Hres & Hlen2 & Hat2).
    exists (vs1 ++ vs2). cbn [results concat] in *.
    rewrite Hres, Hb1, app_assoc, !length_app, Hlen1, Hlen2.
    split; [reflexivity | split; [reflexivity |]].
    intros j address Hj. apply lookup_app_Some in Hj as [Hj | [Hge Hj]].
    + destruct (Hat1 j address Hj) as (v & Hv & Hval).
      exists v. split; [now apply lookup_app_l_Some | exact Hval].
    + destruct (Hat2 _ address Hj) as (v & Hv & Hval).
      exists v. split.
      * rewrite lookup_app_r by lia. now rewrite Hlen1.
      * replace (offset + j) with (offset + length group + (j - length group)) by lia.
        exact Hval.
Qed.

(** [processBatch] returns when every verification settles. *)
Lemma processBatch_returns (r : Run) (emails : list string) :
  (∀ i address, emails !! i = Some address → verify r i address ≠ Pending) →
  ∃ results stats, returned (processBatch r emails) = Fulfilled (results, stats).
Proof.
  intros Hsettle. unfold processBatch.
  destruct (processGroups_results r
              (λ i address, default (errorResult address "")
                              (groupValue address (verify r i address)))
              (length emails) (groupsOf concurrentLimit emails) 0 0
              {| results := []; completed := 0; calls := [] |})
    as (b' & Hrun & _).
  { rewrite concat_groupsOf. intros j address Hj. simpl.
    specialize (Hsettle j address Hj).
    destruct (verify r j address); [congruence | reflexivity | reflexivity]. }
  rewrite Hrun. eauto.
Qed.

(** What [processBatch] returns, when it does. *)
Lemma processBatch_returned (r : Run) (emails : list string)
    (results : list Verdict) (stats : Stats.t) :
  returned (processBatch r emails) = Fulfilled (results, stats) →
  length results = length emails ∧
  ∀ i address, emails !! i = Some address →
    ∃ v, results !! i = Some v ∧
         groupValue address (verify r i address) = Some v.
Proof.
  intros Hret. unfold processBatch in Hret.
  destruct (processGroups r (length emails) 0 0 (groupsOf concurrentLimit emails) _)
    as [b' [|]] eqn:Hrun; [|discriminate].
  injection Hret as <- _.
  destruct (processGroups_returned _ _ _ _ _ _ _ Hrun) as (vs & Hres & Hlen & Hat).
  rewrite concat_groupsOf in Hlen, Hat. simpl in Hres. subst vs.
  split; [exact Hlen |]. intros i address Hi. now apply Hat.
Qed.

(** C8.  [processBatch] returns as soon as every verification settles
    (with a verdict, or with an exception that the scheduler turns into a
    [processing_error] verdict).  For every batch, the results it returns
    have as many entries as the batch, and the entry at index [i] is the
    verdict of the verification started for the address at index [i], in
    whatever order the verifications of a group complete; when the
    verifier answers with the address it was given, as [verifyEmail] does,
    the entry at index [i] carries the address at index [i]. *)
Theorem results_in_input_order (r : Run) (emails : list string) :
  ((∀ i address, emails !! i = Some address → verify r i address ≠ Pending) →
   ∃ results stats, returned (processBatch r emails) = Fulfilled (results, stats)) ∧
  (∀ results stats,
     returned (processBatch r emails) = Fulfilled (results, stats) →
     length results = length emails ∧
     (∀ i address, emails !! i = Some address →
        ∃ v, results !! i = Some v ∧
             groupValue address (verify r i address) = Some v) ∧
     ((∀ i address v, verify r i address = Fulfilled v → email v = address) →
      ∀ i address, emails !! i = Some address →
        ∃ v, results !! i = Some v ∧ email v = address)).
Proof.
  split; [apply processBatch_returns |].
  intros results stats Hret.
  destruct (processBatch_returned r emails results stats Hret) as [Hlen Hat].
  split; [exact Hlen | split; [exact Hat |]].
  intros Hemail i address Hi. destruct (Hat i address Hi) as (v & Hv & Hval).
  exists v. split; [exact Hv |]. simpl in Hval.
  destruct (verify r i address) as [|v'|reason] eqn:Hverify; simpl in Hval.
  - discriminate.
  - injection Hval as <-. now apply (Hemail i).
  - injection Hval as <-. reflexivity.
Qed.

Lemma results_in_input_order_witness :
  ∃ results stats,
    returned (processBatch
                (liveRun (λ _, Example.resolverTimesOut) Example.secondFirst true true)
                Example.twoAddresses)
      = Fulfilled (results, stats) ∧
    length results = 2 ∧
    ∃ v, results !! 1 = Some v ∧ email v = "a@ex.com"%string.
Proof.
  destruct (results_in_input_order
              (liveRun (λ _, Example.resolverTimesOut) Example.secondFirst true true)
              Example.twoAddresses) as [Hreturns Hresults].
  destruct Hreturns as (results & stats & Hret).
  - intros [|[|i]] address Hi; [| |discriminate]; injection Hi as <-; discriminate.
  - destruct (Hresults results stats Hret) as (Hlen & _ & Hemail).
    exists results, stats. split; [exact Hret | split; [exact Hlen |]].
    apply (Hemail (λ i address v, verifyEmail_email _ address v) 1 "a@ex.com"%string).
    reflexivity.
Defined.

Lemma verdictsFrom_take (verdictAt : nat → string → Verdict) (addresses : list string) :
  ∀ n index, take n (verdictsFrom verdictAt index addresses)
             = verdictsFrom verdictAt index (take n addresses).
Proof.
  induction addresses as [|a rest IH]; intros [|n] index; simpl; try reflexivity.
  now rewrite IH.
Qed.

Lemma verdictsFrom_drop (verdictAt : nat → string → Verdict) (addresses : list string) :
  ∀ n index, drop n (verdictsFrom verdictAt index addresses)
             = verdictsFrom verdictAt (index + n) (drop n addresses).
Proof.
  induction addresses as [|a rest IH]; intros [|n] index; simpl; try reflexivity.
  - now rewrite Nat.add_0_r.
  - rewrite IH. now rewrite Nat.add_succ_comm.
Qed.

Lemma slices_nil {A : Type} (fuel limit : nat) : slices fuel limit (@nil A) = [].
Proof. destruct fuel; reflexivity. Qed.

(** Each completion list is a permutation of the results of its group. *)
Lemma completions_permutation (r : Run) (verdictAt : nat → string → Verdict)
    (limit : nat) : ∀ fuel addresses g offset,
  (∀ k group, slices fuel limit addresses !! k = Some group →
     completionOrder r (g + k) ≡ₚ seq 0 (length group)) →
  Forall2 (≡ₚ)
    (completionsFrom r verdictAt g offset (slices fuel limit addresses))
    (slices fuel limit (verdictsFrom verdictAt offset addresses)).
Proof.
  induction fuel as [|fuel IH]; intros addresses g offset Hfair.
  - constructor.
  - destruct addresses as [|a rest]; [constructor |].
    change (verdictsFrom verdictAt offset (a :: rest))
      with (verdictAt offset a :: verdictsFrom verdictAt (S offset) rest).
    cbn [slices completionsFrom].
    change (verdictAt offset a :: verdictsFrom verdictAt (S offset) rest)
      with (verdictsFrom verdictAt offset (a :: rest)).
    constructor.
    + rewrite verdictsFrom_take. apply completionsOf_fair.
      rewrite <- (Nat.add_0_r g). now apply Hfair.
    + rewrite verdictsFrom_drop.
      destruct (decide (limit ≤ length (a :: rest))) as [Hle | Hgt].
      * rewrite length_take_le by exact Hle. apply IH.
        intros k group Hk. replace (S g + k) with (g + S k) by lia. now apply Hfair.
      * rewrite (drop_ge (a :: rest)) by lia. cbn [verdictsFrom].
        rewrite !slices_nil. constructor.
Qed.

(** C3, amended.  When both callbacks are passed, every verification
    answers with a verdict and every verification of a group completes
    once, the calls are these.  Group after group, a group being
    [concurrentLimit] consecutive results, each verdict of the group is
    reported by one [onProgress], in the order the group completes; when
    the counter it reports is a multiple of 100, the next call is
    [onStatsUpdate] with the aggregate of the results of the groups
    completed before, the verdicts of the group in flight left out (they
    join the results when the whole group has completed).  After the last
    group [onStatsUpdate] is called once more, with the aggregate of all
    the results, which is the aggregate returned. *)
Theorem stats_updates (r : Run) (emails : list string)
    (verdictAt : nat → string → Verdict) :
  onProgress r = true → onStatsUpdate r = true →
  (∀ i address, emails !! i = Some address →
     verify r i address = Fulfilled (verdictAt i address)) →
  fairSchedule r emails →
  ∃ results completions,
    returned (processBatch r emails) = Fulfilled (results, analyzeResults results) ∧
    Forall2 (≡ₚ) completions (groupsOf concurrentLimit results) ∧
    callbackCalls (processBatch r emails) =
      expectedCalls (length emails) results 0 completions
      ++ [OnStatsUpdate (analyzeResults results)].
Proof.
  intros Hprogress Hstats Hall Hfair. unfold processBatch.
  rewrite (processGroups_calls r verdictAt (length emails) Hprogress Hstats
             (groupsOf concurrentLimit emails) 0 0
             {| results := []; completed := 0; calls := [] |});
    [| rewrite concat_groupsOf; intros j address Hj; now apply Hall
     | intros k group Hk; now apply Hfair
     | reflexivity | reflexivity].
  rewrite concat_groupsOf, Hstats. cbn [results calls callbackCalls returned app].
  exists (verdictsFrom verdictAt 0 emails),
         (completionsFrom r verdictAt 0 0 (groupsOf concurrentLimit emails)).
  split; [reflexivity | split; [|reflexivity]].
  unfold groupsOf. rewrite verdictsFrom_length.
  apply completions_permutation. intros k group Hk. now apply Hfair.
Qed.

Lemma stats_updates_witness :
  ∃ results completions,
    returned (processBatch
                (liveRun (λ _, Example.resolverTimesOut) Example.secondFirst true true)
                Example.twoAddresses)
      = Fulfilled (results, analyzeResults results) ∧
    Forall2 (≡ₚ) completions (groupsOf concurrentLimit results) ∧
    callbackCalls (processBatch
                (liveRun (λ _, Example.resolverTimesOut) Example.secondFirst true true)
                Example.twoAddresses) =
      expectedCalls 2 results 0 completions ++ [OnStatsUpdate (analyzeResults results)].
Proof.
  apply (stats_updates
           (liveRun (λ _, Example.resolverTimesOut) Example.secondFirst true true)
           Example.twoAddresses Example.verdictOffline).
  - reflexivity.
  - reflexivity.
  - intros [|[|i]] address Hi; [| |discriminate]; injection Hi as <-; reflexivity.
  - intros [|g] group Hg; [|discriminate]. injection Hg as <-. apply perm_swap.
Defined.

(** C3 as stated fails.  A hundred addresses are verified, five at a
    time, each group completing in the order of the input.  The call that
    follows [onProgress(100, 100, _)] is [onStatsUpdate] with an aggregate
    of 95 verdicts: the five of the group in flight are not in it. *)
Lemma stats_update_misses_group_in_flight :
  let log :=
    callbackCalls
      (processBatch
         (liveRun (λ _, Example.resolverTimesOut) Example.inOrder true true)
         Example.hundred) in
  match log !! 99, log !! 100 with
  | Some (OnProgress c total _), Some (OnStatsUpdate stats) =>
      c = 100 ∧ total = 100 ∧ Stats.total stats = 95
  | _, _ => False
  end.
Proof. vm_compute. repeat split. Qed.

(** ** The verdicts the aggregate is computed from

    The hypotheses [consistent] and [plain] of the statements about
    [analyzeResults] hold of every verdict the scheduler collects. *)

Lemma closedSet_plain (v : Verdict) : category v ∈ closedSet → plain v.
Proof.
  intros H. right. unfold closedSet in H. rewrite !elem_of_cons, elem_of_nil in H.
  repeat destruct H as [H | H]; try (rewrite H; reflexivity). destruct H.
Qed.

Lemma fromProbe_consistent (v : Verdict) :
  fromProbe v → consistent v ∧ category v ∈ closedSet.
Proof.
  intros (r & Hr & Hc & _ & Hv). unfold consistent. rewrite Hc, Hv.
  destruct Hr; simpl; (split; [split; congruence |]);
    unfold closedSet; rewrite !elem_of_cons; tauto.
Qed.

Lemma verifyEmail_consistent (net : Network) (address : string) (v : Verdict) :
  verifyEmail net address = Fulfilled v → consistent v ∧ category v ∈ closedSet.
Proof.
  intros H. destruct (verifyEmail_cases net address v H) as [-> | [-> | Hp]];
    [| |now apply fromProbe_consistent];
    unfold consistent; simpl; (split; [split; congruence |]);
    unfold closedSet; rewrite !elem_of_cons; tauto.
Qed.

(** Every verdict a batch over [verifyEmail] returns has [isValid] set
    exactly for [valid] and a category of the closed set. *)
Lemma liveRun_results (world : nat → Network) (order : nat → list nat)
    (progress stats : bool) (emails : list string)
    (results : list Verdict) (statistics : Stats.t) :
  returned (processBatch (liveRun world order progress stats) emails)
    = Fulfilled (results, statistics) →
  Forall consistent results ∧ Forall plain results.
Proof.
  intros Hret.
  destruct (processBatch_returned (liveRun world order progress stats) emails
              results statistics Hret) as (Hlen & Hat).
  assert (Hall : ∀ i v, results !! i = Some v → consistent v ∧ category v ∈ closedSet).
  { intros i v Hi.
    assert (Hlt : i < length emails) by (rewrite <- Hlen; now apply lookup_lt_Some in Hi).
    destruct (lookup_lt_is_Some_2 emails i Hlt) as [address Ha].
    destruct (Hat i address Ha) as (v' & Hv' & Hval).
    assert (v' = v) as -> by congruence. simpl in Hval.
    destruct (verifyEmail (world i) address) as [|w|reason] eqn:Hverify; simpl in Hval.
    - discriminate.
    - injection Hval as <-. now apply (verifyEmail_consistent (world i) address).
    - injection Hval as <-. unfold consistent. simpl.
      split; [split; congruence |]. unfold closedSet. rewrite !elem_of_cons. tauto. }
  split; apply Forall_lookup; intros i v Hi; destruct (Hall i v Hi) as [Hc Hin];
    [exact Hc | now apply closedSet_plain].
Qed.

(** * Further properties *)

(** ** isValidFormat: the shape of an accepted address *)

Lemma domainChar_localChar (c : ascii) :
  FormatRule.domainChar c = true → FormatRule.localChar c = true.
Proof. destruct c as [[] [] [] [] [] [] [] []]; vm_compute; congruence. Qed.

Lemma alphabetic_localChar (c : ascii) :
  FormatRule.alphabetic c = true → FormatRule.localChar c = true.
Proof. destruct c as [[] [] [] [] [] [] [] []]; vm_compute; congruence. Qed.

Lemma localPart_chars (loc : string) :
  FormatRule.localPart loc →
  FormatRule.allOf FormatRule.localChar loc = true ∧ 1 ≤ String.length loc.
Proof.
  intros (c & rest & -> & Hc & Hrest & _). simpl.
  rewrite (alphanumeric_localChar c Hc), Hrest. split; [reflexivity | lia].
Qed.

Lemma domainPart_chars (dom : string) :
  FormatRule.domainPart dom →
  FormatRule.allOf FormatRule.localChar dom = true ∧ 4 ≤ String.length dom.
Proof.
  intros (c & rest & tld & -> & Hc & Hrest & _ & Htld & Hlen). split.
  - rewrite !allOf_append. simpl.
    rewrite (alphanumeric_localChar c Hc).
    rewrite (allOf_impl _ _ rest domainChar_localChar Hrest).
    rewrite (allOf_impl _ _ tld alphabetic_localChar Htld). reflexivity.
  - rewrite !length_append. simpl. lia.
Qed.

(** X1.  An address that [isValidFormat] accepts has one [@] and no more, at
    least six characters, and no character but ASCII letters and digits
    and [. _ % + - @]: no white space, no control character and no
    character outside ASCII. *)
Theorem accepted_address_shape (address : string) :
  isValidFormat address = true →
  length (split "@" address) = 2 ∧
  6 ≤ String.length address ∧
  FormatRule.allOf addressChar address = true.
Proof.
  intros H. apply isValidFormat_accepts in H as (loc & dom & -> & Hloc & Hdom).
  destruct (localPart_chars loc Hloc) as [Hlc Hll].
  destruct (domainPart_chars dom Hdom) as [Hdc Hdl].
  assert (Hwiden : ∀ s, FormatRule.allOf FormatRule.localChar s = true →
                        FormatRule.allOf addressChar s = true).
  { intros s. apply allOf_impl. intros c Hc. unfold addressChar. now rewrite Hc. }
  split; [|split].
  - rewrite (split_first_at _ _ (localPart_noAt _ Hloc)).
    assert (Hnoat : FormatRule.noAt dom = true).
    { unfold FormatRule.noAt. revert Hdc. apply allOf_impl, localChar_not_at. }
    clear -Hnoat. unfold FormatRule.noAt in Hnoat.
    assert (Hsplit : split "@" dom = [dom]).
    { induction dom as [|c s IH]; [reflexivity |].
      simpl in Hnoat. apply andb_true_iff in Hnoat as [Hc Hs].
      apply negb_true_iff in Hc. simpl. rewrite Hc, (IH Hs). reflexivity. }
    now rewrite Hsplit.
  - rewrite !length_append. simpl. lia.
  - rewrite !allOf_append, (Hwiden _ Hlc), (Hwiden _ Hdc). reflexivity.
Qed.

Lemma accepted_address_shape_witness :
  length (split "@" "a@ex.com") = 2 ∧
  6 ≤ String.length "a@ex.com" ∧
  FormatRule.allOf addressChar "a@ex.com" = true.
Proof. apply (accepted_address_shape "a@ex.com"). vm_compute. reflexivity. Defined.

(** ** getMxRecords: the order of the hosts *)

Lemma insertByPriority_permutation (x : MxRecord) (l : list MxRecord) :
  insertByPriority x l ≡ₚ x :: l.
Proof.
  induction l as [|y l IH]; simpl; [reflexivity |].
  destruct (priority x <=? priority y)%Z; [reflexivity |].
  rewrite IH. apply perm_swap.
Qed.

Lemma insertByPriority_Forall (P : MxRecord → Prop) (x : MxRecord) (l : list MxRecord) :
  P x → Forall P l → Forall P (insertByPriority x l).
Proof.
  intros Hx Hl. rewrite insertByPriority_permutation. now constructor.
Qed.

Lemma insertByPriority_sorted (x : MxRecord) (l : list MxRecord) :
  StronglySorted byPriority l → StronglySorted byPriority (insertByPriority x l).
Proof.
  induction 1 as [|y l Hsorted IH Hall]; simpl.
  - repeat constructor.
  - destruct (priority x <=? priority y)%Z eqn:Hle.
    + apply Z.leb_le in Hle. constructor; [now constructor |].
      constructor; [exact Hle |].
      eapply Forall_impl; [exact Hall |]. unfold byPriority. intros z Hz. lia.
    + apply Z.leb_gt in Hle. constructor; [exact IH |].
      apply insertByPriority_Forall; [unfold byPriority; lia | exact Hall].
Qed.

Lemma insertByPriority_ofPriority (p : Z) (x : MxRecord) (l : list MxRecord) :
  ofPriority p (insertByPriority x l) = ofPriority p (x :: l).
Proof.
  unfold ofPriority. induction l as [|y l IH]; [reflexivity |].
  cbn [insertByPriority].
  destruct (priority x <=? priority y)%Z eqn:Hle; [reflexivity |].
  apply Z.leb_gt in Hle. cbn [List.filter] in *. rewrite IH.
  destruct (priority x =? p)%Z eqn:Hx; [|reflexivity].
  apply Z.eqb_eq in Hx.
  replace (priority y =? p)%Z with false by (symmetry; apply Z.eqb_neq; lia).
  reflexivity.
Qed.

Lemma sortByPriority_spec (l : list MxRecord) :
  sortByPriority l ≡ₚ l ∧ StronglySorted byPriority (sortByPriority l) ∧
  ∀ p, ofPriority p (sortByPriority l) = ofPriority p l.
Proof.
  unfold sortByPriority. induction l as [|x l (Hperm & Hsorted & Hstable)]; simpl.
  - repeat split; constructor.
  - split; [|split].
    + rewrite insertByPriority_permutation. now constructor.
    + now apply insertByPriority_sorted.
    + intros p. rewrite insertByPriority_ofPriority. unfold ofPriority in *.
      cbn [List.filter]. now rewrite Hstable.
Qed.

(** X2.  When the lookup succeeds, the hosts are the exchanges of the answer,
    each record once, by ascending priority, records of equal priority in
    the order of the answer. *)
Theorem getMxRecords_order (resolve : string → DnsReply) (name : string)
    (records : list MxRecord) :
  err (resolve name) = None → addresses (resolve name) = Some records →
  ∃ sorted,
    getMxRecords resolve (Some name) = Fulfilled (map exchange sorted) ∧
    sorted ≡ₚ records ∧ StronglySorted byPriority sorted ∧
    ∀ p, ofPriority p sorted = ofPriority p records.
Proof.
  intros Herr Hrecords. exists (sortByPriority records).
  split; [|apply sortByPriority_spec].
  unfold getMxRecords. rewrite Herr, Hrecords. now destruct records.
Qed.

Lemma getMxRecords_order_witness :
  ∃ sorted,
    getMxRecords (λ _, Example.twoHosts) (Some "ex.com"%string)
      = Fulfilled (map exchange sorted) ∧
    sorted ≡ₚ [mkMx "mx2.ex.com" 20; mkMx "mx1.ex.com" 10] ∧
    StronglySorted byPriority sorted ∧
    ∀ p, ofPriority p sorted = ofPriority p [mkMx "mx2.ex.com" 20; mkMx "mx1.ex.com" 10].
Proof.
  apply (getMxRecords_order (λ _, Example.twoHosts) "ex.com"
           [mkMx "mx2.ex.com" 20; mkMx "mx1.ex.com" 10]); reflexivity.
Defined.

(** ** verifyEmail: the verdict *)

Lemma fromProbe_message (v : Verdict) : fromProbe v → message v ≠ ""%string.
Proof.
  intros (r & Hr & _ & Hm & _). rewrite Hm.
  now destruct (built_wellFormed r Hr) as (_ & ? & _).
Qed.

Lemma verifyEmail_category (net : Network) (address : string) (v : Verdict) :
  verifyEmail net address = Fulfilled v →
  (isValid v = true ↔ category v = "valid"%string) ∧
  category v ∈ verifierCategories.
Proof.
  intros H.
  destruct (verifyEmail_cases net address v H) as [-> | [-> | Hp]].
  - simpl. split; [split; congruence |].
    unfold verifierCategories. rewrite !elem_of_cons. tauto.
  - simpl. split; [split; congruence |].
    unfold verifierCategories. rewrite !elem_of_cons. tauto.
  - destruct (fromProbe_consistent v Hp) as [Hcons _].
    split; [exact Hcons |].
    apply fromProbe_category in Hp. unfold Smtp.categories in Hp.
    unfold verifierCategories. rewrite !elem_of_cons.
    simpl in Hp. repeat destruct Hp as [<- | Hp]; try tauto.
Qed.

(** X3.  Every verdict of [verifyEmail] names the address it was asked for, has
    [isValid] set exactly when its category is [valid], a category among
    the nine the verifier can reach ([dns_error] is not one of them) and a
    message that is not empty. *)
Theorem verdict_shape (net : Network) (address : string) (v : Verdict) :
  verifyEmail net address = Fulfilled v →
  email v = address ∧
  (isValid v = true ↔ category v = "valid"%string) ∧
  category v ∈ verifierCategories ∧
  message v ≠ ""%string.
Proof.
  intros H. split; [now apply (verifyEmail_email net) |].
  destruct (verifyEmail_category net address v H) as [Hiff Hin].
  split; [exact Hiff | split; [exact Hin |]].
  destruct (verifyEmail_cases net address v H) as [-> | [-> | Hp]].
  - discriminate.
  - discriminate.
  - now apply fromProbe_message.
Qed.

Lemma verdict_shape_witness :
  ∃ v, verifyEmail Example.bothRefuse "a@ex.com" = Fulfilled v ∧
       email v = "a@ex.com"%string ∧
       (isValid v = true ↔ category v = "valid"%string) ∧
       category v ∈ verifierCategories ∧ message v ≠ ""%string.
Proof.
  eexists. split; [reflexivity |].
  apply (verdict_shape Example.bothRefuse "a@ex.com"). reflexivity.
Defined.

(** *** The hosts probed and the details of the verdict *)

Lemma afterLoop_details (result : Verdict) :
  details (afterLoop result) = details result ∧
  isValid (afterLoop result) = isValid result.
Proof. unfold afterLoop. now destruct (String.eqb _ _). Qed.

Lemma smtpLoop_details (net : Network) (address : string) (hosts : list string) :
  ∀ i result probed v,
    isValid result = false →
    smtpLoop net address i hosts result = (probed, Fulfilled v) →
    probed `prefix_of` hosts ∧
    mxRecords (details v) = mxRecords (details result) ∧
    (probed = [] → hosts = [] ∧ details v = details result) ∧
    (probed ≠ [] → smtpServer (details v) = last probed) ∧
    (isValid v = false → probed = hosts).
Proof.
  induction hosts as [|host rest IH]; intros i result probed v Hinvalid Hloop;
    simpl in Hloop.
  - injection Hloop as <- <-. destruct (afterLoop_details result) as [Hd Hv].
    rewrite Hd. repeat split; auto. congruence.
  - destruct (probe net address i host) as [|r|reason] eqn:Hprobe.
    + discriminate.
    + destruct (Smtp.isValid r).
      * injection Hloop as <- <-. simpl. repeat split; auto.
        -- now exists rest.
        -- discriminate.
        -- discriminate.
        -- discriminate.
      * destruct (smtpLoop net address (S i) rest _) as [probed' p'] eqn:Hrec.
        injection Hloop as <- ->.
        assert (Hinvalid' : isValid (setOutcome (isValid result)
                  (if String.eqb (Smtp.category r) "" then "smtp_error"
                   else Smtp.category r) (Smtp.message r) host result) = false)
          by exact Hinvalid.
        destruct (IH _ _ _ _ Hinvalid' Hrec) as (Hpre & Hmx & Hnil & Hlast & Hall).
        split; [now apply prefix_cons |]. split; [exact Hmx |].
        split; [discriminate |]. split.
        -- intros _. destruct probed' as [|h t].
           ++ destruct (Hnil eq_refl) as [_ ->]. reflexivity.
           ++ rewrite Hlast by discriminate. reflexivity.
        -- intros Hv. now rewrite (Hall Hv).
    + pose proof (checkSmtpServer_neverRejected (socketEvents net i host) host address) as Hn.
      unfold probe in Hprobe. rewrite Hprobe in Hn. destruct Hn.
Qed.

(** X4.  What a verdict says of the hosts.  Before any lookup, and when the
    lookup gives no host, nothing is probed and the details are empty.
    Otherwise [details.mxRecords] is the list of hosts, the hosts probed
    are the first ones of that list, one at least,
    [details.smtpServer] is the last host that was probed, and a verdict
    that is not valid is given only after every host of the list was
    probed. *)
Theorem verdict_details (net : Network) (address : string)
    (probed : list string) (v : Verdict) :
  verifyEmailTraced net address = (probed, Fulfilled v) →
  match mxRecords (details v) with
  | None => probed = [] ∧ smtpServer (details v) = None ∧
            (category v = "invalid_format"%string ∨ category v = "no_mx_records"%string)
  | Some hosts =>
      getMxRecords (resolveMx net) (domainOf address) = Fulfilled hosts ∧
      probed ≠ [] ∧ probed `prefix_of` hosts ∧
      smtpServer (details v) = last probed ∧
      (isValid v = false → probed = hosts)
  end.
Proof.
  unfold verifyEmailTraced.
  destruct (isValidFormat address) eqn:Hfmt; cbn [negb].
  - destruct (isValidFormat_domainOf address Hfmt) as (domain & ->).
    destruct (getMxRecords_fulfilled (resolveMx net) domain) as (hosts & -> & _).
    destruct hosts as [|host rest].
    + intros [= <- <-]. simpl. auto.
    + intros Hloop.
      apply smtpLoop_details in Hloop as (Hpre & Hmx & Hnil & Hlast & Hall);
        [|reflexivity].
      simpl in Hmx. rewrite Hmx.
      assert (Hne : probed ≠ []) by (intros ->; now destruct (Hnil eq_refl)).
      repeat split; auto.
  - intros [= <- <-]. simpl. auto.
Qed.

Lemma verdict_details_witness :
  ∃ v, verifyEmailTraced Example.firstRefuses "a@ex.com"
         = (["mx1.ex.com"; "mx2.ex.com"]%string, Fulfilled v) ∧
       mxRecords (details v) = Some ["mx1.ex.com"; "mx2.ex.com"]%string ∧
       smtpServer (details v) = Some "mx2.ex.com"%string.
Proof.
  eexists. split; [reflexivity |].
  pose proof (verdict_details Example.firstRefuses "a@ex.com"
                ["mx1.ex.com"; "mx2.ex.com"]%string _ eq_refl) as H.
  simpl in H. destruct H as (_ & _ & _ & Hlast & _).
  split; [reflexivity | exact Hlast].
Defined.

(** *** When the verifier does not return *)

Lemma smtpLoop_not_rejected (net : Network) (address : string) (hosts : list string) :
  ∀ i result reason, snd (smtpLoop net address i hosts result) ≠ Rejected reason.
Proof.
  induction hosts as [|host rest IH]; intros i result reason; cbn [smtpLoop].
  - discriminate.
  - destruct (probe net address i host) as [|r|why]; [discriminate | |].
    + destruct (Smtp.isValid r); [discriminate |].
      specialize (IH (S i) (setOutcome (isValid result)
          (if String.eqb (Smtp.category r) EmptyString
           then "smtp_error"%string else Smtp.category r)
          (Smtp.message r) host result) reason).
      now destruct (smtpLoop _ _ (S i) rest _).
    + specialize (IH (S i) result reason).
      now destruct (smtpLoop _ _ (S i) rest _).
Qed.

Lemma verifyEmail_not_rejected (net : Network) (address reason : string) :
  verifyEmail net address ≠ Rejected reason.
Proof.
  unfold verifyEmail, verifyEmailTraced.
  destruct (negb (isValidFormat address)); [discriminate |].
  destruct (getMxRecords _ _) as [|[|host hosts]|]; try discriminate.
  apply smtpLoop_not_rejected.
Qed.

Lemma smtpLoop_pending (net : Network) (address : string) (hosts : list string) :
  ∀ i result probed,
    smtpLoop net address i hosts result = (probed, Pending) →
    probed `prefix_of` hosts ∧
    ∃ host, last probed = Some host ∧
            probe net address (i + length probed - 1) host = Pending.
Proof.
  induction hosts as [|host rest IH]; intros i result probed Hloop; cbn [smtpLoop] in Hloop.
  - discriminate.
  - destruct (probe net address i host) as [|r|why] eqn:Hprobe.
    + injection Hloop as <-. split; [now exists rest |].
      exists host. split; [reflexivity |].
      cbn [length]. now replace (i + 1 - 1) with i by lia.
    + destruct (Smtp.isValid r); [discriminate |].
      destruct (smtpLoop net address (S i) rest _) as [probed' p'] eqn:Hrec.
      injection Hloop as <- ->.
      destruct (IH _ _ _ Hrec) as (Hpre & h & Hlast & Hpending).
      split; [now apply prefix_cons |]. exists h.
      destruct probed' as [|x probed']; [discriminate |]. split; [exact Hlast |].
      cbn [length] in *. now replace (i + S (S (length probed')) - 1)
        with (S i + S (length probed') - 1) by lia.
    + destruct (smtpLoop net address (S i) rest _) as [probed' p'] eqn:Hrec.
      injection Hloop as <- ->.
      destruct (IH _ _ _ Hrec) as (Hpre & h & Hlast & Hpending).
      split; [now apply prefix_cons |]. exists h.
      destruct probed' as [|x probed']; [discriminate |]. split; [exact Hlast |].
      cbn [length] in *. now replace (i + S (S (length probed')) - 1)
        with (S i + S (length probed') - 1) by lia.
Qed.

(** X5.  [verifyEmail] is never rejected, and it has no timer of its own: it
    fails to return only when the address is well formed, the lookup gave
    hosts, and the probe of the last host it tried stays pending; the hosts
    after that one are not tried. *)
Theorem verifyEmail_waits_for_its_probe (net : Network) (address : string) :
  (∀ reason, verifyEmail net address ≠ Rejected reason) ∧
  ∀ probed,
    verifyEmailTraced net address = (probed, Pending) →
    isValidFormat address = true ∧
    ∃ hosts host,
      getMxRecords (resolveMx net) (domainOf address) = Fulfilled hosts ∧
      probed `prefix_of` hosts ∧ last probed = Some host ∧
      probe net address (length probed - 1) host = Pending.
Proof.
  split; [intros reason; apply verifyEmail_not_rejected |].
  unfold verifyEmailTraced. intros probed H.
  destruct (isValidFormat address) eqn:Hfmt; cbn [negb] in H; [|discriminate].
  split; [reflexivity |].
  destruct (isValidFormat_domainOf address Hfmt) as (domain & Hd). rewrite Hd in *.
  destruct (getMxRecords_fulfilled (resolveMx net) domain) as (hosts & Hmx & _).
  rewrite Hmx in *. destruct hosts as [|host rest]; [discriminate |].
  apply smtpLoop_pending in H as (Hpre & h & Hlast & Hpending).
  exists (host :: rest), h. auto.
Qed.

Lemma verifyEmail_waits_for_its_probe_witness :
  isValidFormat "a@ex.com" = true ∧
  ∃ hosts host,
    getMxRecords (resolveMx Example.closingHost) (domainOf "a@ex.com") = Fulfilled hosts ∧
    ["mx.ex.com"%string] `prefix_of` hosts ∧ last ["mx.ex.com"%string] = Some host ∧
    probe Example.closingHost "a@ex.com" 0 host = Pending.
Proof.
  apply (proj2 (verifyEmail_waits_for_its_probe Example.closingHost "a@ex.com")
           ["mx.ex.com"%string]).
  reflexivity.
Defined.

(** ** checkSmtpServer: settlement *)

Lemma run_runFrom (email : string) (events : list Smtp.Event) :
  Smtp.run email events = runFrom email Smtp.start events.
Proof. reflexivity. Qed.

Lemma runFrom_app (email : string) (p : Smtp.Probe) (a b : list Smtp.Event) :
  runFrom email p (a ++ b) = runFrom email (runFrom email p a) b.
Proof. unfold runFrom. apply fold_left_app. Qed.

Lemma resolve_fulfilled (r r' : Smtp.Result) (p : Smtp.Probe) :
  Smtp.settled p = Fulfilled r → Smtp.settled (Smtp.resolve r' p) = Fulfilled r.
Proof. intros H. unfold Smtp.resolve. simpl. now rewrite H. Qed.

Lemma processLines_fulfilled (email : string) (r : Smtp.Result) (lines : list string) :
  ∀ p, Smtp.settled p = Fulfilled r →
       Smtp.settled (Smtp.processLines email lines p) = Fulfilled r.
Proof.
  induction lines as [|line lines IH]; intros p Hp; simpl; [exact Hp |].
  destruct (Smtp.handleLine email line); [now apply IH | | now apply IH].
  now apply resolve_fulfilled.
Qed.

Lemma step_fulfilled (email : string) (r : Smtp.Result) (p : Smtp.Probe) (e : Smtp.Event) :
  Smtp.settled p = Fulfilled r → Smtp.settled (Smtp.step email p e) = Fulfilled r.
Proof.
  intros Hp. destruct e; simpl.
  - exact Hp.
  - unfold Smtp.onData. now apply processLines_fulfilled.
  - now apply resolve_fulfilled.
  - exact Hp.
  - unfold Smtp.onTimeout. destruct (Smtp.timerArmed p); [|exact Hp].
    now apply resolve_fulfilled.
Qed.

Lemma runFrom_fulfilled (email : string) (r : Smtp.Result) (events : list Smtp.Event) :
  ∀ p, Smtp.settled p = Fulfilled r →
       Smtp.settled (runFrom email p events) = Fulfilled r.
Proof.
  induction events as [|e events IH]; intros p Hp; simpl; [exact Hp |].
  now apply IH, step_fulfilled.
Qed.

(** X6.  The first resolution of a probe is its only one: whatever the socket
    or the timer delivers afterwards, the promise keeps the result it was
    first fulfilled with. *)
Theorem first_resolution_is_final (email mxHost : string)
    (before after : list Smtp.Event) (r : Smtp.Result) :
  Smtp.settled (Smtp.run email before) = Fulfilled r →
  Smtp.checkSmtpServer (before ++ after) mxHost email = Fulfilled r.
Proof.
  intros H. unfold Smtp.checkSmtpServer. rewrite run_runFrom, runFrom_app.
  rewrite <- run_runFrom.
  pose proof (runFrom_fulfilled email r after _ H) as Hrun.
  unfold Smtp.onTimeout. destruct (Smtp.timerArmed _); [|exact Hrun].
  now apply resolve_fulfilled.
Qed.

Lemma first_resolution_is_final_witness :
  Smtp.checkSmtpServer
    ([Smtp.Connect; Smtp.Data ("550 5.1.1 User unknown" +:+ CRLF)]
     ++ [Smtp.Data ("250 RCPT ok" +:+ CRLF); Smtp.Error "read ECONNRESET"; Smtp.Timeout])
    "mx.ex.com" "a@ex.com"
  = Fulfilled (Smtp.mkResult false "Email не существует" "not_existing").
Proof.
  apply (first_resolution_is_final "a@ex.com" "mx.ex.com"
           [Smtp.Connect; Smtp.Data ("550 5.1.1 User unknown" +:+ CRLF)]).
  reflexivity.
Defined.

(** *** The timer and QUIT *)

Lemma written_socketWrite (text : string) (p : Smtp.Probe) :
  Smtp.written (Smtp.socketWrite text p) = Smtp.written p ++ [text].
Proof. reflexivity. Qed.

Lemma cleanup_cleanedUp (p : Smtp.Probe) :
  Smtp.timerArmed (Smtp.cleanup p) = false ∧ quitCommand ∈ Smtp.written (Smtp.cleanup p).
Proof.
  split; [reflexivity |]. unfold Smtp.cleanup. rewrite written_socketWrite.
  apply elem_of_app. right. apply list_elem_of_here.
Qed.

Lemma resolve_cleanup_cleanedUp (r : Smtp.Result) (p : Smtp.Probe) :
  cleanedUp (Smtp.resolve r (Smtp.cleanup p)).
Proof. right. exact (cleanup_cleanedUp p). Qed.

Lemma socketWrite_cleanedUp (text : string) (p : Smtp.Probe) :
  cleanedUp p → cleanedUp (Smtp.socketWrite text p).
Proof.
  intros [H | [Ht Hq]]; [now left | right].
  split; [exact Ht |]. rewrite written_socketWrite. apply elem_of_app. now left.
Qed.

Lemma processLines_cleanedUp (email : string) (lines : list string) :
  ∀ p, cleanedUp p → cleanedUp (Smtp.processLines email lines p).
Proof.
  induction lines as [|line lines IH]; intros p Hp; simpl; [exact Hp |].
  destruct (Smtp.handleLine email line).
  - apply IH. now apply socketWrite_cleanedUp.
  - apply resolve_cleanup_cleanedUp.
  - now apply IH.
Qed.

Lemma step_cleanedUp (email : string) (p : Smtp.Probe) (e : Smtp.Event) :
  cleanedUp p → cleanedUp (Smtp.step email p e).
Proof.
  intros Hp. destruct e; simpl.
  - exact Hp.
  - unfold Smtp.onData. apply processLines_cleanedUp. exact Hp.
  - apply resolve_cleanup_cleanedUp.
  - right. apply cleanup_cleanedUp.
  - unfold Smtp.onTimeout. destruct (Smtp.timerArmed p); [|exact Hp].
    apply resolve_cleanup_cleanedUp.
Qed.

Lemma runFrom_cleanedUp (email : string) (events : list Smtp.Event) :
  ∀ p, cleanedUp p → cleanedUp (runFrom email p events).
Proof.
  induction events as [|e events IH]; intros p Hp; simpl; [exact Hp |].
  apply IH, step_cleanedUp, Hp.
Qed.

(** X7.  Every resolution goes through [cleanup]: at any moment of a probe, a
    promise that is fulfilled has its timer cleared and [QUIT] among the
    texts written to the socket. *)
Theorem fulfilled_after_cleanup (email : string) (events : list Smtp.Event)
    (r : Smtp.Result) :
  Smtp.settled (Smtp.run email events) = Fulfilled r →
  Smtp.timerArmed (Smtp.run email events) = false ∧
  quitCommand ∈ Smtp.written (Smtp.run email events).
Proof.
  intros H. rewrite run_runFrom in *.
  destruct (runFrom_cleanedUp email events Smtp.start) as [Hp | Hc].
  - now left.
  - congruence.
  - exact Hc.
Qed.

Lemma fulfilled_after_cleanup_witness :
  Smtp.timerArmed (Smtp.run "a@ex.com" Example.accepting) = false ∧
  quitCommand ∈ Smtp.written (Smtp.run "a@ex.com" Example.accepting).
Proof.
  apply (fulfilled_after_cleanup "a@ex.com" Example.accepting
           (Smtp.mkResult true "Email существует" "valid")).
  reflexivity.
Defined.

(** *** Settling *)

Lemma processLines_armedOrSettled (email : string) (lines : list string) :
  ∀ p, armedOrSettled p → armedOrSettled (Smtp.processLines email lines p).
Proof.
  induction lines as [|line lines IH]; intros p Hp; simpl; [exact Hp |].
  destruct (Smtp.handleLine email line).
  - apply IH. exact Hp.
  - right. unfold Smtp.resolve. simpl. destruct (Smtp.settled p); discriminate.
  - now apply IH.
Qed.

Lemma resolve_settles (r : Smtp.Result) (p : Smtp.Probe) :
  Smtp.settled (Smtp.resolve r p) ≠ Pending.
Proof. unfold Smtp.resolve. simpl. destruct (Smtp.settled p); discriminate. Qed.

Lemma step_armedOrSettled (email : string) (p : Smtp.Probe) (e : Smtp.Event) :
  armedOrSettled p → (e = Smtp.End → Smtp.settled p ≠ Pending) →
  armedOrSettled (Smtp.step email p e).
Proof.
  intros Hp Hend. destruct e; simpl.
  - exact Hp.
  - unfold Smtp.onData. apply processLines_armedOrSettled. exact Hp.
  - right. apply resolve_settles.
  - right. exact (Hend eq_refl).
  - unfold Smtp.onTimeout. destruct (Smtp.timerArmed p) eqn:Ht.
    + right. apply resolve_settles.
    + destruct Hp as [Hp | Hp]; [congruence | now right].
Qed.

Lemma runFrom_armedOrSettled (email : string) (events : list Smtp.Event) :
  ∀ p, armedOrSettled p →
    (∀ before after, events = before ++ Smtp.End :: after →
       Smtp.settled (runFrom email p before) ≠ Pending) →
    armedOrSettled (runFrom email p events).
Proof.
  induction events as [|e events IH]; intros p Hp Hend; simpl; [exact Hp |].
  apply IH.
  - apply step_armedOrSettled; [exact Hp |].
    intros ->. exact (Hend [] events eq_refl).
  - intros before after ->. exact (Hend (e :: before) after eq_refl).
Qed.

(** X8.  The timer settles every probe that the ['end'] handler has not
    disarmed: when no ['end'] event arrives while the promise is pending
    (in particular when none arrives at all), the promise is fulfilled. *)
Theorem settles_unless_end_while_pending (email mxHost : string)
    (events : list Smtp.Event) :
  (∀ before after, events = before ++ Smtp.End :: after →
     Smtp.settled (Smtp.run email before) ≠ Pending) →
  ∃ r, Smtp.checkSmtpServer events mxHost email = Fulfilled r ∧ Smtp.wellFormed r.
Proof.
  intros Hend.
  pose proof (checkSmtpServer_neverRejected events mxHost email) as Hnever.
  assert (Hsettled : Smtp.checkSmtpServer events mxHost email ≠ Pending).
  { unfold Smtp.checkSmtpServer, Smtp.onTimeout.
    destruct (runFrom_armedOrSettled email events Smtp.start) as [Ht | Hs].
    - now left.
    - exact Hend.
    - rewrite run_runFrom, Ht. apply resolve_settles.
    - rewrite run_runFrom. destruct (Smtp.timerArmed _); [apply resolve_settles | exact Hs]. }
  destruct (Smtp.checkSmtpServer events mxHost email) as [|r|reason];
    [congruence | | destruct Hnever].
  exists r. split; [reflexivity | now apply built_wellFormed].
Qed.

Lemma settles_unless_end_while_pending_witness :
  ∃ r, Smtp.checkSmtpServer
         [Smtp.Connect; Example.greeting;
          Smtp.Data ("550 5.1.1 User unknown" +:+ CRLF); Smtp.End]
         "mx.ex.com" "a@ex.com" = Fulfilled r ∧ Smtp.wellFormed r.
Proof.
  apply settles_unless_end_while_pending.
  intros before after Heq. unfold Example.greeting in Heq.
  destruct before as [|e1 [|e2 [|e3 [|e4 before]]]]; simpl in Heq;
    try discriminate Heq.
  - injection Heq as <- <- <- _. discriminate.
  - injection Heq as _ _ _ _ Heq. destruct before; discriminate Heq.
Defined.

(** *** An error, and the end of the connection *)

(** X9.  A socket error that reaches a pending probe settles it: the answer is
    [connection_error] with the text of the error in the message, whatever
    the socket or the timer delivers afterwards. *)
Theorem error_while_pending_is_connection_error (email mxHost errorMessage : string)
    (before after : list Smtp.Event) :
  Smtp.settled (Smtp.run email before) = Pending →
  Smtp.checkSmtpServer (before ++ Smtp.Error errorMessage :: after) mxHost email
    = Fulfilled (Smtp.mkResult false ("Ошибка подключения: " +:+ errorMessage)
                   "connection_error").
Proof.
  intros Hp. unfold Smtp.checkSmtpServer.
  rewrite run_runFrom, runFrom_app. rewrite <- run_runFrom.
  change (runFrom email (Smtp.run email before) (Smtp.Error errorMessage :: after))
    with (runFrom email (Smtp.step email (Smtp.run email before) (Smtp.Error errorMessage))
            after).
  set (r := Smtp.mkResult false ("Ошибка подключения: " +:+ errorMessage) "connection_error").
  assert (Hstep : Smtp.settled (Smtp.step email (Smtp.run email before)
                                  (Smtp.Error errorMessage)) = Fulfilled r).
  { cbn [Smtp.step]. unfold Smtp.resolve, Smtp.cleanup, Smtp.socketWrite.
    cbn [Smtp.settled]. now rewrite Hp. }
  pose proof (runFrom_fulfilled email r after _ Hstep) as Hrun.
  unfold Smtp.onTimeout. destruct (Smtp.timerArmed _); [|exact Hrun].
  now apply resolve_fulfilled.
Qed.

Lemma error_while_pending_is_connection_error_witness :
  Smtp.checkSmtpServer
    ([Smtp.Connect; Example.greeting]
     ++ Smtp.Error "read ECONNRESET" :: [Smtp.End; Smtp.Timeout])
    "mx.ex.com" "a@ex.com"
  = Fulfilled (Smtp.mkResult false "Ошибка подключения: read ECONNRESET" "connection_error").
Proof.
  apply (error_while_pending_is_connection_error "a@ex.com" "mx.ex.com" "read ECONNRESET"
           [Smtp.Connect; Example.greeting]).
  reflexivity.
Defined.

Lemma step_disarmed (email : string) (p : Smtp.Probe) (e : Smtp.Event) :
  quietEvent e = true →
  Smtp.timerArmed p = false → Smtp.settled p = Pending →
  Smtp.timerArmed (Smtp.step email p e) = false ∧
  Smtp.settled (Smtp.step email p e) = Pending.
Proof.
  intros He Ht Hs. destruct e; try discriminate He; cbn [Smtp.step].
  - auto.
  - auto.
  - unfold Smtp.onTimeout. rewrite Ht. auto.
Qed.

(** X10.  The ['end'] handler clears the timer and resolves nothing.  When the
    server ends the connection while the probe is pending, the timer can no
    longer settle it: unless data or an error still arrives, the promise
    stays pending for ever. *)
Theorem end_while_pending_disarms_the_timer (email mxHost : string)
    (before after : list Smtp.Event) :
  Smtp.settled (Smtp.run email before) = Pending →
  forallb quietEvent after = true →
  Smtp.checkSmtpServer (before ++ Smtp.End :: after) mxHost email = Pending.
Proof.
  intros Hp Hafter. unfold Smtp.checkSmtpServer.
  rewrite run_runFrom, runFrom_app. rewrite <- run_runFrom.
  change (runFrom email (Smtp.run email before) (Smtp.End :: after))
    with (runFrom email (Smtp.cleanup (Smtp.run email before)) after).
  assert (H : ∀ p, Smtp.timerArmed p = false → Smtp.settled p = Pending →
              Smtp.timerArmed (runFrom email p after) = false ∧
              Smtp.settled (runFrom email p after) = Pending).
  { unfold runFrom. induction after as [|e after IH]; intros p Ht Hs; cbn [fold_left];
      [auto |].
    cbn [forallb] in Hafter. apply andb_true_iff in Hafter as [He Hafter].
    destruct (step_disarmed email p e He Ht Hs) as [Ht' Hs'].
    now apply IH. }
  destruct (H (Smtp.cleanup (Smtp.run email before)) eq_refl Hp) as [Ht Hs].
  unfold Smtp.onTimeout. now rewrite Ht.
Qed.

Lemma end_while_pending_disarms_the_timer_witness :
  Smtp.checkSmtpServer
    ([Smtp.Connect; Example.greeting] ++ Smtp.End :: [Smtp.Timeout])
    "mx.ex.com" "a@ex.com" = Pending.
Proof.
  apply (end_while_pending_disarms_the_timer "a@ex.com" "mx.ex.com"
           [Smtp.Connect; Example.greeting] [Smtp.Timeout]); reflexivity.
Defined.

(** ** checkSmtpServer: lines and ['data'] events *)

Lemma splitCRLF_crlf (s : string) :
  splitCRLF (String CR (String LF s)) = EmptyString :: splitCRLF s.
Proof. reflexivity. Qed.

Lemma splitCRLF_other (c : ascii) (s : string) :
  Ascii.eqb c CR && startsWithLF s = false →
  splitCRLF (String c s) = consHead c (splitCRLF s).
Proof.
  intros H. destruct s as [|c' s]; [reflexivity |].
  cbn [splitCRLF]. simpl in H. now rewrite H.
Qed.

Lemma splitCRLF_is_crlf (c : ascii) (s : string) :
  Ascii.eqb c CR && startsWithLF s = true →
  ∃ s', c = CR ∧ s = String LF s'.
Proof.
  intros H. apply andb_true_iff in H as [Hc Hs].
  destruct s as [|c' s]; [discriminate |]. simpl in Hs.
  apply Ascii.eqb_eq in Hc, Hs. subst. eauto.
Qed.

Lemma splitCRLF_nonempty (s : string) : splitCRLF s ≠ [].
Proof.
  assert (H : ∀ n s, String.length s ≤ n → splitCRLF s ≠ []).
  { clear s. induction n as [|n IH]; intros s Hlen.
    - destruct s; [discriminate | simpl in Hlen; lia].
    - destruct s as [|c s]; [discriminate |].
      destruct (Ascii.eqb c CR && startsWithLF s) eqn:Hc.
      + destruct (splitCRLF_is_crlf c s Hc) as (s' & -> & ->). discriminate.
      + rewrite (splitCRLF_other c s Hc).
        destruct (splitCRLF s); discriminate. }
  exact (H (String.length s) s (le_n _)).
Qed.

Lemma completeLines_cons (piece : string) (s : string) :
  take (length (piece :: splitCRLF s) - 1) (piece :: splitCRLF s)
  = piece :: completeLines s.
Proof.
  unfold completeLines. pose proof (splitCRLF_nonempty s) as Hne.
  destruct (splitCRLF s) as [|h t]; [congruence |]. simpl.
  now rewrite Nat.sub_0_r.
Qed.

Lemma completeLines_consHead (c : ascii) (s : string) :
  take (length (consHead c (splitCRLF s)) - 1) (consHead c (splitCRLF s))
  = mapHead c (completeLines s).
Proof.
  unfold completeLines. pose proof (splitCRLF_nonempty s) as Hne.
  destruct (splitCRLF s) as [|h [|h' t]]; [congruence | reflexivity |].
  simpl. reflexivity.
Qed.

Lemma completeLines_crlf (s : string) :
  completeLines (String CR (String LF s)) = EmptyString :: completeLines s.
Proof. unfold completeLines at 1. rewrite splitCRLF_crlf. apply completeLines_cons. Qed.

Lemma completeLines_other (c : ascii) (s : string) :
  Ascii.eqb c CR && startsWithLF s = false →
  completeLines (String c s) = mapHead c (completeLines s).
Proof.
  intros H. unfold completeLines at 1. rewrite (splitCRLF_other c s H).
  apply completeLines_consHead.
Qed.

Lemma startsWithLF_append (a b : string) :
  a ≠ EmptyString → startsWithLF (a +:+ b) = startsWithLF a.
Proof. destruct a; [congruence | reflexivity]. Qed.

Lemma mapHead_prefix (c : ascii) (l k : list string) :
  l `prefix_of` k → mapHead c l `prefix_of` mapHead c k.
Proof.
  intros [m ->]. destruct l as [|h t]; [apply prefix_nil |].
  simpl. now exists m.
Qed.

(** The lines that are complete stay the same when more text arrives. *)
Lemma completeLines_append (a b : string) :
  completeLines a `prefix_of` completeLines (a +:+ b).
Proof.
  assert (H : ∀ n a, String.length a ≤ n →
              completeLines a `prefix_of` completeLines (a +:+ b)).
  { clear a. induction n as [|n IH]; intros a Hlen.
    - destruct a; [apply prefix_nil | simpl in Hlen; lia].
    - destruct a as [|c a]; [apply prefix_nil |].
      simpl in Hlen. rewrite append_cons.
      destruct (Ascii.eqb c CR && startsWithLF a) eqn:Hc.
      + destruct (splitCRLF_is_crlf c a Hc) as (a' & -> & ->).
        rewrite append_cons, !completeLines_crlf.
        apply prefix_cons, IH. simpl in Hlen. lia.
      + rewrite (completeLines_other c a Hc).
        destruct a as [|c' a].
        * apply prefix_nil.
        * rewrite (completeLines_other c (String c' a +:+ b)).
          -- apply mapHead_prefix, IH. simpl in *. lia.
          -- now rewrite startsWithLF_append by discriminate. }
  exact (H (String.length a) a (le_n _)).
Qed.

Lemma firstResolution_app (email : string) (l k : list string) :
  firstResolution email (l ++ k) =
    match firstResolution email l with
    | Some r => Some r
    | None => firstResolution email k
    end.
Proof.
  induction l as [|line l IH]; simpl; [reflexivity |].
  destruct (Smtp.handleLine email line); auto.
Qed.

(** What the loop over the lines does to the promise and to the timer. *)
Lemma processLines_effect (email : string) (lines : list string) : ∀ p,
  Smtp.responseBuffer (Smtp.processLines email lines p) = Smtp.responseBuffer p ∧
  Smtp.settled (Smtp.processLines email lines p) =
    match firstResolution email lines with
    | Some r => resolveWith r (Smtp.settled p)
    | None => Smtp.settled p
    end ∧
  Smtp.timerArmed (Smtp.processLines email lines p) =
    match firstResolution email lines with
    | Some _ => false
    | None => Smtp.timerArmed p
    end.
Proof.
  induction lines as [|line lines IH]; intros p; simpl; [auto |].
  destruct (Smtp.handleLine email line).
  - exact (IH (Smtp.socketWrite command p)).
  - unfold resolveWith, Smtp.resolve, Smtp.cleanup, Smtp.socketWrite. simpl.
    destruct (Smtp.settled p); repeat split; reflexivity.
  - apply IH.
Qed.

Lemma onData_effect (email chunk : string) (p : Smtp.Probe) :
  Smtp.responseBuffer (Smtp.onData email chunk p) = Smtp.responseBuffer p +:+ chunk ∧
  Smtp.settled (Smtp.onData email chunk p) =
    match firstResolution email (completeLines (Smtp.responseBuffer p +:+ chunk)) with
    | Some r => resolveWith r (Smtp.settled p)
    | None => Smtp.settled p
    end ∧
  Smtp.timerArmed (Smtp.onData email chunk p) =
    match firstResolution email (completeLines (Smtp.responseBuffer p +:+ chunk)) with
    | Some _ => false
    | None => Smtp.timerArmed p
    end.
Proof.
  unfold Smtp.onData. fold (completeLines (Smtp.responseBuffer p +:+ chunk)).
  apply (processLines_effect email _
           {| Smtp.responseBuffer := Smtp.responseBuffer p +:+ chunk;
              Smtp.timerArmed := Smtp.timerArmed p;
              Smtp.written := Smtp.written p; Smtp.settled := Smtp.settled p |}).
Qed.

Lemma resolveWith_idem (r : Smtp.Result) (P : Promise Smtp.Result) :
  resolveWith r (resolveWith r P) = resolveWith r P.
Proof. now destruct P. Qed.

Lemma settled_resolve (r : Smtp.Result) (p : Smtp.Probe) :
  Smtp.settled (Smtp.resolve r p) = resolveWith r (Smtp.settled p).
Proof. unfold Smtp.resolve, resolveWith. simpl. now destruct (Smtp.settled p). Qed.

(** The handlers read the buffer, the timer and the promise, never the log
    of writes. *)
Lemma step_sameButWrites (email : string) (p q : Smtp.Probe) (e : Smtp.Event) :
  sameButWrites p q → sameButWrites (Smtp.step email p e) (Smtp.step email q e).
Proof.
  intros (Hb & Ht & Hs). destruct e as [|chunk|errorMessage| |]; simpl.
  - unfold sameButWrites. simpl. repeat split; assumption.
  - destruct (onData_effect email chunk p) as (Hb1 & Hs1 & Ht1).
    destruct (onData_effect email chunk q) as (Hb2 & Hs2 & Ht2).
    unfold sameButWrites. rewrite Hb1, Hb2, Hs1, Hs2, Ht1, Ht2, Hb, Hs, Ht.
    repeat split; reflexivity.
  - unfold sameButWrites. rewrite !settled_resolve. simpl. rewrite Hb, Hs.
    repeat split; reflexivity.
  - unfold sameButWrites. simpl. repeat split; assumption.
  - unfold Smtp.onTimeout. rewrite Ht. destruct (Smtp.timerArmed q) eqn:Hq.
    + unfold sameButWrites. rewrite !settled_resolve. simpl. rewrite Hb, Hs.
      repeat split; reflexivity.
    + unfold sameButWrites. repeat split; congruence.
Qed.

Lemma runFrom_sameButWrites (email : string) (events : list Smtp.Event) :
  ∀ p q, sameButWrites p q →
         sameButWrites (runFrom email p events) (runFrom email q events).
Proof.
  induction events as [|e events IH]; intros p q H; simpl; [exact H |].
  apply IH, step_sameButWrites, H.
Qed.

(** Two texts one after the other, or one text made of both: the same
    buffer, promise and timer. *)
Lemma onData_twice (email a b : string) (p : Smtp.Probe) :
  sameButWrites (Smtp.onData email b (Smtp.onData email a p))
                (Smtp.onData email (a +:+ b) p).
Proof.
  destruct (onData_effect email a p) as (Hb1 & Hs1 & Ht1).
  destruct (onData_effect email b (Smtp.onData email a p)) as (Hb2 & Hs2 & Ht2).
  destruct (onData_effect email (a +:+ b) p) as (Hb3 & Hs3 & Ht3).
  unfold sameButWrites. rewrite Hb2, Hs2, Ht2, Hb3, Hs3, Ht3, Hb1, Hs1, Ht1.
  rewrite append_assoc.
  destruct (completeLines_append (Smtp.responseBuffer p +:+ a) b) as [k Hk].
  rewrite append_assoc in Hk. rewrite Hk, firstResolution_app.
  destruct (firstResolution email (completeLines (Smtp.responseBuffer p +:+ a)))
    as [r|]; [|repeat split; reflexivity].
  rewrite resolveWith_idem. repeat split; reflexivity.
Qed.

(** X11.  Two ['data'] events in a row, [data.toString()] being [a] for the
    first and [b] for the second, settle the probe as a single event for
    which [data.toString()] is [a] followed by [b]: a reply that arrives
    in two pieces is handled as if it had arrived whole.  (The statement
    is about the decoded texts.  Bytes cut inside a multi-byte character
    decode to U+FFFD on either side of the cut, so the two events then
    carry other texts than [a] and [b], and the same holds of them.) *)
Theorem two_data_events_as_one (email mxHost a b : string)
    (before after : list Smtp.Event) :
  Smtp.checkSmtpServer (before ++ Smtp.Data a :: Smtp.Data b :: after) mxHost email
  = Smtp.checkSmtpServer (before ++ Smtp.Data (a +:+ b) :: after) mxHost email.
Proof.
  unfold Smtp.checkSmtpServer. rewrite !run_runFrom, !runFrom_app.
  set (p := runFrom email Smtp.start before).
  assert (H : sameButWrites
                (runFrom email p (Smtp.Data a :: Smtp.Data b :: after))
                (runFrom email p (Smtp.Data (a +:+ b) :: after))).
  { cbn [runFrom fold_left Smtp.step].
    apply (runFrom_sameButWrites email after), onData_twice. }
  destruct H as (Hb & Ht & Hs). unfold Smtp.onTimeout. rewrite Ht.
  destruct (Smtp.timerArmed (runFrom email p (Smtp.Data (a +:+ b) :: after)));
    [|exact Hs].
  rewrite !settled_resolve. unfold Smtp.cleanup, Smtp.socketWrite.
  cbn [Smtp.settled]. now rewrite Hs.
Qed.

(** *** Lines *)

Lemma includes_cons_false (sub : string) (c : ascii) (s : string) :
  includes sub (String c s) = false →
  String.prefix sub (String c s) = false ∧ includes sub s = false.
Proof. simpl. intros H. now apply orb_false_iff in H. Qed.

Lemma prefix_CRLF (s : string) : String.prefix CRLF (String CR (String LF s)) = true.
Proof. destruct s; reflexivity. Qed.

Lemma splitCRLF_fragment (fragment : string) :
  includes CRLF fragment = false → splitCRLF fragment = [fragment].
Proof.
  induction fragment as [|c s IH]; intros H; [reflexivity |].
  apply includes_cons_false in H as [Hp Hs].
  rewrite splitCRLF_other.
  - now rewrite (IH Hs).
  - destruct (Ascii.eqb c CR && startsWithLF s) eqn:Hc; [|reflexivity].
    destruct (splitCRLF_is_crlf c s Hc) as (s' & -> & ->).
    rewrite prefix_CRLF in Hp. discriminate.
Qed.

Lemma splitCRLF_line (line rest : string) :
  includes CRLF line = false →
  splitCRLF (line +:+ CRLF +:+ rest) = line :: splitCRLF rest.
Proof.
  induction line as [|c s IH]; intros H; [reflexivity |].
  apply includes_cons_false in H as [Hp Hs].
  rewrite append_cons, splitCRLF_other.
  - now rewrite (IH Hs).
  - destruct s as [|c' s]; [now rewrite andb_false_r |].
    destruct (Ascii.eqb c CR && startsWithLF (String c' s +:+ CRLF +:+ rest)) eqn:Hc;
      [|reflexivity].
    destruct (splitCRLF_is_crlf _ _ Hc) as (s' & -> & Heq).
    rewrite append_cons in Heq. injection Heq as -> _.
    rewrite prefix_CRLF in Hp. discriminate.
Qed.

(** X12.  A reply made of lines that each end with CRLF, followed by the start
    of a further line, is split into exactly those lines and that fragment,
    provided no line and not the fragment has a CRLF inside: the handler
    processes the lines and keeps the fragment for later. *)
Theorem lines_are_split_back (lines : list string) (fragment : string) :
  Forall (λ line, includes CRLF line = false) lines →
  includes CRLF fragment = false →
  splitCRLF (joinLines lines +:+ fragment) = lines ++ [fragment] ∧
  completeLines (joinLines lines +:+ fragment) = lines.
Proof.
  intros Hlines Hfragment.
  assert (Hsplit : splitCRLF (joinLines lines +:+ fragment) = lines ++ [fragment]).
  { induction Hlines as [|line lines Hline _ IH]; simpl.
    - now apply splitCRLF_fragment.
    - rewrite !append_assoc, (splitCRLF_line _ _ Hline), IH. reflexivity. }
  split; [exact Hsplit |].
  unfold completeLines. rewrite Hsplit, length_app. simpl.
  replace (length lines + 1 - 1) with (length lines) by lia.
  apply take_app_length.
Qed.

Lemma lines_are_split_back_witness :
  completeLines (joinLines ["220 mx.ex.com ESMTP"; "250 HELO mx.ex.com"]%string +:+ "250 MA")
  = ["220 mx.ex.com ESMTP"; "250 HELO mx.ex.com"]%string.
Proof.
  apply (lines_are_split_back ["220 mx.ex.com ESMTP"; "250 HELO mx.ex.com"]%string "250 MA").
  - repeat constructor.
  - reflexivity.
Defined.

(** *** The status code of a line *)

Lemma isDigit_cases (c : ascii) :
  isDigit c = true →
  c ∈ ["0"; "1"; "2"; "3"; "4"; "5"; "6"; "7"; "8"; "9"]%char.
Proof.
  destruct c as [[] [] [] [] [] [] [] []]; intros H; vm_compute in H; try discriminate H;
    rewrite !elem_of_cons; tauto.
Qed.

(** X13.  The code the handler reads from a line that begins with three decimal
    digits is the number they write, whatever follows them. *)
Theorem code_of_three_digits (a b c : ascii) (rest : string) :
  isDigit a = true → isDigit b = true → isDigit c = true →
  parseInt (String.substring 0 3 (String a (String b (String c rest))))
    = Some (100 * digit a + 10 * digit b + digit c)%Z.
Proof.
  intros Ha Hb Hc.
  replace (String.substring 0 3 (String a (String b (String c rest))))
    with (String a (String b (String c EmptyString))) by now destruct rest.
  apply isDigit_cases in Ha, Hb, Hc.
  rewrite !elem_of_cons, elem_of_nil in Ha, Hb, Hc.
  repeat destruct Ha as [-> | Ha]; [.. | destruct Ha];
    (repeat destruct Hb as [-> | Hb]; [.. | destruct Hb]);
    (repeat destruct Hc as [-> | Hc]; [.. | destruct Hc]);
    reflexivity.
Qed.

Lemma code_of_three_digits_witness :
  parseInt (String.substring 0 3 "451 4.7.1 Greylisted") = Some 451%Z.
Proof. apply (code_of_three_digits "4" "5" "1" " 4.7.1 Greylisted"); reflexivity. Defined.

(** ** checkSmtpServer: what is written to the socket *)

Lemma processLines_written (email : string) (lines : list string) : ∀ p,
  Smtp.written (Smtp.processLines email lines p)
    = Smtp.written p ++ writesFor email lines.
Proof.
  induction lines as [|line lines IH]; intros p; cbn [Smtp.processLines writesFor].
  - now rewrite app_nil_r.
  - destruct (Smtp.handleLine email line).
    + rewrite IH. cbn [Smtp.socketWrite Smtp.written]. now rewrite <- app_assoc.
    + reflexivity.
    + apply IH.
Qed.

Lemma onData_written (email chunk : string) (p : Smtp.Probe) :
  Smtp.written (Smtp.onData email chunk p)
    = Smtp.written p ++ writesFor email (completeLines (Smtp.responseBuffer p +:+ chunk)).
Proof. unfold Smtp.onData. now rewrite processLines_written. Qed.

Lemma handleLine_handshake (email line command : string) :
  Smtp.handleLine email line = Smtp.Send command → command ∈ handshake email.
Proof.
  unfold Smtp.handleLine, handshake.
  repeat match goal with
         | |- context [if ?b then _ else _] => destruct b
         end; intros H; try discriminate; injection H as <-.
  - apply list_elem_of_here.
  - apply list_elem_of_further, list_elem_of_here.
  - do 2 apply list_elem_of_further. apply list_elem_of_here.
Qed.

Lemma writesFor_handshake (email : string) (lines : list string) :
  Forall (λ text, text ∈ handshake email) (writesFor email lines).
Proof.
  induction lines as [|line lines IH]; cbn [writesFor]; [constructor |].
  destruct (Smtp.handleLine email line) eqn:Hline.
  - constructor; [now apply (handleLine_handshake email line) | exact IH].
  - constructor; [|constructor]. unfold handshake.
    do 3 apply list_elem_of_further. apply list_elem_of_here.
  - exact IH.
Qed.

Lemma quit_handshake (email : string) : quitCommand ∈ handshake email.
Proof. unfold handshake. do 3 apply list_elem_of_further. apply list_elem_of_here. Qed.

Lemma step_handshake (email : string) (p : Smtp.Probe) (e : Smtp.Event) :
  Forall (λ text, text ∈ handshake email) (Smtp.written p) →
  Forall (λ text, text ∈ handshake email) (Smtp.written (Smtp.step email p e)).
Proof.
  intros Hp.
  assert (Hquit : Forall (λ text, text ∈ handshake email) (Smtp.written p ++ [quitCommand])).
  { apply Forall_app. split; [exact Hp |]. constructor; [apply quit_handshake | constructor]. }
  destruct e as [|chunk|msg| |]; cbn [Smtp.step].
  - exact Hp.
  - rewrite onData_written. apply Forall_app. split; [exact Hp | apply writesFor_handshake].
  - exact Hquit.
  - exact Hquit.
  - unfold Smtp.onTimeout. destruct (Smtp.timerArmed p); [exact Hquit | exact Hp].
Qed.

Lemma written_handshake (email : string) (events : list Smtp.Event) :
  Forall (λ text, text ∈ handshake email)
    (Smtp.written (Smtp.onTimeout (Smtp.run email events))).
Proof.
  change (Smtp.onTimeout (Smtp.run email events))
    with (Smtp.step email (Smtp.run email events) Smtp.Timeout).
  apply step_handshake. unfold Smtp.run.
  assert (H : ∀ p, Forall (λ text, text ∈ handshake email) (Smtp.written p) →
              Forall (λ text, text ∈ handshake email)
                (Smtp.written (fold_left (Smtp.step email) events p))).
  { induction events as [|e events IH]; intros p Hp; cbn [fold_left]; [exact Hp |].
    apply IH, step_handshake, Hp. }
  apply H. constructor.
Qed.

Lemma addressChar_no_line_break (c : ascii) :
  addressChar c = true → negb (Ascii.eqb c CR) && negb (Ascii.eqb c LF) = true.
Proof. destruct c as [[] [] [] [] [] [] [] []]; vm_compute; congruence. Qed.

Lemma isValidFormat_addressChars (address : string) :
  isValidFormat address = true → FormatRule.allOf addressChar address = true.
Proof.
  intros H. apply isValidFormat_accepts in H as (loc & dom & -> & Hloc & Hdom).
  destruct (localPart_chars loc Hloc) as [Hlc _].
  destruct (domainPart_chars dom Hdom) as [Hdc _].
  assert (Hwiden : ∀ s, FormatRule.allOf FormatRule.localChar s = true →
                        FormatRule.allOf addressChar s = true).
  { intros s. apply allOf_impl. intros c Hc. unfold addressChar. now rewrite Hc. }
  rewrite !allOf_append, (Hwiden _ Hlc), (Hwiden _ Hdc). reflexivity.
Qed.

(** The four texts of [handshake], for an address with no line break in
    it: each is one command line and its CRLF. *)
Lemma handshake_commandLines (email text : string) :
  oneLine email = true → text ∈ handshake email →
  ∃ line, text = line +:+ CRLF ∧ line ∈ commandLines email ∧ oneLine line = true.
Proof.
  intros Hemail Hin. unfold handshake in Hin.
  rewrite !elem_of_cons, elem_of_nil in Hin.
  destruct Hin as [-> | [-> | [-> | [-> | []]]]].
  - exists "HELO email-validator.com"%string.
    split; [reflexivity | split; [apply list_elem_of_here | reflexivity]].
  - exists "MAIL FROM: <check@email-validator.com>"%string.
    split; [reflexivity |]. split; [|reflexivity].
    apply list_elem_of_further, list_elem_of_here.
  - exists ("RCPT TO: <" +:+ email +:+ ">")%string.
    split; [now rewrite !append_assoc |]. split.
    + do 2 apply list_elem_of_further. apply list_elem_of_here.
    + unfold oneLine in *. rewrite !allOf_append, Hemail. reflexivity.
  - exists "QUIT"%string.
    split; [reflexivity |]. split; [|reflexivity].
    do 3 apply list_elem_of_further. apply list_elem_of_here.
Qed.

(** X14.  For an address that [isValidFormat] accepts, as every address that
    [verifyEmail] probes is, whatever the server sends, every text the
    probe writes to the socket is one line and its CRLF, with neither CR
    nor LF inside the line, and the line is its HELO, its MAIL FROM, the
    RCPT TO of the address or QUIT: no other command, DATA in particular,
    is ever sent.  (The address goes into RCPT TO as it is; the format
    check is what keeps a line break, and so a further command, out of
    it.) *)
Theorem only_handshake_commands (email : string) (events : list Smtp.Event) :
  isValidFormat email = true →
  Forall (λ text, ∃ line, text = line +:+ CRLF ∧ line ∈ commandLines email ∧
                          oneLine line = true)
    (Smtp.written (Smtp.onTimeout (Smtp.run email events))).
Proof.
  intros Hformat.
  assert (Hemail : oneLine email = true).
  { unfold oneLine.
    exact (allOf_impl _ _ email addressChar_no_line_break
             (isValidFormat_addressChars email Hformat)). }
  eapply Forall_impl; [apply written_handshake |].
  intros text Hin. now apply handshake_commandLines.
Qed.

Lemma only_handshake_commands_witness :
  Forall (λ text, ∃ line, text = line +:+ CRLF ∧ line ∈ commandLines "a@ex.com" ∧
                          oneLine line = true)
    (Smtp.written (Smtp.onTimeout (Smtp.run "a@ex.com" Example.accepting))).
Proof. apply only_handshake_commands. vm_compute. reflexivity. Defined.

(** *** Lines are handled again *)

Lemma joinLines_snoc (lines : list string) (line : string) :
  joinLines (lines ++ [line]) = joinLines lines +:+ line +:+ CRLF.
Proof.
  induction lines as [|l lines IH]; cbn [app joinLines].
  - now rewrite append_nil_l, append_nil_r.
  - rewrite IH. now rewrite !append_assoc.
Qed.

Lemma completeLines_joinLines (lines : list string) :
  Forall (λ line, includes CRLF line = false) lines →
  completeLines (joinLines lines) = lines.
Proof.
  intros Hlines. rewrite <- (append_nil_r (joinLines lines)).
  assert (Hsplit : splitCRLF (joinLines lines +:+ "") = lines ++ [""%string]).
  { induction Hlines as [|line lines Hline _ IH]; cbn [joinLines].
    - reflexivity.
    - rewrite !append_assoc, (splitCRLF_line _ _ Hline), IH. reflexivity. }
  unfold completeLines. rewrite Hsplit, length_app. simpl.
  replace (length lines + 1 - 1) with (length lines) by lia.
  apply take_app_length.
Qed.

Lemma runFrom_lines (email : string) (lines : list string) : ∀ before p,
  Smtp.responseBuffer p = joinLines before →
  Forall (λ line, includes CRLF line = false) (before ++ lines) →
  Smtp.written (runFrom email p (map (λ line, Smtp.Data (line +:+ CRLF)) lines))
    = Smtp.written p
      ++ concat (map (λ k, writesFor email (before ++ take k lines))
                   (seq 1 (length lines))).
Proof.
  unfold runFrom.
  induction lines as [|line lines IH]; intros before p Hbuffer Hlines;
    cbn [map fold_left length seq concat].
  - now rewrite app_nil_r.
  - cbn [Smtp.step].
    assert (Hnext : Smtp.responseBuffer (Smtp.onData email (line +:+ CRLF) p)
                    = joinLines (before ++ [line])).
    { destruct (onData_effect email (line +:+ CRLF) p) as [-> _].
      now rewrite Hbuffer, joinLines_snoc. }
    rewrite (IH (before ++ [line])); [|exact Hnext | now rewrite <- app_assoc].
    rewrite onData_written, Hbuffer, <- joinLines_snoc.
    rewrite completeLines_joinLines.
    2:{ apply Forall_app in Hlines as [Hb Hl]. apply Forall_app. split; [exact Hb |].
        inversion Hl; subst. constructor; [assumption | constructor]. }
    rewrite <- app_assoc. f_equal. cbn [take]. f_equal.
    rewrite <- (seq_shift (length lines) 1), map_map. f_equal. apply map_ext. intros k.
    cbn [take]. now rewrite <- app_assoc.
Qed.

(** X15.  The buffer is never shortened, so every ['data'] event handles again
    all the lines received since the connection: when the server sends
    its replies one line at a time, what is written after the replies is,
    for each of them in turn, the writes for all the lines up to it. *)
Theorem replies_are_handled_again (email : string) (lines : list string) :
  Forall (λ line, includes CRLF line = false) lines →
  Smtp.written (Smtp.run email (lineByLine lines))
    = concat (map (λ k, writesFor email (take k lines)) (seq 1 (length lines))).
Proof.
  intros Hlines. unfold lineByLine, Smtp.run. cbn [fold_left Smtp.step].
  apply (runFrom_lines email lines []
           {| Smtp.responseBuffer := EmptyString;
              Smtp.timerArmed := Smtp.timerArmed Smtp.start;
              Smtp.written := Smtp.written Smtp.start;
              Smtp.settled := Smtp.settled Smtp.start |});
    [reflexivity | exact Hlines].
Qed.

Lemma replies_are_handled_again_witness :
  Smtp.written (Smtp.run "a@ex.com"
                  (lineByLine ["220 mx.ex.com ESMTP"; "250 HELO mx.ex.com"]%string))
  = [ "HELO email-validator.com" +:+ CRLF;
      "HELO email-validator.com" +:+ CRLF;
      "MAIL FROM: <check@email-validator.com>" +:+ CRLF ].
Proof.
  apply (replies_are_handled_again "a@ex.com"
           ["220 mx.ex.com ESMTP"; "250 HELO mx.ex.com"]%string).
  repeat constructor.
Defined.

(** *** Replies that resolve nothing *)

Lemma firstResolution_none (email : string) (lines : list string) :
  Forall (λ line, Smtp.resolves email line = false) lines →
  firstResolution email lines = None.
Proof.
  induction 1 as [|line lines Hline _ IH]; cbn [firstResolution]; [reflexivity |].
  unfold Smtp.resolves in Hline. now destruct (Smtp.handleLine email line).
Qed.

Lemma runFrom_lines_pending (email : string) (lines : list string) : ∀ before p,
  Smtp.responseBuffer p = joinLines before →
  Forall (λ line, includes CRLF line = false) (before ++ lines) →
  Forall (λ line, Smtp.resolves email line = false) (before ++ lines) →
  Smtp.settled (runFrom email p (map (λ line, Smtp.Data (line +:+ CRLF)) lines))
    = Smtp.settled p ∧
  Smtp.timerArmed (runFrom email p (map (λ line, Smtp.Data (line +:+ CRLF)) lines))
    = Smtp.timerArmed p.
Proof.
  unfold runFrom.
  induction lines as [|line lines IH]; intros before p Hbuffer Hlines Hquiet;
    cbn [map fold_left]; [split; reflexivity |].
  cbn [Smtp.step].
  destruct (onData_effect email (line +:+ CRLF) p) as (Hb & Hs & Ht).
  assert (Hcomplete : completeLines (Smtp.responseBuffer p +:+ line +:+ CRLF)
                      = before ++ [line]).
  { rewrite Hbuffer, <- joinLines_snoc. apply completeLines_joinLines.
    apply Forall_app in Hlines as [Hl1 Hl2]. apply Forall_app. split; [exact Hl1 |].
    inversion Hl2; subst. constructor; [assumption | constructor]. }
  assert (Hnone : firstResolution email (before ++ [line]) = None).
  { apply firstResolution_none.
    apply Forall_app in Hquiet as [Hq1 Hq2]. apply Forall_app. split; [exact Hq1 |].
    inversion Hq2; subst. constructor; [assumption | constructor]. }
  rewrite Hcomplete, Hnone in Hs, Ht.
  destruct (IH (before ++ [line]) (Smtp.onData email (line +:+ CRLF) p)) as [IHs IHt].
  - now rewrite Hb, Hbuffer, joinLines_snoc.
  - now rewrite <- app_assoc.
  - now rewrite <- app_assoc.
  - rewrite IHs, IHt, Hs, Ht. split; reflexivity.
Qed.

Lemma quiet_code (email line : string) (code : Z) :
  parseInt (String.substring 0 3 line) = Some code →
  (code < 500)%Z → code ≠ 421%Z → code ≠ 450%Z →
  (code = 250%Z → includes "RCPT" line = false) →
  Smtp.resolves email line = false.
Proof.
  intros Hcode Hlt H421 H450 Hrcpt. unfold Smtp.resolves, Smtp.handleLine.
  destruct (startsWith "220" line); [reflexivity |].
  destruct (startsWith "250" line) eqn:E250; cbn [andb].
  - apply startsWith_250_code in E250.
    assert (code = 250%Z) as -> by congruence.
    destruct (includes "HELO" line); [reflexivity |].
    destruct (includes "MAIL" line); [reflexivity |].
    rewrite (Hrcpt eq_refl), Hcode. reflexivity.
  - rewrite Hcode. unfold Smtp.codeIs, Smtp.codeBetween.
    repeat match goal with
           | |- context [(code =? ?n)%Z] =>
               replace (code =? n)%Z with false by (symmetry; apply Z.eqb_neq; lia)
           end.
    replace (500 <=? code)%Z with false by (symmetry; apply Z.leb_gt; lia).
    reflexivity.
Qed.

(** X16.  A probe gives up only by its timer when the server's lines resolve
    nothing.  A line whose code is below 500 and is not 421 or 450 resolves
    nothing (451 and 452 among them), unless it begins with 250 and
    contains RCPT; and when the server sends, one line at a time, only
    such lines, the answer of the probe is [smtp_timeout].  So it is with a
    server that answers HELO with [250] and its name: that line does not
    contain HELO, and MAIL FROM is never written. *)
Theorem unanswered_probe_times_out (email mxHost : string) (lines : list string) :
  Forall (λ line, includes CRLF line = false) lines →
  Forall (λ line, ∃ code, parseInt (String.substring 0 3 line) = Some code ∧
                          (code < 500)%Z ∧ (code ∉ [421; 450]%Z) ∧
                          (code = 250%Z → includes "RCPT" line = false)) lines →
  Smtp.checkSmtpServer (lineByLine lines) mxHost email
    = Fulfilled (Smtp.mkResult false "Таймаут подключения" "smtp_timeout").
Proof.
  intros Hlines Hcodes.
  assert (Hquiet : Forall (λ line, Smtp.resolves email line = false) lines).
  { eapply Forall_impl; [exact Hcodes |]. intros line (code & Hcode & Hlt & Hnot & Hrcpt).
    rewrite !not_elem_of_cons in Hnot. destruct Hnot as (H421 & H450 & _).
    now apply (quiet_code email line code). }
  unfold Smtp.checkSmtpServer, lineByLine, Smtp.run. cbn [fold_left Smtp.step].
  destruct (runFrom_lines_pending email lines []
              {| Smtp.responseBuffer := EmptyString;
                 Smtp.timerArmed := Smtp.timerArmed Smtp.start;
                 Smtp.written := Smtp.written Smtp.start;
                 Smtp.settled := Smtp.settled Smtp.start |}
              eq_refl Hlines Hquiet) as [Hs Ht].
  unfold runFrom in Hs, Ht. set (q := fold_left _ _ _) in *.
  assert (Hpending : Smtp.settled q = Pending) by exact Hs.
  assert (Harmed : Smtp.timerArmed q = true) by exact Ht.
  unfold Smtp.onTimeout. rewrite Harmed.
  unfold Smtp.resolve, Smtp.cleanup, Smtp.socketWrite. cbn [Smtp.settled].
  rewrite Hpending. reflexivity.
Qed.

Lemma unanswered_probe_times_out_witness :
  Smtp.checkSmtpServer
    (lineByLine ["220 mx.ex.com ESMTP Postfix"; "250 mx.ex.com"]%string)
    "mx.ex.com" "a@ex.com"
  = Fulfilled (Smtp.mkResult false "Таймаут подключения" "smtp_timeout").
Proof.
  apply unanswered_probe_times_out.
  - repeat constructor.
  - constructor; [|constructor; [|constructor]].
    + exists 220%Z. split; [reflexivity |]. split; [lia |]. split; [|lia].
      rewrite !not_elem_of_cons. repeat split; try lia. apply not_elem_of_nil.
    + exists 250%Z. split; [reflexivity |]. split; [lia |]. split; [|reflexivity].
      rewrite !not_elem_of_cons. repeat split; try lia. apply not_elem_of_nil.
Defined.

(** *** A valid answer *)

Lemma handleLine_valid (email line : string) (r : Smtp.Result) :
  Smtp.handleLine email line = Smtp.Resolve r → Smtp.isValid r = true →
  startsWith "250" line = true ∧ includes "RCPT" line = true.
Proof.
  unfold Smtp.handleLine.
  destruct (startsWith "220" line); [discriminate |].
  destruct (startsWith "250" line); cbn [andb].
  - destruct (includes "HELO" line); [discriminate |].
    destruct (includes "MAIL" line); [discriminate |].
    destruct (includes "RCPT" line); [auto |].
    repeat match goal with
           | |- context [if ?b then _ else _] => destruct b
           end; intros H Hv; try discriminate; injection H as <-; discriminate.
  - repeat match goal with
           | |- context [if ?b then _ else _] => destruct b
           end; intros H Hv; try discriminate; injection H as <-; discriminate.
Qed.

Lemma firstResolution_valid (email : string) (lines : list string) (r : Smtp.Result) :
  firstResolution email lines = Some r → Smtp.isValid r = true →
  ∃ line, line ∈ lines ∧ startsWith "250" line = true ∧ includes "RCPT" line = true.
Proof.
  induction lines as [|l lines IH]; cbn [firstResolution]; [discriminate |].
  destruct (Smtp.handleLine email l) as [command|r'|] eqn:Hl; intros H Hv.
  - destruct (IH H Hv) as (line & Hin & Hline). exists line.
    split; [now apply list_elem_of_further | exact Hline].
  - injection H as ->. exists l.
    split; [apply list_elem_of_here | exact (handleLine_valid email l r Hl Hv)].
  - destruct (IH H Hv) as (line & Hin & Hline). exists line.
    split; [now apply list_elem_of_further | exact Hline].
Qed.

Lemma run_snoc (email : string) (events : list Smtp.Event) (e : Smtp.Event) :
  Smtp.run email (events ++ [e]) = Smtp.step email (Smtp.run email events) e.
Proof. unfold Smtp.run. now rewrite fold_left_app. Qed.

Lemma run_valid (email : string) (events : list Smtp.Event) : ∀ r,
  Smtp.settled (Smtp.run email events) = Fulfilled r → Smtp.isValid r = true →
  ∃ before chunk after line,
    events = before ++ Smtp.Data chunk :: after ∧
    line ∈ completeLines (Smtp.responseBuffer (Smtp.run email before) +:+ chunk) ∧
    startsWith "250" line = true ∧ includes "RCPT" line = true.
Proof.
  induction events as [|e events IH] using rev_ind; intros r Hr Hv; [discriminate |].
  rewrite run_snoc in Hr.
  destruct (Smtp.settled (Smtp.run email events)) as [|r0|reason] eqn:Hp.
  - destruct e as [|chunk|msg| |]; cbn [Smtp.step] in Hr.
    + cbn [Smtp.settled] in Hr. congruence.
    + destruct (onData_effect email chunk (Smtp.run email events)) as (_ & Hs & _).
      rewrite Hs, Hp in Hr.
      destruct (firstResolution email _) as [r'|] eqn:Hfirst; [|discriminate].
      cbn [resolveWith] in Hr. injection Hr as ->.
      destruct (firstResolution_valid email _ r Hfirst Hv) as (line & Hin & Hline).
      exists events, chunk, [], line. auto.
    + rewrite settled_resolve in Hr. cbn [Smtp.cleanup Smtp.socketWrite Smtp.settled] in Hr.
      rewrite Hp in Hr. cbn [resolveWith] in Hr. injection Hr as <-. discriminate.
    + cbn [Smtp.cleanup Smtp.socketWrite Smtp.settled] in Hr. congruence.
    + unfold Smtp.onTimeout in Hr. destruct (Smtp.timerArmed _); [|congruence].
      rewrite settled_resolve in Hr. cbn [Smtp.cleanup Smtp.socketWrite Smtp.settled] in Hr.
      rewrite Hp in Hr. cbn [resolveWith] in Hr. injection Hr as <-. discriminate.
  - rewrite (step_fulfilled email r0 _ e Hp) in Hr. injection Hr as ->.
    destruct (IH r eq_refl Hv) as (before & chunk & after & line & -> & Hline).
    exists before, chunk, (after ++ [e]), line. split; [|exact Hline].
    now rewrite <- app_assoc.
  - pose proof (run_neverRejected email events) as Hnever. rewrite Hp in Hnever.
    destruct Hnever.
Qed.

(** X17.  A probe answers [valid] only when the server said so: some chunk
    completed a line of the buffer that begins with 250 and contains
    RCPT. *)
Theorem valid_needs_a_250_RCPT_line (email mxHost : string)
    (events : list Smtp.Event) (r : Smtp.Result) :
  Smtp.checkSmtpServer events mxHost email = Fulfilled r → Smtp.isValid r = true →
  ∃ before chunk after line,
    events = before ++ Smtp.Data chunk :: after ∧
    line ∈ completeLines (Smtp.responseBuffer (Smtp.run email before) +:+ chunk) ∧
    startsWith "250" line = true ∧ includes "RCPT" line = true.
Proof.
  unfold Smtp.checkSmtpServer, Smtp.onTimeout. intros Hr Hv.
  apply (run_valid email events r); [|exact Hv].
  destruct (Smtp.timerArmed (Smtp.run email events)); [|exact Hr].
  rewrite settled_resolve in Hr. cbn [Smtp.cleanup Smtp.socketWrite Smtp.settled] in Hr.
  destruct (Smtp.settled (Smtp.run email events)); cbn [resolveWith] in Hr;
    [injection Hr as <-; discriminate | exact Hr | exact Hr].
Qed.

Lemma valid_needs_a_250_RCPT_line_witness :
  ∃ before chunk after line,
    Example.accepting = before ++ Smtp.Data chunk :: after ∧
    line ∈ completeLines (Smtp.responseBuffer (Smtp.run "a@ex.com" before) +:+ chunk) ∧
    startsWith "250" line = true ∧ includes "RCPT" line = true.
Proof.
  apply (valid_needs_a_250_RCPT_line "a@ex.com" "mx.ex.com" Example.accepting
           (Smtp.mkResult true "Email существует" "valid")); reflexivity.
Defined.

(** ** analyzeResults: the contents of the two objects *)

Lemma updateAt_commute {V : Type} (k1 k2 : string) (g1 g2 : option V → option V)
    (o : gmap string V) :
  k1 ≠ k2 →
  updateAt k1 g1 (updateAt k2 g2 o) = updateAt k2 g2 (updateAt k1 g1 o).
Proof.
  intros Hne. unfold updateAt at 1 3.
  rewrite !updateAt_lookup.
  rewrite decide_False by congruence. rewrite decide_False by congruence.
  unfold updateAt.
  destruct (g1 (o !! k1)), (g2 (o !! k2)); try reflexivity.
  now apply insert_insert_ne.
Qed.

Lemma countDomain_updateAt (v : Verdict) (o : gmap string Domain.Stat) :
  countDomain v o =
    match countedDomain v with
    | Some domain =>
        updateAt domain
          (λ old, Some (counted (isValid v) (default (Domain.mkStat 0 0 0) old))) o
    | None => o
    end.
Proof.
  unfold countDomain, countedDomain, updateAt, counted.
  destruct (includes "@" (email v)); [|reflexivity].
  destruct (inherited _); reflexivity.
Qed.

Lemma countDomain_lookup (v : Verdict) (domain : string) (o : gmap string Domain.Stat) :
  countDomain v o !! domain =
    if bool_decide (countedDomain v = Some domain)
    then Some (counted (isValid v) (default (Domain.mkStat 0 0 0) (o !! domain)))
    else o !! domain.
Proof.
  rewrite countDomain_updateAt. destruct (countedDomain v) as [d|].
  - rewrite updateAt_lookup. destruct (decide (d = domain)) as [-> | Hne].
    + now rewrite bool_decide_eq_true_2.
    + rewrite bool_decide_eq_false_2; [reflexivity | congruence].
  - now rewrite bool_decide_eq_false_2.
Qed.

Lemma inDomain_split (domain : string) (results : list Verdict) :
  inDomainValid domain results + inDomainInvalid domain results = inDomain domain results.
Proof.
  unfold inDomainValid, inDomainInvalid, inDomain.
  induction results as [|v results IH]; simpl; [reflexivity |].
  destruct (bool_decide _), (isValid v); simpl; lia.
Qed.

Lemma fold_countDomain_lookup (domain : string) (results : list Verdict) : ∀ o,
  fold_left (λ o v, countDomain v o) results o !! domain =
    if inDomain domain results =? 0 then o !! domain
    else
      let d := default (Domain.mkStat 0 0 0) (o !! domain) in
      Some (Domain.mkStat (Domain.total d + inDomain domain results)
              (Domain.valid d + inDomainValid domain results)
              (Domain.invalid d + inDomainInvalid domain results)).
Proof.
  unfold inDomain, inDomainValid, inDomainInvalid.
  induction results as [|v results IH]; intros o; simpl; [reflexivity |].
  rewrite IH, countDomain_lookup. clear IH.
  destruct (bool_decide (countedDomain v = Some domain)); simpl; [|reflexivity].
  pose proof (inDomain_split domain results) as Hsplit.
  unfold inDomain, inDomainValid, inDomainInvalid in Hsplit.
  destruct (length (List.filter (λ v, bool_decide (countedDomain v = Some domain)) results)
            =? 0) eqn:Hz.
  - apply Nat.eqb_eq in Hz. rewrite Hz in *.
    assert (Hv : length (List.filter
                  (λ v, bool_decide (countedDomain v = Some domain) && isValid v) results) = 0)
      by lia.
    assert (Hi : length (List.filter
                  (λ v, bool_decide (countedDomain v = Some domain) && negb (isValid v))
                  results) = 0) by lia.
    unfold counted. destruct (isValid v); simpl; rewrite ?Hv, ?Hi; do 2 f_equal; lia.
  - unfold counted. destruct (isValid v); simpl; do 2 f_equal; lia.
Qed.

(** X18.  The domains of an aggregate hold an entry exactly for the domains some
    verdict is counted in, and the entry holds the number of those
    verdicts, of the valid ones and of the others. *)
Theorem domain_entries (results : list Verdict) (domain : string) :
  Stats.domains (analyzeResults results) !! domain =
    if inDomain domain results =? 0 then None
    else Some (Domain.mkStat (inDomain domain results)
                 (inDomainValid domain results) (inDomainInvalid domain results)).
Proof.
  rewrite analyzeResults_fold, fold_tally. cbn [Stats.domains initialStats].
  rewrite fold_countDomain_lookup, lookup_empty. reflexivity.
Qed.

Lemma domains_is_Some (results : list Verdict) (domain : string) :
  is_Some (Stats.domains (analyzeResults results) !! domain)
  ↔ inDomain domain results ≠ 0.
Proof.
  rewrite analyzeResults_fold, fold_tally. cbn [Stats.domains initialStats].
  rewrite fold_countDomain_lookup, lookup_empty.
  destruct (inDomain domain results =? 0) eqn:Hz.
  - apply Nat.eqb_eq in Hz. split; [intros [x Hx]; discriminate | congruence].
  - apply Nat.eqb_neq in Hz. split; [auto | eauto].
Qed.

(** *** The key of a domain *)

Lemma prefix_at (s : string) :
  String.prefix "@" s = match s with String c _ => Ascii.eqb c "@" | EmptyString => false end.
Proof.
  destruct s as [|c s]; [reflexivity |].
  change (String.prefix "@" (String c s))
    with (if ascii_dec "@" c then String.prefix "" s else false).
  destruct (ascii_dec "@" c) as [<- | Hne].
  - now destruct s.
  - symmetry. apply Ascii.eqb_neq. congruence.
Qed.

Lemma includes_at (s : string) : includes "@" s = negb (FormatRule.noAt s).
Proof.
  unfold FormatRule.noAt. induction s as [|c s IH]; [reflexivity |].
  cbn [includes FormatRule.allOf]. rewrite prefix_at, IH.
  rewrite negb_andb, negb_involutive. reflexivity.
Qed.

Lemma split_noAt (s : string) : FormatRule.noAt s = true → split "@" s = [s].
Proof.
  unfold FormatRule.noAt. induction s as [|c s IH]; intros H; [reflexivity |].
  simpl in H. apply andb_true_iff in H as [Hc Hs]. apply negb_true_iff in Hc.
  simpl. rewrite Hc, (IH Hs). reflexivity.
Qed.

Lemma noAt_append_at (a b : string) : FormatRule.noAt (a +:+ "@" +:+ b) = false.
Proof.
  unfold FormatRule.noAt. rewrite allOf_append.
  apply andb_false_iff. right. rewrite append_cons. reflexivity.
Qed.

(** X19.  A verdict is counted under the text between the first and the second
    [@] of its address (the rest of the address when there is one [@]
    only), unless that text names a member inherited from
    [Object.prototype]; a verdict whose address has no [@] is counted in no
    domain. *)
Theorem domain_is_second_piece (v : Verdict) (loc dom tail : string) :
  FormatRule.noAt loc = true → FormatRule.noAt dom = true →
  (tail = EmptyString ∨ ∃ rest, tail = "@" +:+ rest) →
  (email v = loc +:+ "@" +:+ dom +:+ tail →
     countedDomain v = if inherited dom then None else Some dom) ∧
  (email v = loc → countedDomain v = None).
Proof.
  intros Hloc Hdom Htail. split.
  - intros Hv. unfold countedDomain. rewrite Hv, includes_at, noAt_append_at.
    cbn [negb]. rewrite (split_first_at _ _ Hloc).
    destruct Htail as [-> | [rest ->]].
    + rewrite append_nil_r, (split_noAt _ Hdom). reflexivity.
    + rewrite (split_first_at _ _ Hdom). reflexivity.
  - intros Hv. unfold countedDomain. rewrite Hv, includes_at, Hloc. reflexivity.
Qed.

Lemma domain_is_second_piece_witness :
  countedDomain Example.malformed = Some EmptyString ∧
  countedDomain Example.validAtEx = Some "ex.com"%string.
Proof.
  split.
  - exact (proj1 (domain_is_second_piece Example.malformed "c" "" "@other.org"
                    eq_refl eq_refl (or_intror (ex_intro _ "other.org"%string eq_refl)))
             eq_refl).
  - exact (proj1 (domain_is_second_piece Example.validAtEx "a" "ex.com" ""
                    eq_refl eq_refl (or_introl eq_refl)) eq_refl).
Defined.

(** *** The histogram, key by key *)

(** X20.  The histogram of an aggregate, whatever the categories of the
    verdicts: a key that names no member inherited from [Object.prototype]
    holds the number of verdicts counted under it, and is there when it is
    preset or that number is not zero; a key that names an inherited member
    holds text once a verdict that is not valid has it as category, and
    [__proto__] is never there. *)
Theorem histogram_contents (results : list Verdict) (c : string) :
  Stats.categories (analyzeResults results) !! c =
    if inherited c then
      if String.eqb c "__proto__" || (tallied c results =? 0) then None else Some Text
    else if bool_decide (c ∈ presetCategories) || negb (tallied c results =? 0)
         then Some (Num (tallied c results)) else None.
Proof.
  rewrite analyzeResults_fold, fold_tally. cbn [Stats.categories initialStats].
  apply histogram_lookup.
Qed.

(** *** The order of the verdicts *)

Lemma fold_left_permutation {S A : Type} (f : S → A → S) (I : S → Prop) :
  (∀ s x, I s → I (f s x)) →
  (∀ s x y, I s → f (f s x) y = f (f s y) x) →
  ∀ a b, a ≡ₚ b → ∀ s, I s → fold_left f a s = fold_left f b s.
Proof.
  intros Hinv Hcomm a b Hperm.
  induction Hperm as [|x a b _ IH|x y a|a b c _ IH1 _ IH2]; intros s Hs; simpl.
  - reflexivity.
  - apply IH, Hinv, Hs.
  - now rewrite (Hcomm s y x Hs).
  - rewrite (IH1 s Hs). now apply IH2.
Qed.

Lemma filter_length_permutation {A : Type} (f : A → bool) (a b : list A) :
  a ≡ₚ b → length (List.filter f a) = length (List.filter f b).
Proof.
  intros Hperm.
  induction Hperm as [|x a b _ IH|x y a|a b c _ IH1 _ IH2]; simpl.
  - reflexivity.
  - destruct (f x); simpl; now rewrite IH.
  - destruct (f x), (f y); reflexivity.
  - now rewrite IH1.
Qed.

Lemma tallyCategory_valid_key (v : Verdict) (o : gmap string JsValue) (n : nat) :
  countedAs v = "valid"%string → o !! "valid"%string = Some (Num n) →
  tallyCategory v o = <["valid"%string := Num (S n)]> o.
Proof.
  intros Hkey Hn. rewrite tallyCategory_updateAt, Hkey. unfold updateAt. rewrite Hn.
  unfold countedAs in Hkey. destruct (isValid v); [reflexivity |].
  rewrite Hkey. reflexivity.
Qed.

Lemma tallyCategory_validCounted (v : Verdict) (o : gmap string JsValue) :
  validCounted o → validCounted (tallyCategory v o).
Proof.
  intros [n Hn]. unfold validCounted.
  destruct (decide (countedAs v = "valid"%string)) as [Heq | Hne].
  - rewrite (tallyCategory_valid_key v o n Heq Hn). rewrite lookup_insert_eq. eauto.
  - rewrite tallyCategory_updateAt, updateAt_lookup, decide_False by exact Hne. eauto.
Qed.

Lemma tallyCategory_commute (x y : Verdict) (o : gmap string JsValue) :
  validCounted o →
  tallyCategory y (tallyCategory x o) = tallyCategory x (tallyCategory y o).
Proof.
  intros [n Hn].
  destruct (decide (countedAs x = countedAs y)) as [Heq | Hne].
  - destruct (decide (countedAs x = "valid"%string)) as [Hx | Hx].
    + assert (Hy : countedAs y = "valid"%string) by congruence.
      rewrite (tallyCategory_valid_key x o n Hx Hn), (tallyCategory_valid_key y o n Hy Hn).
      rewrite (tallyCategory_valid_key y _ (S n) Hy (lookup_insert_eq _ _ _)).
      rewrite (tallyCategory_valid_key x _ (S n) Hx (lookup_insert_eq _ _ _)).
      reflexivity.
    + assert (Hsame : ∀ o', tallyCategory x o' = tallyCategory y o').
      { intros o'. unfold tallyCategory. unfold countedAs in Heq, Hx.
        destruct (isValid x); [congruence |].
        destruct (isValid y); [congruence |]. now rewrite Heq. }
      now rewrite !Hsame.
  - rewrite !tallyCategory_updateAt. apply updateAt_commute. congruence.
Qed.

Lemma counted_commute (a b : bool) (d : Domain.Stat) :
  counted a (counted b d) = counted b (counted a d).
Proof. now destruct a, b. Qed.

Lemma countDomain_commute (x y : Verdict) (o : gmap string Domain.Stat) :
  countDomain y (countDomain x o) = countDomain x (countDomain y o).
Proof.
  rewrite !countDomain_updateAt.
  destruct (countedDomain x) as [dx|], (countedDomain y) as [dy|]; try reflexivity.
  destruct (decide (dy = dx)) as [-> | Hne]; [|now apply updateAt_commute].
  apply map_eq. intros c. rewrite !updateAt_lookup.
  destruct (decide (dx = c)); [|reflexivity].
  exact (f_equal Some (counted_commute _ _ _)).
Qed.

(** X21.  The aggregate does not depend on the order of the verdicts. *)
Theorem aggregate_ignores_order (a b : list Verdict) :
  a ≡ₚ b → analyzeResults a = analyzeResults b.
Proof.
  intros Hperm. rewrite !analyzeResults_fold, !fold_tally. cbn [initialStats
    Stats.total Stats.valid Stats.invalid Stats.categories Stats.domains].
  f_equal.
  - now apply Permutation_length.
  - unfold countValid. now rewrite (filter_length_permutation _ _ _ Hperm).
  - unfold countInvalid. now rewrite (filter_length_permutation _ _ _ Hperm).
  - apply (fold_left_permutation _ validCounted); [| |exact Hperm |].
    + intros s x. apply tallyCategory_validCounted.
    + intros s x y. apply tallyCategory_commute.
    + exists 0. reflexivity.
  - apply (fold_left_permutation _ (λ _, True)); [| |exact Hperm |]; auto.
    intros s x y _. apply countDomain_commute.
Qed.

Lemma aggregate_ignores_order_witness :
  analyzeResults [Example.validAtEx; Example.unknownAtEx; Example.malformed] =
  analyzeResults [Example.malformed; Example.validAtEx; Example.unknownAtEx].
Proof.
  apply aggregate_ignores_order.
  apply Permutation_sym.
  apply (Permutation_cons_append [Example.validAtEx; Example.unknownAtEx] Example.malformed).
Defined.

(** ** analyzeResults: the ranking of the domains *)

Lemma createdKeys_fold (results : list Verdict) : ∀ keys,
  NoDup keys →
  let keys' :=
    fold_left
      (λ keys v, match countedDomain v with
                 | Some domain =>
                     if bool_decide (domain ∈ keys) then keys else keys ++ [domain]
                 | None => keys
                 end) results keys in
  NoDup keys' ∧
  ∀ d, d ∈ keys' ↔ d ∈ keys ∨ ∃ v, v ∈ results ∧ countedDomain v = Some d.
Proof.
  induction results as [|v results IH]; intros keys Hnodup; cbn [fold_left].
  - split; [exact Hnodup |]. intros d. split; [auto |].
    intros [H | (v & Hv & _)]; [exact H | now apply elem_of_nil in Hv].
  - set (next := match countedDomain v with
                 | Some domain =>
                     if bool_decide (domain ∈ keys) then keys else keys ++ [domain]
                 | None => keys
                 end).
    assert (Hnext : NoDup next ∧
              ∀ d, d ∈ next ↔ d ∈ keys ∨ countedDomain v = Some d).
    { subst next. destruct (countedDomain v) as [domain|].
      - destruct (bool_decide (domain ∈ keys)) eqn:Hin.
        + apply bool_decide_eq_true in Hin. split; [exact Hnodup |].
          intros d. split; [auto |]. intros [H | H]; [exact H | congruence].
        + apply bool_decide_eq_false in Hin. split.
          * apply NoDup_app. split; [exact Hnodup |]. split.
            -- intros x Hx Hx'. apply list_elem_of_singleton in Hx'. congruence.
            -- apply NoDup_singleton.
          * intros d. rewrite elem_of_app, list_elem_of_singleton.
            split; intros [H | H]; auto; [right; congruence | right; congruence].
      - split; [exact Hnodup |]. intros d. split; [auto |].
        intros [H | H]; [exact H | discriminate]. }
    destruct Hnext as [Hnd Hmem]. destruct (IH next Hnd) as [IHnd IHmem].
    split; [exact IHnd |]. intros d. rewrite IHmem, Hmem. split.
    + intros [[H | H] | (w & Hw & Hd)]; [auto | right | right].
      * exists v. split; [apply list_elem_of_here | exact H].
      * exists w. split; [now apply list_elem_of_further | exact Hd].
    + intros [H | (w & Hw & Hd)]; [auto |].
      apply elem_of_cons in Hw as [-> | Hw]; [auto |]. right. eauto.
Qed.

Lemma inDomain_positive (d : string) (results : list Verdict) :
  inDomain d results ≠ 0 ↔ ∃ v, v ∈ results ∧ countedDomain v = Some d.
Proof.
  unfold inDomain. induction results as [|v results IH]; simpl.
  - split; [congruence |]. intros (v & Hv & _). now apply elem_of_nil in Hv.
  - destruct (bool_decide (countedDomain v = Some d)) eqn:Hd; simpl.
    + apply bool_decide_eq_true in Hd. split; [|lia].
      intros _. exists v. split; [apply list_elem_of_here | exact Hd].
    + apply bool_decide_eq_false in Hd. rewrite IH. split.
      * intros (w & Hw & Hwd). exists w. split; [now apply list_elem_of_further | exact Hwd].
      * intros (w & Hw & Hwd). apply elem_of_cons in Hw as [-> | Hw]; [congruence | eauto].
Qed.

(** The keys created are the domains that have an entry. *)
Lemma createdKeys_spec (results : list Verdict) :
  NoDup (createdKeys results) ∧
  ∀ d, d ∈ createdKeys results ↔ is_Some (Stats.domains (analyzeResults results) !! d).
Proof.
  destruct (createdKeys_fold results [] (NoDup_nil_2)) as [Hnd Hmem].
  split; [exact Hnd |]. intros d. unfold createdKeys. rewrite Hmem.
  rewrite domains_is_Some, inDomain_positive. split; [|auto].
  intros [H | H]; [now apply elem_of_nil in H | exact H].
Qed.

Lemma insertIndex_permutation (x : N * string) (l : list (N * string)) :
  insertIndex x l ≡ₚ x :: l.
Proof.
  induction l as [|y l IH]; simpl; [reflexivity |].
  destruct (fst x <? fst y)%N; [reflexivity |].
  rewrite IH. apply perm_swap.
Qed.

Lemma sortIndex_permutation (l : list (N * string)) : foldr insertIndex [] l ≡ₚ l.
Proof.
  induction l as [|x l IH]; simpl; [reflexivity |].
  rewrite insertIndex_permutation. now constructor.
Qed.

Lemma indexKeys_snd (created : list string) :
  map snd (omap (λ key, (λ i, (i, key)) <$> arrayIndex key) created)
    = List.filter isArrayIndex created.
Proof.
  unfold isArrayIndex. induction created as [|key created IH]; csimpl; [reflexivity |].
  destruct (arrayIndex key); csimpl; now rewrite IH.
Qed.

Lemma filter_partition {A : Type} (p : A → bool) (l : list A) :
  List.filter p l ++ List.filter (λ x, negb (p x)) l ≡ₚ l.
Proof.
  induction l as [|x l IH]; simpl; [reflexivity |].
  destruct (p x); simpl.
  - now constructor.
  - rewrite <- Permutation_middle. now constructor.
Qed.

Lemma ownKeys_permutation (created : list string) : ownKeys created ≡ₚ created.
Proof.
  unfold ownKeys.
  rewrite (Permutation_map snd (sortIndex_permutation _)), indexKeys_snd.
  apply filter_partition.
Qed.

(** The entries listed are the entries of the object, each once. *)
Lemma domainEntries_spec (results : list Verdict) :
  NoDup (map fst (domainEntries results)) ∧
  ∀ d D, (d, D) ∈ domainEntries results
         ↔ Stats.domains (analyzeResults results) !! d = Some D.
Proof.
  destruct (createdKeys_spec results) as [Hnd Hmem].
  assert (Hkeys : ∀ d, d ∈ ownKeys (createdKeys results)
                       ↔ is_Some (Stats.domains (analyzeResults results) !! d)).
  { intros d. rewrite <- Hmem. now rewrite (ownKeys_permutation (createdKeys results)). }
  assert (Hnd' : NoDup (ownKeys (createdKeys results))).
  { now rewrite (ownKeys_permutation (createdKeys results)). }
  unfold domainEntries. split.
  - assert (Hfst : ∀ keys, (∀ d, d ∈ keys →
                      is_Some (Stats.domains (analyzeResults results) !! d)) →
               map fst (omap (λ key, (λ D, (key, D))
                          <$> Stats.domains (analyzeResults results) !! key) keys) = keys).
    { induction keys as [|key keys IH]; intros Hall; csimpl; [reflexivity |].
      destruct (Hall key (list_elem_of_here _ _)) as [D ->]. csimpl.
      rewrite IH; [reflexivity |]. intros d Hd. apply Hall. now apply list_elem_of_further. }
    rewrite Hfst; [exact Hnd' |]. intros d Hd. now apply Hkeys.
  - intros d D. rewrite list_elem_of_omap. split.
    + intros (key & _ & Hkey).
      destruct (Stats.domains (analyzeResults results) !! key) as [D'|] eqn:Hlookup;
        [|discriminate].
      simpl in Hkey. now injection Hkey as -> ->.
    + intros Hd. exists d. split; [apply Hkeys; eauto |]. now rewrite Hd.
Qed.

Lemma insertByTotal_permutation (x : string * Domain.Stat) (l : list (string * Domain.Stat)) :
  insertByTotal x l ≡ₚ x :: l.
Proof.
  induction l as [|y l IH]; simpl; [reflexivity |].
  destruct (Domain.total (snd y) <=? Domain.total (snd x)); [reflexivity |].
  rewrite IH. apply perm_swap.
Qed.

Lemma insertByTotal_sorted (x : string * Domain.Stat) (l : list (string * Domain.Stat)) :
  StronglySorted byTotal l → StronglySorted byTotal (insertByTotal x l).
Proof.
  induction 1 as [|y l Hsorted IH Hall]; simpl.
  - repeat constructor.
  - destruct (Domain.total (snd y) <=? Domain.total (snd x)) eqn:Hle.
    + apply Nat.leb_le in Hle. constructor; [now constructor |].
      constructor; [exact Hle |].
      eapply Forall_impl; [exact Hall |]. unfold byTotal. intros z Hz. lia.
    + apply Nat.leb_gt in Hle. constructor; [exact IH |].
      rewrite insertByTotal_permutation. constructor; [unfold byTotal; lia | exact Hall].
Qed.

Lemma insertByTotal_ofTotal (n : nat) (x : string * Domain.Stat)
    (l : list (string * Domain.Stat)) :
  ofTotal n (insertByTotal x l) = ofTotal n (x :: l).
Proof.
  unfold ofTotal. induction l as [|y l IH]; [reflexivity |].
  cbn [insertByTotal].
  destruct (Domain.total (snd y) <=? Domain.total (snd x)) eqn:Hle; [reflexivity |].
  apply Nat.leb_gt in Hle. cbn [List.filter] in *. rewrite IH.
  destruct (Domain.total (snd x) =? n) eqn:Hx; [|reflexivity].
  apply Nat.eqb_eq in Hx.
  replace (Domain.total (snd y) =? n) with false by (symmetry; apply Nat.eqb_neq; lia).
  reflexivity.
Qed.

Lemma sortByTotal_spec (l : list (string * Domain.Stat)) :
  sortByTotal l ≡ₚ l ∧ StronglySorted byTotal (sortByTotal l) ∧
  ∀ n, ofTotal n (sortByTotal l) = ofTotal n l.
Proof.
  unfold sortByTotal. induction l as [|x l (Hperm & Hsorted & Hstable)]; simpl.
  - repeat split; constructor.
  - split; [|split].
    + rewrite insertByTotal_permutation. now constructor.
    + now apply insertByTotal_sorted.
    + intros n. rewrite insertByTotal_ofTotal. unfold ofTotal in *.
      cbn [List.filter]. now rewrite Hstable.
Qed.

Lemma sorted_take {A : Type} (R : A → A → Prop) (l : list A) : ∀ n,
  StronglySorted R l →
  StronglySorted R (take n l) ∧
  ∀ x y, x ∈ take n l → y ∈ drop n l → R x y.
Proof.
  induction l as [|a l IH]; intros n Hsorted.
  - rewrite take_nil. split; [constructor |]. intros x y Hx. now apply elem_of_nil in Hx.
  - destruct n as [|n]; cbn [take drop].
    + split; [constructor |]. intros x y Hx. now apply elem_of_nil in Hx.
    + inversion Hsorted as [|? ? Hl Ha]; subst.
      destruct (IH n Hl) as [IHs IHr]. split.
      * constructor; [exact IHs |].
        rewrite List.Forall_forall in Ha. apply List.Forall_forall.
        intros x Hx. apply Ha. apply list_elem_of_In.
        apply list_elem_of_In in Hx. exact (elem_of_prefix _ _ _ Hx (prefix_take _ _)).
      * intros x y Hx Hy. apply elem_of_cons in Hx as [-> | Hx]; [|now apply IHr].
        rewrite List.Forall_forall in Ha. apply Ha. apply list_elem_of_In.
        exact (elem_of_suffix _ _ _ Hy (suffix_drop _ _)).
Qed.

(** X22.  The ranking lists at most ten domains, each once and with the counts
    of its entry, from the largest total down; a domain that has an entry
    and is not listed has a total no larger than any of the ten that are. *)
Theorem top_domains_ranking (results : list Verdict) :
  let top := topDomains results in
  let domains := Stats.domains (analyzeResults results) in
  length top = min 10 (size domains) ∧
  StronglySorted byTotal top ∧
  NoDup (map fst top) ∧
  (∀ d D, (d, D) ∈ top → domains !! d = Some D) ∧
  (∀ d D, domains !! d = Some D →
     (d, D) ∈ top ∨ Forall (λ e, Domain.total D ≤ Domain.total (snd e)) top).
Proof.
  intros top domains. subst top domains. unfold topDomains.
  destruct (domainEntries_spec results) as [Hnd Hmem].
  destruct (sortByTotal_spec (domainEntries results)) as (Hperm & Hsorted & _).
  destruct (sorted_take byTotal _ 10 Hsorted) as [Htake Hrest].
  split; [|split; [exact Htake | split; [|split]]].
  - rewrite length_take, (Permutation_length Hperm). f_equal.
    rewrite <- (length_map fst).
    assert (Hkeys : map fst (domainEntries results)
                    ≡ₚ (map_to_list (Stats.domains (analyzeResults results))).*1).
    { apply NoDup_Permutation; [exact Hnd | apply NoDup_fst_map_to_list |].
      intros d. rewrite !list_elem_of_fmap. split.
      - intros ([d' D] & -> & H). apply Hmem in H. exists (d', D). split; [reflexivity |].
        now apply elem_of_map_to_list.
      - intros ([d' D] & -> & H). apply elem_of_map_to_list in H.
        exists (d', D). split; [reflexivity |]. now apply Hmem. }
    rewrite (Permutation_length Hkeys), length_fmap, <- map_size_list_to_map.
    + now rewrite list_to_map_to_list.
    + apply NoDup_fst_map_to_list.
  - change (map fst (take 10 (sortByTotal (domainEntries results))))
      with (fst <$> take 10 (sortByTotal (domainEntries results))).
    rewrite fmap_take. apply (sublist_NoDup _ (fst <$> sortByTotal (domainEntries results)));
      [|apply sublist_take].
    change (NoDup (map fst (sortByTotal (domainEntries results)))).
    now rewrite (Permutation_map fst Hperm).
  - intros d D Hd. apply Hmem. rewrite <- Hperm.
    exact (elem_of_prefix _ _ _ Hd (prefix_take _ _)).
  - intros d D Hd. apply Hmem in Hd. rewrite <- Hperm in Hd.
    rewrite <- (take_drop 10 (sortByTotal (domainEntries results))) in Hd.
    apply elem_of_app in Hd as [Hd | Hd]; [now left | right].
    apply Forall_forall. intros e He. exact (Hrest e (d, D) He Hd).
Qed.

Lemma top_domains_ranking_witness :
  let results := [Example.malformed; Example.validAtEx; Example.unknownAtEx] in
  topDomains results
    = [("ex.com"%string, Domain.mkStat 2 1 1); (EmptyString, Domain.mkStat 1 0 1)] ∧
  Stats.domains (analyzeResults results) !! "ex.com"%string = Some (Domain.mkStat 2 1 1).
Proof.
  intros results.
  assert (Htop : topDomains results
                 = [("ex.com"%string, Domain.mkStat 2 1 1); (EmptyString, Domain.mkStat 1 0 1)])
    by (vm_compute; reflexivity).
  split; [exact Htop |].
  destruct (top_domains_ranking results) as (_ & _ & _ & Hin & _).
  apply Hin. rewrite Htop. apply list_elem_of_here.
Defined.

Lemma filter_prefix {A : Type} (p : A → bool) (a l : list A) :
  a `prefix_of` l → List.filter p a `prefix_of` List.filter p l.
Proof. intros [k ->]. rewrite List.filter_app. now apply prefix_app_r. Qed.

(** X23.  Domains of equal total are ranked in the order in which
    [Object.entries] lists them: array indices first, then the order in
    which the entries were created. *)
Theorem top_domains_ties (results : list Verdict) (n : nat) :
  ofTotal n (topDomains results) `prefix_of` ofTotal n (domainEntries results).
Proof.
  destruct (sortByTotal_spec (domainEntries results)) as (_ & _ & Hstable).
  rewrite <- Hstable. unfold ofTotal, topDomains. apply filter_prefix, prefix_take.
Qed.

(** ** processBatch: the groups *)

Lemma slices_lookup {A : Type} (limit : nat) : ∀ fuel (items : list A) k,
  0 < limit → length items ≤ fuel →
  slices fuel limit items !! k =
    if k * limit <? length items then Some (take limit (drop (k * limit) items))
    else None.
Proof.
  induction fuel as [|fuel IH]; intros items k Hlimit Hlen.
  - destruct items; [|simpl in Hlen; lia]. simpl.
    now destruct (k * limit <? 0) eqn:Hk; [apply Nat.ltb_lt in Hk; lia |].
  - destruct items as [|x items].
    { simpl. now destruct (k * limit <? 0) eqn:Hk; [apply Nat.ltb_lt in Hk; lia |]. }
    cbn [slices]. destruct k as [|k].
    + reflexivity.
    + cbn [lookup list_lookup]. change (slices fuel limit (drop limit (x :: items)) !! k
        = if S k * limit <? length (x :: items)
          then Some (take limit (drop (S k * limit) (x :: items))) else None).
      rewrite IH; [|exact Hlimit | rewrite length_drop; simpl in *; lia].
      rewrite length_drop, drop_drop.
      replace (limit + k * limit) with (S k * limit) by lia.
      destruct (k * limit <? length (x :: items) - limit) eqn:H1;
        destruct (S k * limit <? length (x :: items)) eqn:H2; try reflexivity;
        [apply Nat.ltb_lt in H1; apply Nat.ltb_ge in H2
        |apply Nat.ltb_ge in H1; apply Nat.ltb_lt in H2]; lia.
Qed.

(** X24.  The groups are the consecutive slices of five addresses: group [k]
    holds the addresses from index [5 k] on, five of them or what is left,
    and there is a group [k] exactly when the batch has an address at
    index [5 k]. *)
Theorem groups_are_consecutive_slices {A : Type} (items : list A) (k : nat) :
  groupsOf concurrentLimit items !! k =
    if k * concurrentLimit <? length items
    then Some (take concurrentLimit (drop (k * concurrentLimit) items))
    else None.
Proof. apply slices_lookup; [unfold concurrentLimit; lia | lia]. Qed.

(** ** processBatch: what it returns *)

Lemma groupValues_ext (r r' : Run) (group : list string) : ∀ index,
  (∀ j address, group !! j = Some address →
     verify r' (index + j) address = verify r (index + j) address) →
  groupValues r' index group = groupValues r index group.
Proof.
  induction group as [|a rest IH]; intros index Hsame; simpl; [reflexivity |].
  pose proof (Hsame 0 a eq_refl) as Ha. rewrite Nat.add_0_r in Ha. rewrite Ha.
  rewrite (IH (S index)); [reflexivity |].
  intros j address Hj. rewrite Nat.add_succ_comm. now apply (Hsame (S j)).
Qed.

Lemma processGroups_returned_ext (r r' : Run) (total total' : nat)
    (groups : list (list string)) : ∀ g g' offset b b',
  (∀ j address, concat groups !! j = Some address →
     verify r' (offset + j) address = verify r (offset + j) address) →
  results b' = results b →
  results (fst (processGroups r' total' g' offset groups b'))
    = results (fst (processGroups r total g offset groups b)) ∧
  snd (processGroups r' total' g' offset groups b')
    = snd (processGroups r total g offset groups b).
Proof.
  induction groups as [|group rest IH]; intros g g' offset b b' Hsame Hres;
    cbn [processGroups].
  - split; [exact Hres | reflexivity].
  - destruct (processGroup r total offset (completionOrder r g) group b)
      as [b1 values] eqn:Hpg.
    destruct (processGroup r' total' offset (completionOrder r' g') group b')
      as [b1' values'] eqn:Hpg'.
    assert (Hb1 : results b1 = results b).
    { replace b1 with (fst (processGroup r total offset (completionOrder r g) group b))
        by now rewrite Hpg.
      apply processGroup_results. }
    assert (Hb1' : results b1' = results b').
    { replace b1' with (fst (processGroup r' total' offset (completionOrder r' g') group b'))
        by now rewrite Hpg'.
      apply processGroup_results. }
    assert (Hvalues : values' = values).
    { replace values with (snd (processGroup r total offset (completionOrder r g) group b))
        by now rewrite Hpg.
      replace values' with (snd (processGroup r' total' offset (completionOrder r' g') group b'))
        by now rewrite Hpg'.
      cbn [processGroup snd]. apply groupValues_ext. intros j address Hj. apply Hsame.
      simpl. now apply lookup_app_l_Some. }
    subst values'. destruct values as [vs|].
    + apply IH.
      * intros j address Hj. rewrite <- Nat.add_assoc. apply Hsame.
        simpl. rewrite lookup_app_r by lia.
        now replace (length group + j - length group) with j by lia.
      * cbn [results]. congruence.
    + cbn [fst snd]. split; [congruence | reflexivity].
Qed.

(** X25.  What a batch returns depends on how the verifications settle and on
    nothing else: not on the order in which they complete, and not on the
    callbacks that are passed. *)
Theorem returned_ignores_order_and_callbacks (r r' : Run) (emails : list string) :
  (∀ i address, emails !! i = Some address → verify r' i address = verify r i address) →
  returned (processBatch r' emails) = returned (processBatch r emails).
Proof.
  intros Hsame. unfold processBatch.
  destruct (processGroups_returned_ext r r' (length emails) (length emails)
              (groupsOf concurrentLimit emails) 0 0 0
              {| results := []; completed := 0; calls := [] |}
              {| results := []; completed := 0; calls := [] |}) as [Hres Hflag].
  { rewrite concat_groupsOf. intros j address Hj. now apply Hsame. }
  { reflexivity. }
  destruct (processGroups r' _ 0 0 _ _) as [b' flag'].
  destruct (processGroups r _ 0 0 _ _) as [b flag].
  cbn [fst snd] in Hres, Hflag. subst flag'. destruct flag; cbn [returned]; [|reflexivity].
  now rewrite Hres.
Qed.

Lemma returned_ignores_order_and_callbacks_witness :
  returned (processBatch
              (liveRun (λ _, Example.resolverTimesOut) Example.secondFirst true true)
              Example.twoAddresses)
  = returned (processBatch
                (liveRun (λ _, Example.resolverTimesOut) Example.inOrder false false)
                Example.twoAddresses).
Proof.
  apply returned_ignores_order_and_callbacks.
  intros i address _. reflexivity.
Defined.

(** ** processBatch: one group after the other *)

Lemma processGroup_ext (r r' : Run) (total offset : nat) (order : list nat)
    (group : list string) (b : Batch) :
  onProgress r' = onProgress r → onStatsUpdate r' = onStatsUpdate r →
  (∀ j address, group !! j = Some address →
     verify r' (offset + j) address = verify r (offset + j) address) →
  processGroup r' total offset order group b = processGroup r total offset order group b.
Proof.
  intros Hp Hs Hsame. unfold processGroup. f_equal.
  - revert b. induction order as [|i order IH]; intros b; cbn [fold_left]; [reflexivity |].
    destruct (group !! i) as [address|] eqn:Hi; [|apply IH].
    rewrite (Hsame i address Hi).
    replace (afterVerify r' total address (verify r (offset + i) address) b)
      with (afterVerify r total address (verify r (offset + i) address) b); [apply IH |].
    unfold afterVerify. now rewrite Hp, Hs.
  - now apply groupValues_ext.
Qed.

Lemma groupValues_pending (r : Run) (group : list string) : ∀ index j address,
  group !! j = Some address → verify r (index + j) address = Pending →
  groupValues r index group = None.
Proof.
  induction group as [|a rest IH]; intros index j address Hj Hpending; [discriminate |].
  cbn [groupValues]. destruct j as [|j]; simpl in Hj.
  - injection Hj as ->. rewrite Nat.add_0_r in Hpending. now rewrite Hpending.
  - rewrite (IH (S index) j address Hj) by now rewrite Nat.add_succ_comm.
    now destruct (groupValue a (verify r index a)).
Qed.

Lemma processGroups_stall (r r' : Run) (total limit : nat) :
  ∀ k (groups : list (list string)) g offset b group j address,
    (∀ i grp, groups !! i = Some grp → i < k → length grp = limit) →
    groups !! k = Some group → length group ≤ limit →
    group !! j = Some address →
    verify r (offset + k * limit + j) address = Pending →
    agreeBelow (offset + S k * limit) r r' →
    processGroups r' total g offset groups b = processGroups r total g offset groups b ∧
    snd (processGroups r total g offset groups b) = false.
Proof.
  induction k as [|k IH];
    intros groups g offset b group j address Hfull Hk Hlen Hj Hpending Hagree;
    destruct groups as [|first rest]; try discriminate; cbn [processGroups];
    destruct Hagree as (Hverify & Horder & Hp & Hs).
  - cbn in Hk. injection Hk as ->.
    rewrite Horder.
    rewrite (processGroup_ext r r' total offset (completionOrder r g) group b Hp Hs).
    2:{ intros i a Hi. apply Hverify. apply lookup_lt_Some in Hi. lia. }
    unfold processGroup.
    rewrite (groupValues_pending r group offset j address Hj)
      by now rewrite Nat.add_0_r in Hpending.
    split; reflexivity.
  - assert (Hfirst : length first = limit) by (apply (Hfull 0); [reflexivity | lia]).
    rewrite Horder.
    rewrite (processGroup_ext r r' total offset (completionOrder r g) first b Hp Hs).
    2:{ intros i a Hi. apply Hverify. apply lookup_lt_Some in Hi. lia. }
    destruct (processGroup r total offset (completionOrder r g) first b) as [b1 [vs|]].
    2:{ split; reflexivity. }
    apply (IH rest (S g) (offset + length first) _ group j address).
    + intros i grp Hi Hlt. apply (Hfull (S i)); [exact Hi | lia].
    + exact Hk.
    + exact Hlen.
    + exact Hj.
    + rewrite Hfirst. rewrite <- Hpending. f_equal. lia.
    + rewrite Hfirst. split; [|auto]. intros i a Hi. apply Hverify. lia.
Qed.

Lemma groupsOf_lengths {A : Type} (items : list A) (k : nat) (group : list A) :
  groupsOf concurrentLimit items !! k = Some group →
  length group ≤ concurrentLimit ∧
  ∀ i grp, groupsOf concurrentLimit items !! i = Some grp → i < k →
           length grp = concurrentLimit.
Proof.
  unfold groupsOf. intros Hk.
  rewrite slices_lookup in Hk by (unfold concurrentLimit; lia).
  destruct (k * concurrentLimit <? length items) eqn:Hlt; [|discriminate].
  apply Nat.ltb_lt in Hlt. injection Hk as <-. split.
  - rewrite length_take. lia.
  - intros i grp Hi Hik. rewrite slices_lookup in Hi by (unfold concurrentLimit; lia).
    destruct (i * concurrentLimit <? length items); [|discriminate].
    injection Hi as <-. rewrite length_take, length_drop.
    unfold concurrentLimit in *. nia.
Qed.

(** X26.  A group is started only when the group before it is complete.  While a
    verification of group [k] stays pending, [processBatch] does not
    return, and nothing it does (the calls of the callbacks included)
    depends on how the addresses of the later groups would verify. *)
Theorem pending_verification_stalls_batch (r r' : Run) (emails : list string)
    (k j : nat) (group : list string) (address : string) :
  groupsOf concurrentLimit emails !! k = Some group →
  group !! j = Some address →
  verify r (k * concurrentLimit + j) address = Pending →
  agreeBelow (S k * concurrentLimit) r r' →
  returned (processBatch r emails) = Pending ∧
  processBatch r' emails = processBatch r emails.
Proof.
  intros Hk Hj Hpending Hagree.
  destruct (groupsOf_lengths emails k group Hk) as [Hlen Hfull].
  destruct (processGroups_stall r r' (length emails) concurrentLimit k
              (groupsOf concurrentLimit emails) 0 0
              {| results := []; completed := 0; calls := [] |}
              group j address Hfull Hk Hlen Hj Hpending Hagree) as [Hsame Hflag].
  unfold processBatch. rewrite Hsame.
  destruct (processGroups r _ 0 0 _ _) as [b flag]. cbn [snd] in Hflag. subst flag.
  split; reflexivity.
Qed.

Lemma pending_verification_stalls_batch_witness :
  let emails := repeat "a@ex.com"%string 6 in
  let r := liveRun (λ _, Example.closingHost) Example.inOrder true true in
  let r' := liveRun (λ i, if i <? 5 then Example.closingHost else Example.resolverTimesOut)
              Example.inOrder true true in
  returned (processBatch r emails) = Pending ∧
  processBatch r' emails = processBatch r emails.
Proof.
  intros emails r r'.
  apply (pending_verification_stalls_batch r r' emails 0 0
           (repeat "a@ex.com"%string 5) "a@ex.com").
  - reflexivity.
  - reflexivity.
  - vm_compute. reflexivity.
  - split; [|split; [|split]]; try reflexivity.
    intros i address Hi. unfold r', r, liveRun. cbn [verify].
    destruct (Nat.ltb_spec i 5) as [_ | Hge]; [reflexivity |].
    unfold concurrentLimit in Hi. lia.
Defined.

(** ** processBatch: the reports of progress *)

Lemma progressReports_app (a b : list Call) :
  progressReports (a ++ b) = progressReports a ++ progressReports b.
Proof. apply omap_app. Qed.

Lemma reportsFrom_app (total : nat) (a b : list Verdict) : ∀ c,
  reportsFrom total c (a ++ b)
    = reportsFrom total c a ++ reportsFrom total (c + length a) b.
Proof.
  induction a as [|v a IH]; intros c; simpl.
  - now rewrite Nat.add_0_r.
  - rewrite IH. now rewrite Nat.add_succ_comm.
Qed.

Lemma reportsFrom_counters (total : nat) (vs : list Verdict) : ∀ c,
  map fst (reportsFrom total c vs) = map (λ i, (i, total)) (seq (S c) (length vs)).
Proof. induction vs as [|v vs IH]; intros c; simpl; [reflexivity |]. now rewrite IH. Qed.

Lemma reportsFrom_verdicts (total : nat) (vs : list Verdict) : ∀ c,
  map snd (reportsFrom total c vs) = vs.
Proof. induction vs as [|v vs IH]; intros c; simpl; [reflexivity |]. now rewrite IH. Qed.

Lemma groupValue_settled (address : string) (outcome : Promise Verdict) :
  outcome ≠ Pending →
  groupValue address outcome
    = Some (default (errorResult address EmptyString) (groupValue address outcome)).
Proof. destruct outcome; [congruence | reflexivity | reflexivity]. Qed.

(** One continuation: the counter advances and [onProgress] is called with
    it, whether the verification was fulfilled or rejected. *)
Lemma afterVerify_report (r : Run) (total : nat) (address : string)
    (outcome : Promise Verdict) (b : Batch) (v : Verdict) :
  onProgress r = true → groupValue address outcome = Some v →
  completed (afterVerify r total address outcome b) = S (completed b) ∧
  progressReports (calls (afterVerify r total address outcome b))
    = progressReports (calls b) ++ [(S (completed b), total, v)].
Proof.
  intros Hp Hv. destruct outcome as [|w|reason]; simpl in Hv; [discriminate | |];
    injection Hv as <-; unfold afterVerify; rewrite Hp; cbn [completed calls].
  - split; [reflexivity |].
    destruct ((S (completed b) mod 100 =? 0) && onStatsUpdate r).
    + rewrite !progressReports_app. cbn. now rewrite app_nil_r.
    + now rewrite progressReports_app.
  - split; [reflexivity |]. now rewrite progressReports_app.
Qed.

Lemma processGroup_reports (r : Run) (verdictAt : nat → string → Verdict)
    (total offset : nat) (group : list string) (order : list nat) :
  onProgress r = true →
  (∀ j address, group !! j = Some address →
     groupValue address (verify r (offset + j) address)
       = Some (verdictAt (offset + j) address)) →
  ∀ b,
    completed (fst (processGroup r total offset order group b))
      = completed b + length (completionsOf verdictAt offset order group) ∧
    progressReports (calls (fst (processGroup r total offset order group b)))
      = progressReports (calls b)
        ++ reportsFrom total (completed b) (completionsOf verdictAt offset order group).
Proof.
  intros Hp Hall. unfold processGroup, completionsOf. cbn [fst].
  induction order as [|i order IH]; intros b; cbn [fold_left omap list_omap].
  - simpl. now rewrite Nat.add_0_r, app_nil_r.
  - destruct (group !! i) as [address|] eqn:Hi; cbn [fmap option_fmap option_map].
    + destruct (afterVerify_report r total address (verify r (offset + i) address) b
                  (verdictAt (offset + i) address) Hp (Hall i address Hi)) as [Hc Hlog].
      destruct (IH (afterVerify r total address (verify r (offset + i) address) b))
        as [IHc IHlog].
      rewrite IHc, IHlog, Hc, Hlog. cbn [length reportsFrom].
      split; [lia |]. now rewrite <- app_assoc.
    + apply IH.
Qed.

Lemma processGroups_reports (r : Run) (verdictAt : nat → string → Verdict)
    (total : nat) (groups : list (list string)) :
  onProgress r = true →
  ∀ g offset b,
    (∀ j address, concat groups !! j = Some address →
       groupValue address (verify r (offset + j) address)
         = Some (verdictAt (offset + j) address)) →
    ∃ b', processGroups r total g offset groups b = (b', true) ∧
      results b' = results b ++ verdictsFrom verdictAt offset (concat groups) ∧
      progressReports (calls b')
        = progressReports (calls b)
          ++ reportsFrom total (completed b)
               (concat (completionsFrom r verdictAt g offset groups)).
Proof.
  intros Hp. induction groups as [|group rest IH]; intros g offset b Hall;
    cbn [processGroups].
  - exists b. simpl. now rewrite !app_nil_r.
  - assert (Hgroup : ∀ j address, group !! j = Some address →
              groupValue address (verify r (offset + j) address)
                = Some (verdictAt (offset + j) address)).
    { intros j address Hj. apply Hall. simpl. now apply lookup_app_l_Some. }
    destruct (processGroup_reports r verdictAt total offset group (completionOrder r g)
                Hp Hgroup b) as [Hc Hlog].
    pose proof (processGroup_results r total offset (completionOrder r g) group b) as Hres.
    destruct (processGroup r total offset (completionOrder r g) group b)
      as [b1 values] eqn:Hpg.
    assert (Hvalues : values = Some (verdictsFrom verdictAt offset group)).
    { replace values with (snd (processGroup r total offset (completionOrder r g) group b))
        by now rewrite Hpg.
      cbn [processGroup snd]. now apply groupValues_settled. }
    subst values. cbn [fst] in Hc, Hlog, Hres.
    destruct (IH (S g) (offset + length group)
                {| results := results b1 ++ verdictsFrom verdictAt offset group;
                   completed := completed b1; calls := calls b1 |})
      as (b' & Hrun & Hres' & Hlog').
    { intros j address Hj. rewrite <- Nat.add_assoc. apply Hall.
      simpl. rewrite lookup_app_r by lia.
      now replace (length group + j - length group) with j by lia. }
    exists b'. split; [exact Hrun |]. cbn [results completed calls] in Hres', Hlog'.
    split.
    + rewrite Hres', Hres. simpl. now rewrite verdictsFrom_app, app_assoc.
    + rewrite Hlog', Hlog, Hc. cbn [completionsFrom concat].
      now rewrite reportsFrom_app, app_assoc.
Qed.

Lemma concat_permutation {A : Type} (xs ys : list (list A)) :
  Forall2 (≡ₚ) xs ys → concat xs ≡ₚ concat ys.
Proof.
  induction 1 as [|x y xs ys Hxy _ IH]; simpl; [reflexivity |].
  now apply Permutation_app.
Qed.

(** X27.  When [onProgress] is passed and every verification settles, fulfilled
    or rejected, it is called once for each address: the counters of the
    calls are 1, 2, ... up to the size of the batch, each with that size as
    total, and the verdicts of the calls are the results returned, in the
    order they completed. *)
Theorem every_result_is_reported (r : Run) (emails : list string) :
  onProgress r = true →
  (∀ i address, emails !! i = Some address → verify r i address ≠ Pending) →
  fairSchedule r emails →
  ∃ results stats,
    returned (processBatch r emails) = Fulfilled (results, stats) ∧
    map fst (progressReports (callbackCalls (processBatch r emails)))
      = map (λ c, (c, length emails)) (seq 1 (length emails)) ∧
    map snd (progressReports (callbackCalls (processBatch r emails))) ≡ₚ results.
Proof.
  intros Hp Hsettle Hfair. unfold processBatch.
  destruct (processGroups_reports r (settledVerdict r) (length emails)
              (groupsOf concurrentLimit emails) Hp 0 0
              {| results := []; completed := 0; calls := [] |})
    as (b' & Hrun & Hres & Hlog).
  { rewrite concat_groupsOf. intros j address Hj. cbn [Nat.add].
    apply groupValue_settled. now apply Hsettle. }
  rewrite Hrun. cbn [results completed calls progressReports omap list_omap app] in Hres, Hlog.
  rewrite concat_groupsOf in Hres.
  assert (Hperm : concat (completionsFrom r (settledVerdict r) 0 0
                            (groupsOf concurrentLimit emails))
                  ≡ₚ verdictsFrom (settledVerdict r) 0 emails).
  { rewrite <- (concat_slices concurrentLimit (length emails)
                  (verdictsFrom (settledVerdict r) 0 emails));
      [|unfold concurrentLimit; lia | now rewrite verdictsFrom_length].
    apply concat_permutation. apply completions_permutation.
    intros k group Hk. now apply Hfair. }
  assert (Hreports : progressReports
            (if onStatsUpdate r
             then calls b' ++ [OnStatsUpdate (analyzeResults (results b'))]
             else calls b')
          = progressReports (calls b')).
  { destruct (onStatsUpdate r); [|reflexivity].
    rewrite progressReports_app. cbn. now rewrite app_nil_r. }
  exists (results b'), (analyzeResults (results b')). cbn [returned callbackCalls].
  rewrite Hreports, Hlog. cbn [app].
  split; [reflexivity |]. split.
  - rewrite reportsFrom_counters. rewrite (Permutation_length Hperm), verdictsFrom_length.
    reflexivity.
  - rewrite reportsFrom_verdicts, Hres. exact Hperm.
Qed.

Lemma every_result_is_reported_witness :
  ∃ results stats,
    returned (processBatch Sample.secondRejected Example.twoAddresses)
      = Fulfilled (results, stats) ∧
    map fst (progressReports
               (callbackCalls (processBatch Sample.secondRejected Example.twoAddresses)))
      = [(1, 2); (2, 2)] ∧
    map snd (progressReports
               (callbackCalls (processBatch Sample.secondRejected Example.twoAddresses)))
      ≡ₚ results.
Proof.
  apply (every_result_is_reported Sample.secondRejected Example.twoAddresses).
  - reflexivity.
  - intros [|[|i]] address Hi; [| |discriminate]; injection Hi as <-; discriminate.
  - intros [|g] group Hg; [|discriminate]. injection Hg as <-. apply perm_swap.
Defined.

(** ** A batch over the verifier *)

Lemma processBatch_statistics (r : Run) (emails : list string)
    (results : list Verdict) (statistics : Stats.t) :
  returned (processBatch r emails) = Fulfilled (results, statistics) →
  statistics = analyzeResults results.
Proof.
  unfold processBatch.
  destruct (processGroups r _ 0 0 _ _) as [b [|]]; cbn [returned]; [|discriminate].
  now intros [= <- <-].
Qed.

Lemma tallied_absent (c : string) (results : list Verdict) :
  Forall (λ v, countedAs v ≠ c) results → tallied c results = 0.
Proof.
  unfold tallied. induction 1 as [|v results Hv _ IH]; simpl; [reflexivity |].
  apply String.eqb_neq in Hv. now rewrite Hv.
Qed.

(** X28.  What a batch over [verifyEmail] returns: one verdict for each address,
    with that address, a category among the nine the verifier can reach
    and [isValid] set exactly for [valid]; and statistics, computed from
    those verdicts, in which [valid] and [invalid] add up to the number of
    addresses, so do the counts of the histogram, and the counts of
    [dns_error] and [processing_error] are zero. *)
Theorem live_batch_statistics (world : nat → Network) (order : nat → list nat)
    (progress stats : bool) (emails : list string)
    (results : list Verdict) (statistics : Stats.t) :
  returned (processBatch (liveRun world order progress stats) emails)
    = Fulfilled (results, statistics) →
  statistics = analyzeResults results ∧
  map email results = emails ∧
  Forall (λ v, category v ∈ verifierCategories ∧
               (isValid v = true ↔ category v = "valid"%string)) results ∧
  Stats.total statistics = length emails ∧
  Stats.valid statistics + Stats.invalid statistics = length emails ∧
  sumCounts (Stats.categories statistics) = length emails ∧
  countOf (Stats.categories statistics) "dns_error" = 0 ∧
  countOf (Stats.categories statistics) "processing_error" = 0.
Proof.
  intros Hret.
  pose proof (processBatch_statistics _ _ _ _ Hret) as ->.
  destruct (processBatch_returned _ _ _ _ Hret) as [Hlen Hat].
  destruct (liveRun_results _ _ _ _ _ _ _ Hret) as [Hcons Hplain].
  assert (Hshape : ∀ i v, results !! i = Some v →
            emails !! i = Some (email v) ∧ category v ∈ verifierCategories ∧
            (isValid v = true ↔ category v = "valid"%string)).
  { intros i v Hi.
    assert (Hlt : i < length emails) by (rewrite <- Hlen; now apply lookup_lt_Some in Hi).
    destruct (lookup_lt_is_Some_2 emails i Hlt) as [address Ha].
    destruct (Hat i address Ha) as (v' & Hv' & Hval).
    assert (v' = v) as -> by congruence. cbn [liveRun verify] in Hval.
    destruct (verifyEmail (world i) address) as [|w|reason] eqn:Hverify;
      cbn [groupValue] in Hval; [discriminate | |].
    - injection Hval as <-.
      destruct (verifyEmail_category _ _ _ Hverify) as (Hc & Hin).
      rewrite (verifyEmail_email _ _ _ Hverify). auto.
    - exfalso. exact (verifyEmail_not_rejected _ _ _ Hverify). }
  assert (Hlength : Stats.total (analyzeResults results) = length emails).
  { rewrite analyzeResults_fold, fold_tally. cbn [Stats.total initialStats]. exact Hlen. }
  split; [reflexivity |]. split; [|split; [|split; [exact Hlength | split; [|split]]]].
  - apply list_eq. intros i. change (map email results) with (email <$> results).
    rewrite list_lookup_fmap.
    destruct (results !! i) as [v|] eqn:Hi; cbn.
    + now destruct (Hshape i v Hi) as [-> _].
    + symmetry. apply lookup_ge_None. apply lookup_ge_None in Hi. lia.
  - apply Forall_lookup. intros i v Hi. now destruct (Hshape i v Hi) as (_ & ? & ?).
  - rewrite analyzeResults_fold, fold_tally.
    cbn [Stats.total Stats.valid Stats.invalid initialStats].
    pose proof (count_valid_invalid results). lia.
  - rewrite (analyzeResults_categories results Hplain), sumCounts_fold_bump.
    rewrite sumCounts_initialCategories. exact Hlen.
  - assert (Habsent : ∀ c, c ∉ verifierCategories → tallied c results = 0).
    { intros c Hc. apply tallied_absent. apply Forall_lookup. intros i v Hi.
      destruct (Hshape i v Hi) as (_ & Hin & Hiff).
      rewrite (consistent_countedAs v Hiff). congruence. }
    split; rewrite (analyzeResults_countOf _ results Hplain); apply Habsent;
      unfold verifierCategories; rewrite !not_elem_of_cons;
      repeat split; try discriminate; apply not_elem_of_nil.
Qed.

Lemma live_batch_statistics_witness :
  ∃ results statistics,
    returned (processBatch
                (liveRun (λ _, Example.resolverTimesOut) Example.secondFirst true true)
                Example.twoAddresses) = Fulfilled (results, statistics) ∧
    map email results = Example.twoAddresses ∧
    sumCounts (Stats.categories statistics) = 2 ∧
    countOf (Stats.categories statistics) "processing_error" = 0.
Proof.
  eexists _, _. split; [reflexivity |].
  destruct (live_batch_statistics (λ _, Example.resolverTimesOut) Example.secondFirst
              true true Example.twoAddresses _ _ eq_refl)
    as (_ & Hemails & _ & _ & _ & Hsum & _ & Herror).
  split; [exact Hemails | split; [exact Hsum | exact Herror]].
Defined.

(** ** The addresses of an uploaded file *)

Section UploadFacts.

Import Upload.

Lemma trimStart_startsBlack (s : JsString) : startsBlack (trimStart s).
Proof.
  induction s as [|u s IH]; simpl; [exact I |].
  destruct (isSpace u) eqn:Hu; [exact IH | exact Hu].
Qed.

Lemma trimStart_fixed (s : JsString) : startsBlack s → trimStart s = s.
Proof. destruct s as [|u s]; simpl; [reflexivity |]. now intros ->. Qed.

Lemma trimStart_suffix (s : JsString) : trimStart s `suffix_of` s.
Proof.
  induction s as [|u s IH]; simpl; [reflexivity |].
  destruct (isSpace u); [now apply suffix_cons_r | reflexivity].
Qed.

Lemma trimEnd_prefix (s : JsString) : trimEnd s `prefix_of` s.
Proof.
  induction s as [|u s IH]; simpl; [reflexivity |].
  destruct (trimEnd s) as [|k kept].
  - destruct (isSpace u); [apply prefix_nil | apply prefix_cons, prefix_nil].
  - now apply prefix_cons.
Qed.

Lemma trimEnd_idempotent (s : JsString) : trimEnd (trimEnd s) = trimEnd s.
Proof.
  induction s as [|u s IH]; simpl; [reflexivity |].
  destruct (trimEnd s) as [|k kept] eqn:Hs.
  - destruct (isSpace u) eqn:Hu; simpl; [reflexivity | now rewrite Hu].
  - cbn [trimEnd] in *. now rewrite IH.
Qed.

Lemma prefix_startsBlack (a s : JsString) :
  a `prefix_of` s → startsBlack s → startsBlack a.
Proof.
  intros [k ->] Hs. destruct a as [|u a]; [exact I | exact Hs].
Qed.

Lemma trim_prefix_of_black (s : JsString) : startsBlack s → trim s `prefix_of` s.
Proof. intros Hs. unfold trim. rewrite (trimStart_fixed s Hs). apply trimEnd_prefix. Qed.

Lemma trim_startsBlack (s : JsString) : startsBlack (trim s).
Proof.
  unfold trim. apply (prefix_startsBlack _ (trimStart s));
    [apply trimEnd_prefix | apply trimStart_startsBlack].
Qed.

Lemma trim_idempotent (s : JsString) : trim (trim s) = trim s.
Proof.
  unfold trim at 1. rewrite (trimStart_fixed _ (trim_startsBlack s)).
  unfold trim. apply trimEnd_idempotent.
Qed.

Lemma includes_In (u : N) (s : JsString) : includes u s = true ↔ In u s.
Proof.
  unfold includes. rewrite existsb_exists. split.
  - intros (x & Hx & Heq). apply N.eqb_eq in Heq. now subst.
  - intros Hu. exists u. split; [exact Hu | apply N.eqb_refl].
Qed.

Lemma includes_false_incl (u : N) (a s : JsString) :
  (∀ x, In x a → In x s) → includes u s = false → includes u a = false.
Proof.
  intros Hincl Hs. destruct (includes u a) eqn:Ha; [|reflexivity].
  apply includes_In, Hincl, includes_In in Ha. congruence.
Qed.

Lemma trim_In (s : JsString) (x : N) : In x (trim s) → In x s.
Proof.
  unfold trim. intros Hx.
  apply list_elem_of_In in Hx. apply list_elem_of_In.
  pose proof (elem_of_prefix _ _ _ Hx (trimEnd_prefix (trimStart s))) as Hx'.
  destruct (trimStart_suffix s) as [k Hk]. rewrite Hk.
  apply elem_of_app. now right.
Qed.

Lemma split_units_nonempty (sep : N) (s : JsString) : ∃ h t, split sep s = h :: t.
Proof.
  induction s as [|u s (h & t & IH)]; simpl; [eauto |].
  destruct (u =? sep)%N; [eauto |]. rewrite IH. eauto.
Qed.

Lemma split_no_sep (sep : N) (s : JsString) :
  Forall (λ piece, includes sep piece = false) (split sep s).
Proof.
  induction s as [|u s IH]; simpl.
  - constructor; [reflexivity | constructor].
  - destruct (N.eqb_spec u sep) as [-> | Hne].
    + constructor; [reflexivity | exact IH].
    + assert (Hu : (sep =? u)%N = false) by (apply N.eqb_neq; congruence).
      destruct (split_units_nonempty sep s) as (h & t & Heq). rewrite Heq in *.
      inversion IH as [|? ? Hh Ht]; subst.
      constructor; [|exact Ht]. unfold includes in *. cbn [existsb].
      now rewrite Hu.
Qed.

Lemma split_hd (sep : N) (s : JsString) :
  hd [] (split sep s) `prefix_of` s ∧ includes sep (hd [] (split sep s)) = false.
Proof.
  split.
  - induction s as [|u s IH]; simpl; [reflexivity |].
    destruct (u =? sep)%N; [apply prefix_nil |].
    destruct (split sep s) as [|h t]; simpl in *; now apply prefix_cons.
  - pose proof (split_no_sep sep s) as H.
    destruct (split_units_nonempty sep s) as (h & t & Heq). rewrite Heq in *.
    now inversion H.
Qed.

Lemma startsWith_prefix (p a s : JsString) :
  a `prefix_of` s → length p ≤ length a → startsWith p a = startsWith p s.
Proof.
  intros [k ->]. revert a. induction p as [|x p IH]; intros a Hlen; [now destruct a |].
  destruct a as [|y a]; simpl in Hlen; [lia |]. simpl.
  rewrite (IH a) by lia. reflexivity.
Qed.

Lemma prefix_In {A : Type} (a s : list A) (x : A) : a `prefix_of` s → In x a → In x s.
Proof. intros [k ->] Hx. apply in_or_app. now left. Qed.

(** A line that passes the filter yields a clean address. *)
Lemma address_clean (piece : JsString) :
  includes lineFeed piece = false → accepted (trim piece) = true →
  clean (address (trim piece)).
Proof.
  intros Hlf. set (line := trim piece).
  assert (Hblack : startsBlack line) by apply trim_startsBlack.
  assert (Hline_lf : includes lineFeed line = false).
  { apply (includes_false_incl _ _ piece); [apply trim_In | exact Hlf]. }
  assert (Htrim : trim line = line) by apply trim_idempotent.
  unfold accepted, address.
  destruct (length line =? 0) eqn:Hlen; [discriminate |].
  destruct (startsWith [hash] line) eqn:Hhash; [discriminate |].
  destruct (startsWith [slash; slash] line) eqn:Hslash; [discriminate |].
  destruct (includes comma line) eqn:Hcomma; intros Hacc;
    apply andb_true_iff in Hacc as [Hat Hlong]; apply Nat.ltb_lt in Hlong.
  - destruct (split_hd comma line) as [Hprefix Hnocomma].
    assert (Hcol : firstColumn line `prefix_of` line).
    { unfold firstColumn. etransitivity; [|exact Hprefix].
      apply trim_prefix_of_black. exact (prefix_startsBlack _ _ Hprefix Hblack). }
    unfold clean. repeat split.
    + exact Hat.
    + exact Hlong.
    + unfold firstColumn. apply trim_idempotent.
    + unfold firstColumn.
      apply (includes_false_incl _ _ (hd [] (split comma line)));
        [apply trim_In | exact Hnocomma].
    + apply (includes_false_incl _ _ line); [|exact Hline_lf].
      intros x. now apply prefix_In.
    + rewrite (startsWith_prefix _ _ line Hcol); [exact Hhash | simpl; lia].
    + rewrite (startsWith_prefix _ _ line Hcol); [exact Hslash | simpl; lia].
  - unfold clean. repeat split; assumption.
Qed.

Lemma parseEmails_clean (content a : JsString) :
  In a (parseEmails content) → clean a.
Proof.
  unfold parseEmails. intros Ha.
  apply (prefix_In _ _ _ (prefix_take _ _)) in Ha.
  apply in_map_iff in Ha as (line & <- & Hline).
  apply filter_In in Hline as [Hline Hacc].
  apply in_map_iff in Hline as (piece & <- & Hpiece).
  apply address_clean; [|exact Hacc].
  pose proof (split_no_sep lineFeed content) as Hall.
  rewrite List.Forall_forall in Hall. now apply Hall.
Qed.

Lemma clean_accepted (a : JsString) : clean a → accepted a = true ∧ address a = a.
Proof.
  intros (Hat & Hlong & _ & Hcomma & _ & Hhash & Hslash).
  unfold accepted, address. rewrite Hhash, Hslash, Hcomma, Hat.
  destruct (length a =? 0) eqn:Hz; [apply Nat.eqb_eq in Hz; lia |].
  split; [|reflexivity]. simpl. apply Nat.ltb_lt. exact Hlong.
Qed.

Lemma split_line (sep : N) (line rest : JsString) :
  includes sep line = false →
  split sep (line ++ sep :: rest) = line :: split sep rest.
Proof.
  induction line as [|u line IH]; intros Hline; simpl.
  - now rewrite N.eqb_refl.
  - simpl in Hline. apply orb_false_iff in Hline as [Hu Hline].
    rewrite N.eqb_sym, Hu, (IH Hline). reflexivity.
Qed.

Lemma split_last (sep : N) (line : JsString) :
  includes sep line = false → split sep line = [line].
Proof.
  induction line as [|u line IH]; intros Hline; simpl; [reflexivity |].
  simpl in Hline. apply orb_false_iff in Hline as [Hu Hline].
  rewrite N.eqb_sym, Hu, (IH Hline). reflexivity.
Qed.

Lemma split_joinLines (lines : list JsString) :
  lines ≠ [] → Forall (λ line, includes lineFeed line = false) lines →
  split lineFeed (joinLines lines) = lines.
Proof.
  induction lines as [|line lines IH]; intros Hne Hall; [congruence |].
  inversion Hall as [|? ? Hline Hrest]; subst.
  destruct lines as [|next lines].
  - simpl. now apply split_last.
  - change (joinLines (line :: next :: lines))
      with (line ++ lineFeed :: joinLines (next :: lines)).
    rewrite (split_line _ _ _ Hline), IH; [reflexivity | discriminate | exact Hrest].
Qed.

Lemma map_fixed {A : Type} (f : A → A) (l : list A) :
  (∀ x, In x l → f x = x) → map f l = l.
Proof.
  induction l as [|x l IH]; intros H; simpl; [reflexivity |].
  rewrite (H x) by now left. rewrite IH; [reflexivity |].
  intros y Hy. apply H. now right.
Qed.

Lemma filter_all {A : Type} (f : A → bool) (l : list A) :
  (∀ x, In x l → f x = true) → List.filter f l = l.
Proof.
  induction l as [|x l IH]; intros H; simpl; [reflexivity |].
  rewrite (H x) by now left. rewrite IH; [reflexivity |].
  intros y Hy. apply H. now right.
Qed.

(** Clean addresses written one per line are read back as they are. *)
Lemma parseEmails_joinLines (lines : list JsString) :
  Forall clean lines → length lines ≤ maxEmails →
  parseEmails (joinLines lines) = lines.
Proof.
  intros Hclean Hlen. unfold parseEmails.
  destruct lines as [|line lines]; [apply take_nil |].
  rewrite List.Forall_forall in Hclean.
  rewrite split_joinLines; [|discriminate |].
  2:{ apply List.Forall_forall. intros a Ha. now destruct (Hclean a Ha) as (_ & _ & _ & _ & H & _). }
  rewrite (map_fixed trim).
  2:{ intros a Ha. now destruct (Hclean a Ha) as (_ & _ & H & _). }
  rewrite filter_all.
  2:{ intros a Ha. now apply clean_accepted, Hclean. }
  rewrite (map_fixed address).
  2:{ intros a Ha. now apply clean_accepted, Hclean. }
  now apply take_ge.
Qed.

End UploadFacts.

(** X29.  Every address taken from an uploaded file has an [@] and more than
    three code units, has no white space at either end, contains neither a
    comma nor a line feed, and starts with neither [#] nor [//]; and at most
    50,000 addresses are taken from a file. *)
Theorem uploaded_addresses_are_clean (content : Upload.JsString) :
  (N.of_nat (length (Upload.parseEmails content)) ≤ 50000)%N ∧
  ∀ a, a ∈ Upload.parseEmails content → Upload.clean a.
Proof.
  split.
  - unfold Upload.parseEmails, Upload.maxEmails. rewrite length_take. lia.
  - intros a Ha. apply list_elem_of_In in Ha. now apply (parseEmails_clean content).
Qed.

(** X30.  Parsing is idempotent: the addresses taken from a file, written one
    per line, are the addresses taken from what was written. *)
Theorem parsing_twice_changes_nothing (content : Upload.JsString) :
  Upload.parseEmails (Upload.joinLines (Upload.parseEmails content))
    = Upload.parseEmails content.
Proof.
  apply parseEmails_joinLines.
  - apply List.Forall_forall. intros a. apply parseEmails_clean.
  - unfold Upload.parseEmails. rewrite length_take. lia.
Qed.

Lemma uploaded_addresses_are_clean_witness :
  Upload.parseEmails Upload.sampleFile = [Upload.units "a@ex.com"; Upload.units "b@ex.com"] ∧
  Upload.clean (Upload.units "b@ex.com").
Proof.
  split; [vm_compute; reflexivity |].
  apply (proj2 (uploaded_addresses_are_clean Upload.sampleFile)).
  apply list_elem_of_In. vm_compute. right. left. reflexivity.
Defined.
